(** * Crossword generator (generate.py): a shallow embedding

    The solver of [generate.py] is a class [CrosswordCreator] holding a
    crossword (read only) and a dictionary [self.domains] from variables
    to sets of words.  The methods mutate that dictionary in place and
    [backtrack] keeps references to copies of it, so the embedding keeps a
    store of dictionary objects and the address [self.domains] refers to.

    Conventions used throughout.
    - A Python [set] or the key set of a [dict] is the list of its
      elements in iteration order; removing an element keeps the order of
      the others, and [set.copy()] keeps the order.
    - A Python exception is the [Raise] outcome of a computation.
    - Loops that are not bounded by the data ([while] in [ac3], the
      recursion of [backtrack]) take a fuel argument; [ac3] and [solve]
      compute a sufficient amount of it. *)

From Stdlib Require Import List String Ascii Arith Bool Lia Permutation Sorted.
From stdpp Require Import base list gmap.
Import ListNotations.
Local Open Scope string_scope.
Local Open Scope nat_scope.
Local Open Scope list_scope.

(** ** The puzzle model (module [crossword], imported by [generate.py]) *)

Inductive Direction := ACROSS | DOWN.

Module Var.

(** Modelled from the spec: the class [Variable] of module [crossword]
    is not part of [generate.py].  A variable is one word slot: a start
    position (row [i], column [j]), a direction and a length; equality
    is by these four fields. *)
Record t := mk { i : nat; j : nat; direction : Direction; length : nat }.

Definition direction_eqb (a b : Direction) : bool :=
  match a, b with
  | ACROSS, ACROSS | DOWN, DOWN => true
  | _, _ => false
  end.

Definition eqb (a b : t) : bool :=
  (i a =? i b) && (j a =? j b) && direction_eqb (direction a) (direction b)
  && (length a =? length b).

End Var.

Abbreviation str := string (only parsing).
Abbreviation arc := (Var.t * Var.t)%type (only parsing).

(** An assignment: the items of the dictionary in insertion order. *)
Abbreviation Assignment := (list (Var.t * string)) (only parsing).

(** Modelled from the spec: the class [Crossword] of module [crossword].
    [variables] is the variable set in its iteration order, [words] the
    vocabulary, and [overlaps x y] the entry of the overlap relation for
    the ordered pair [(x, y)]: [None] when the two do not overlap,
    [Some (ix, iy)] when character [ix] of [x]'s word must equal
    character [iy] of [y]'s word.  The grid itself (height, width,
    structure) is only used for printing and is left out. *)
Record Crossword := {
  variables : list Var.t;
  words : list str;
  overlaps : Var.t -> Var.t -> option (nat * nat)
}.

Definition is_variable (c : Crossword) (v : Var.t) : bool :=
  existsb (Var.eqb v) (variables c).

(** Modelled from the spec: the keys of the dictionary
    [crossword.overlaps], every ordered pair of distinct variables, in the
    order a nested loop over the variable set inserts them. *)
Definition overlaps_keys (c : Crossword) : list arc :=
  flat_map
    (fun v1 =>
       flat_map (fun v2 => if Var.eqb v1 v2 then [] else [(v1, v2)])
                (variables c))
    (variables c).

(** Modelled from the spec: [crossword.neighbors(var)], the other
    variables that overlap [var]. *)
Definition neighbors (c : Crossword) (var : Var.t) : list Var.t :=
  List.filter
    (fun v => negb (Var.eqb v var) && bool_decide (is_Some (overlaps c v var)))
    (variables c).

(** ** Outcomes, exceptions and the object store *)

Inductive exn := IndexError | TypeError | KeyError | UnboundLocalError.

Inductive result (A : Type) : Type :=
| Ok (a : A)
| Raise (e : exn)
| OutOfFuel.
Arguments Ok {A} a.
Arguments Raise {A} e.
Arguments OutOfFuel {A}.

(** The value of a domains dictionary: its keys are always the variables
    of the crossword (no method adds or deletes a key), so it is given by
    the set stored under each variable.  Two dictionaries never share a
    set object: every set stored in one is created by [copy()] or by a set
    display, so mutating a set through a dictionary changes that
    dictionary only. *)
Definition domains := Var.t -> list str.

(** The creator object: the dictionary objects allocated so far, by
    address, the next free address, and the address held by
    [self.domains]. *)
Record creator := {
  heap : gmap nat domains;
  next : nat;
  self_domains : nat
}.

Definition M (A : Type) : Type := creator -> result A * creator.

Definition ret {A} (a : A) : M A := fun st => (Ok a, st).

Definition bind {A B} (m : M A) (f : A -> M B) : M B :=
  fun st =>
    match m st with
    | (Ok a, st') => f a st'
    | (Raise e, st') => (Raise e, st')
    | (OutOfFuel, st') => (OutOfFuel, st')
    end.

Definition raise {A} (e : exn) : M A := fun st => (Raise e, st).
Definition out_of_fuel {A} : M A := fun st => (OutOfFuel, st).

Definition lift {A} (r : result A) : M A := fun st => (r, st).

Declare Scope creator_scope.
Delimit Scope creator_scope with creator.
Notation "x <- m ;; k" := (bind m (fun x => k))
  (at level 100, m at next level, right associativity) : creator_scope.
Notation "m ;;; k" := (bind m (fun _ => k))
  (at level 100, right associativity) : creator_scope.
Local Open Scope creator_scope.

Definition rbind {A B} (r : result A) (f : A -> result B) : result B :=
  match r with
  | Ok a => f a
  | Raise e => Raise e
  | OutOfFuel => OutOfFuel
  end.

(** The dictionary [self.domains] refers to. *)
Definition current (st : creator) : domains :=
  default (fun _ => []) (heap st !! self_domains st).

(** In-place change of the dictionary [self.domains] refers to. *)
Definition set_current (d : domains) (st : creator) : creator :=
  {| heap := <[self_domains st := d]> (heap st);
     next := next st;
     self_domains := self_domains st |}.

Definition update (d : domains) (x : Var.t) (ws : list str) : domains :=
  fun v => if Var.eqb v x then ws else d v.

Definition remove (w : str) (ws : list str) : list str :=
  List.filter (fun w' => negb (String.eqb w' w)) ws.

Section Creator.

Variable c : Crossword.

(** [self.crossword.overlaps[x, y]] *)
Definition overlaps_get (x y : Var.t) : result (option (nat * nat)) :=
  if is_variable c x && is_variable c y && negb (Var.eqb x y)
  then Ok (overlaps c x y) else Raise KeyError.

(** [self.domains[x]] (read) *)
Definition domains_get (x : Var.t) : M (list str) :=
  fun st => if is_variable c x then (Ok (current st x), st) else (Raise KeyError, st).

(** [self.domains[x].remove(w)] *)
Definition domains_remove (x : Var.t) (w : str) : M unit :=
  fun st => (Ok tt, set_current (update (current st) x (remove w (current st x))) st).

(** [self.domains[x] = ws] *)
Definition domains_set (x : Var.t) (ws : list str) : M unit :=
  fun st => (Ok tt, set_current (update (current st) x ws) st).

(** [self.domains = <object at a>] *)
Definition set_self_domains (a : nat) : M unit :=
  fun st => (Ok tt, {| heap := heap st; next := next st; self_domains := a |}).

(** [word[k]] *)
Definition getitem (w : str) (k : nat) : result ascii :=
  match String.get k w with
  | Some ch => Ok ch
  | None => Raise IndexError
  end.

(** [for x in xs: body(x)] *)
Fixpoint for_each {A} (xs : list A) (body : A -> M unit) : M unit :=
  match xs with
  | [] => ret tt
  | x :: xs' => body x ;;; for_each xs' body
  end.

(** [__init__]: one dictionary, every variable mapped to a copy of the
    vocabulary. *)
Definition init : creator :=
  {| heap := {[ 0 := fun _ => words c ]}; next := 1; self_domains := 0 |}.

(** *** Node consistency *)

Definition enforce_node_consistency : M unit :=
  for_each (variables c) (fun var =>
    words <- domains_get var ;;
    for_each words (fun word =>
      if negb (String.length word =? Var.length var)
      then domains_remove var word
      else ret tt)).

(** *** Arc consistency *)

(** [any(yword[iy] == xLetter for yword in ys)]: the generator stops at
    the first match. *)
Fixpoint any_match (iy : nat) (xLetter : ascii) (ys : list str) : result bool :=
  match ys with
  | [] => Ok false
  | yword :: ys' =>
      rbind (getitem yword iy) (fun ch =>
        if Ascii.eqb ch xLetter then Ok true else any_match iy xLetter ys')
  end.

(** The loop of [revise] over the copy [words] of [self.domains[x]];
    [revised] is the flag so far. *)
Fixpoint revise_loop (x y : Var.t) (overlap : nat * nat)
         (words : list str) (revised : bool) : M bool :=
  match words with
  | [] => ret revised
  | word :: words' =>
      xLetter <- lift (getitem word (fst overlap)) ;;
      ys <- domains_get y ;;
      found <- lift (any_match (snd overlap) xLetter ys) ;;
      if negb found
      then domains_remove x word ;;; revise_loop x y overlap words' true
      else revise_loop x y overlap words' revised
  end.

Definition revise (x y : Var.t) : M bool :=
  overlap <- lift (overlaps_get x y) ;;
  match overlap with
  | Some o =>
      words <- domains_get x ;;
      revise_loop x y o words false
  | None => ret false
  end.

(** One pass of the [while] loop of [ac3], for the arc [(x, y)] just
    taken from the queue and the rest [arcs] of the queue: [inl b] when
    the pass executes [return b], [inr arcs'] when it ends with the
    queue [arcs']. *)
Definition ac3_pass (x y : Var.t) (arcs : list arc) : M (bool + list arc) :=
  revised <- revise x y ;;
  if revised
  then
    dx <- domains_get x ;;
    if List.length dx =? 0
    then ret (inl false)
    else ret (inr (arcs ++ map (fun z => (z, x)) (neighbors c x)))
  else ret (inr arcs).

(** The [while] loop of [ac3] over the queue [arcs]. *)
Fixpoint ac3_loop (fuel : nat) (arcs : list arc) : M bool :=
  match arcs with
  | [] => ret true
  | (x, y) :: rest =>
      match fuel with
      | 0 => out_of_fuel
      | S fuel' =>
          r <- ac3_pass x y rest ;;
          match r with
          | inl b => ret b
          | inr arcs' => ac3_loop fuel' arcs'
          end
      end
  end.

Definition total_size (d : domains) : nat :=
  list_sum (map (fun v => List.length (d v)) (variables c)).

(** Enough fuel for the queue [arcs] on the store [d]: every pass
    removes an arc, and a pass that adds arcs removes a word. *)
Definition ac3_fuel (arcs : list arc) (d : domains) : nat :=
  S (List.length arcs + List.length (variables c) * total_size d).

(** [arcs] is [None] for the default argument and [Some q] for a
    [Queue] object [q]; a [Queue] is always true in a condition, so
    [not arcs] holds for [None] only. *)
Definition ac3 (arcs : option (list arc)) : M bool :=
  let arcs :=
    match arcs with
    | None => overlaps_keys c
    | Some q => q
    end in
  fun st => ac3_loop (ac3_fuel arcs (current st)) arcs st.

Definition get_neighbors_overlap_queue (var : Var.t) : list arc :=
  List.filter (fun overlap => Var.eqb (snd overlap) var) (overlaps_keys c).

(** [make_domains_copy]: a new dictionary with a copy of every set; the
    result is its address. *)
Definition make_domains_copy : M nat :=
  fun st =>
    (Ok (next st),
     {| heap := <[next st := current st]> (heap st);
        next := S (next st);
        self_domains := self_domains st |}).

(** *** Assignments *)

(** [var in assignment] *)
Definition contains (assignment : Assignment) (var : Var.t) : bool :=
  existsb (fun e => Var.eqb (fst e) var) assignment.

(** [assignment[var]] (read) *)
Definition assignment_get (assignment : Assignment) (var : Var.t) : result str :=
  match find (fun e => Var.eqb (fst e) var) assignment with
  | Some e => Ok (snd e)
  | None => Raise KeyError
  end.

(** [assignment[var] = value] *)
Fixpoint assignment_set (assignment : Assignment) (var : Var.t) (value : str)
  : Assignment :=
  match assignment with
  | [] => [(var, value)]
  | e :: rest =>
      if Var.eqb (fst e) var then (fst e, value) :: rest
      else e :: assignment_set rest var value
  end.

(** [del assignment[var]] *)
Definition assignment_del (assignment : Assignment) (var : Var.t)
  : result Assignment :=
  if contains assignment var
  then Ok (List.filter (fun e => negb (Var.eqb (fst e) var)) assignment)
  else Raise KeyError.

(** Truth value of a string in a condition. *)
Definition truthy (w : str) : bool := negb (String.length w =? 0).

Definition assignment_complete (assignment : Assignment) : bool :=
  forallb (fun var => contains assignment var) (variables c).

(** *** consistent *)

(** [used_words.add(w)] *)
Definition set_add (w : str) (used : list str) : list str :=
  if existsb (String.eqb w) used then used else used ++ [w].

(** The inner loop of [consistent] over the neighbors of [var]:
    [Ok false] when it executes [return False], [Ok true] when it runs
    to its end. *)
Fixpoint consistent_neighbors (assignment : Assignment) (var : Var.t)
         (ns : list Var.t) : result bool :=
  match ns with
  | [] => Ok true
  | neighbor :: ns' =>
      if negb (contains assignment neighbor)
      then consistent_neighbors assignment var ns'
      else
        rbind (assignment_get assignment neighbor) (fun nword =>
        if negb (truthy nword)
        then consistent_neighbors assignment var ns'
        else
          rbind (overlaps_get var neighbor) (fun overlap =>
          rbind (assignment_get assignment var) (fun vword =>
          match overlap with
          | None => Raise TypeError
          | Some o =>
              rbind (getitem vword (fst o)) (fun a =>
              rbind (getitem nword (snd o)) (fun b =>
              if negb (Ascii.eqb a b) then Ok false
              else consistent_neighbors assignment var ns'))
          end)))
  end.

(** The outer loop of [consistent] over the keys of [self.domains],
    with the set [used_words] and the counter so far. *)
Fixpoint consistent_loop (assignment : Assignment) (vars : list Var.t)
         (used_words : list str) (assigned_words_count : nat) : result bool :=
  match vars with
  | [] =>
      if negb (List.length used_words =? assigned_words_count)
      then Ok false else Ok true
  | var :: vars' =>
      if contains assignment var
      then
        rbind (assignment_get assignment var) (fun vword =>
        if truthy vword
        then
          let used_words := set_add vword used_words in
          let assigned_words_count := assigned_words_count + 1 in
          rbind (consistent_neighbors assignment var (neighbors c var)) (fun go_on =>
          if negb go_on then Ok false
          else if negb (Var.length var =? String.length vword) then Ok false
          else consistent_loop assignment vars' used_words assigned_words_count)
        else consistent_loop assignment vars' used_words assigned_words_count)
      else consistent_loop assignment vars' used_words assigned_words_count
  end.

Definition consistent (assignment : Assignment) : result bool :=
  consistent_loop assignment (variables c) [] 0.

(** *** order_domain_values *)

(** A word (a [str]) never equals a key of the assignment (a
    [Variable]). *)
Definition key_is_word (key : Var.t) (w : str) : bool := false.

(** [neigbor_word in assignment] *)
Definition word_in_assignment (w : str) (assignment : Assignment) : bool :=
  existsb (fun e => key_is_word (fst e) w) assignment.

(** The loop over the words of one neighbor's domain; [score] is
    [word_scores[word]] so far. *)
Fixpoint score_words (assignment : Assignment) (word : str)
         (overlap : option (nat * nat)) (nwords : list str) (score : nat)
  : result nat :=
  match nwords with
  | [] => Ok score
  | neigbor_word :: nwords' =>
      if word_in_assignment neigbor_word assignment
      then score_words assignment word overlap nwords' score
      else
        match overlap with
        | None => Raise TypeError
        | Some o =>
            rbind (getitem word (fst o)) (fun a =>
            rbind (getitem neigbor_word (snd o)) (fun b =>
            if negb (Ascii.eqb a b)
            then score_words assignment word overlap nwords' (score + 1)
            else score_words assignment word overlap nwords' score))
        end
  end.

(** The loop over the neighbors of [var]. *)
Fixpoint score_neighbors (d : domains) (assignment : Assignment)
         (var : Var.t) (word : str) (ns : list Var.t) (score : nat)
  : result nat :=
  match ns with
  | [] => Ok score
  | neighbor :: ns' =>
      rbind (overlaps_get var neighbor) (fun overlap =>
      rbind (score_words assignment word overlap (d neighbor) score) (fun score =>
      score_neighbors d assignment var word ns' score))
  end.

(** The loop over the domain of [var], building [word_scores] (its
    items in insertion order). *)
Fixpoint word_scores (d : domains) (assignment : Assignment)
         (var : Var.t) (ws : list str) : result (list (str * nat)) :=
  match ws with
  | [] => Ok []
  | word :: ws' =>
      rbind (score_neighbors d assignment var word (neighbors c var) 0) (fun score =>
      rbind (word_scores d assignment var ws') (fun rest =>
      Ok ((word, score) :: rest)))
  end.

(** [sorted(..., key=...)] is stable: an element goes in front of the
    first later element whose key is not smaller. *)
Fixpoint insert_sorted (e : str * nat) (l : list (str * nat)) : list (str * nat) :=
  match l with
  | [] => [e]
  | e' :: l' =>
      if snd e' <? snd e then e' :: insert_sorted e l' else e :: l
  end.

Definition sorted (l : list (str * nat)) : list (str * nat) :=
  fold_right insert_sorted [] l.

Definition order_domain_values (d : domains) (var : Var.t)
           (assignment : Assignment) : result (list str) :=
  if is_variable c var
  then rbind (word_scores d assignment var (d var)) (fun scores =>
       Ok (map fst (sorted scores)))
  else Raise KeyError.

(** *** select_unassigned_variable *)

(** First loop: the unassigned variables of smallest domain;
    [lowest = None] stands for [float('inf')]. *)
Fixpoint lowest_domain_count_loop (d : domains) (assignment : Assignment)
         (vars : list Var.t) (lowest : option nat) (acc : list Var.t)
  : list Var.t :=
  match vars with
  | [] => acc
  | var :: vars' =>
      if contains assignment var
      then lowest_domain_count_loop d assignment vars' lowest acc
      else
        let domain_count := List.length (d var) in
        match lowest with
        | None =>
            lowest_domain_count_loop d assignment vars' (Some domain_count) [var]
        | Some lowest_domain_count =>
            if domain_count <? lowest_domain_count
            then lowest_domain_count_loop d assignment vars' (Some domain_count) [var]
            else if domain_count =? lowest_domain_count
            then lowest_domain_count_loop d assignment vars' lowest (acc ++ [var])
            else lowest_domain_count_loop d assignment vars' lowest acc
        end
  end.

(** Second loop: the first of them with the most neighbors;
    [highest = None] stands for [float("-inf")], [most = None] for the
    unbound local [most_neighbors_variable]. *)
Fixpoint most_neighbors_loop (vars : list Var.t) (highest : option nat)
         (most : option Var.t) : option Var.t :=
  match vars with
  | [] => most
  | variable :: vars' =>
      let neighbors_count := List.length (neighbors c variable) in
      match highest with
      | None => most_neighbors_loop vars' (Some neighbors_count) (Some variable)
      | Some highest_neighbors_count =>
          if highest_neighbors_count <? neighbors_count
          then most_neighbors_loop vars' (Some neighbors_count) (Some variable)
          else most_neighbors_loop vars' highest most
      end
  end.

Definition select_unassigned_variable (d : domains) (assignment : Assignment)
  : result Var.t :=
  match most_neighbors_loop
          (lowest_domain_count_loop d assignment (variables c) None []) None None with
  | Some var => Ok var
  | None => Raise UnboundLocalError
  end.

(** *** backtrack and solve *)

(** The value of a call of [backtrack]: whether it returned the
    assignment object ([true]) or [None] ([false]), and the content of
    that one object, which every frame mutates, when the call returns. *)
Abbreviation outcome := (bool * list (Var.t * string))%type (only parsing).

(** The [for value in ...] loop of [backtrack]; [recurse] is the
    recursive call. *)
Fixpoint backtrack_values (recurse : Assignment -> M outcome) (var : Var.t)
         (values : list str) (assignment : Assignment) : M outcome :=
  match values with
  | [] => ret (false, assignment)
  | value :: values' =>
      let assignment := assignment_set assignment var value in
      ok <- lift (consistent assignment) ;;
      if ok
      then
        let arcs_to_update := get_neighbors_overlap_queue var in
        domains_before_consistencies <- make_domains_copy ;;
        domains_set var [value] ;;;
        propagated <- ac3 (Some arcs_to_update) ;;
        (if negb propagated
         then set_self_domains domains_before_consistencies
         else ret tt) ;;;
        result <- recurse assignment ;;
        if fst result && negb (List.length (snd result) =? 0)
        then ret (true, snd result)
        else
          set_self_domains domains_before_consistencies ;;;
          assignment <- lift (assignment_del (snd result) var) ;;
          backtrack_values recurse var values' assignment
      else
        assignment <- lift (assignment_del assignment var) ;;
        backtrack_values recurse var values' assignment
  end.

Fixpoint backtrack (fuel : nat) (assignment : Assignment) : M outcome :=
  match fuel with
  | 0 => out_of_fuel
  | S fuel' =>
      if assignment_complete assignment
      then ret (true, assignment)
      else
        var <- (fun st => (select_unassigned_variable (current st) assignment, st)) ;;
        values <- (fun st => (order_domain_values (current st) var assignment, st)) ;;
        backtrack_values (backtrack fuel') var values assignment
  end.

(** [solve]: the result is the assignment object or [None]. *)
Definition solve : M (option Assignment) :=
  enforce_node_consistency ;;;
  _ <- ac3 None ;;
  result <- backtrack (S (List.length (variables c))) [] ;;
  ret (if fst result then Some (snd result) else None).

End Creator.

Arguments overlaps_get c x y : assert.

(** ** Grids used as concrete inputs *)

(** Modelled from the spec: the cells a variable covers, from its start
    position, direction and length. *)
Definition cells (v : Var.t) : list (nat * nat) :=
  map (fun k =>
         match Var.direction v with
         | DOWN => (Var.i v + k, Var.j v)
         | ACROSS => (Var.i v, Var.j v + k)
         end)
      (seq 0 (Var.length v)).

Definition cell_eqb (a b : nat * nat) : bool :=
  (fst a =? fst b) && (snd a =? snd b).

Fixpoint index (x : nat * nat) (l : list (nat * nat)) : option nat :=
  match l with
  | [] => None
  | y :: l' => if cell_eqb x y then Some 0 else option_map S (index x l')
  end.

(** Modelled from the spec: the overlap of two variables of a grid, the
    offsets of the cell they share. *)
Definition grid_overlaps (v1 v2 : Var.t) : option (nat * nat) :=
  match List.filter (fun x => existsb (cell_eqb x) (cells v2)) (cells v1) with
  | [] => None
  | x :: _ =>
      match index x (cells v1), index x (cells v2) with
      | Some a, Some b => Some (a, b)
      | _, _ => None
      end
  end.

Definition grid (vs : list Var.t) (ws : list str) : Crossword :=
  {| variables := vs; words := ws; overlaps := grid_overlaps |}.

(** Every iteration order of a set given as a list. *)
Fixpoint insert_everywhere {A} (x : A) (l : list A) : list (list A) :=
  match l with
  | [] => [[x]]
  | y :: l' => (x :: l) :: map (cons y) (insert_everywhere x l')
  end.

Fixpoint orders {A} (l : list A) : list (list A) :=
  match l with
  | [] => [[]]
  | x :: l' => flat_map (insert_everywhere x) (orders l')
  end.

(** The ring: a 4 x 3 grid whose two middle rows are blocked in the
    middle column,
<<
      ___
      _#_
      _#_
      ___
>>
    with two across slots of length 3 and two down slots of length 4. *)
Definition ring_top : Var.t := Var.mk 0 0 ACROSS 3.
Definition ring_bottom : Var.t := Var.mk 3 0 ACROSS 3.
Definition ring_left : Var.t := Var.mk 0 0 DOWN 4.
Definition ring_right : Var.t := Var.mk 0 2 DOWN 4.
Definition ring_variables : list Var.t :=
  [ring_top; ring_bottom; ring_left; ring_right].

(** A vocabulary for the ring with exactly one way to fill it, the words
    [EXF], [GXH], [EXXG], [FXXH]; the other words are arc consistent with
    each other but fit no filling. *)
Definition lost_words : list str :=
  ["AXB"; "AYB"; "CXD"; "CYD"; "EXF"; "GXH";
   "AXXC"; "AYYC"; "CXXA"; "CYYA"; "BXXB"; "BYYB"; "DXXD"; "DYYD";
   "EXXG"; "FXXH"].

Definition lost_solution : Assignment :=
  [(ring_top, "EXF"); (ring_bottom, "GXH"); (ring_left, "EXXG"); (ring_right, "FXXH")].

(** A vocabulary for the ring with no filling at all. *)
Definition twisted_words : list str :=
  ["AXB"; "CXD"; "AXXC"; "CXXA"; "BXXB"; "DXXD"].

(** Every assignment of vocabulary words to the variables [vs]. *)
Fixpoint all_assignments (vs : list Var.t) (ws : list str) : list Assignment :=
  match vs with
  | [] => [[]]
  | v :: vs' =>
      flat_map (fun a => map (fun w => (v, w) :: a) ws) (all_assignments vs' ws)
  end.

(** Equality of two domain stores of a crossword, set by set. *)
Definition subset (l1 l2 : list str) : bool :=
  forallb (fun w => existsb (String.eqb w) l2) l1.

Definition domains_eqb (c : Crossword) (d1 d2 : domains) : bool :=
  forallb (fun v => subset (d1 v) (d2 v) && subset (d2 v) (d1 v)) (variables c).

(** The state in which [solve] calls [backtrack]. *)
Definition before_backtrack (c : Crossword) : creator :=
  snd ((enforce_node_consistency c ;;; ac3 c None) (init c)).

(** A vocabulary for the ring on which the order of the values of the top
    slot depends on whether the right slot counts. *)
Definition scored_words : list str := ["PXQ"; "RXS"; "PAAA"; "SBBB"; "SCCC"].

(** The conflicts score as the specification words it: over the
    neighbors of [var] that are not assigned, the words of the neighbor's
    domain that disagree with [word] at the overlap. *)
Definition disagree (overlap : option (nat * nat)) (word neighbor_word : str) : bool :=
  match overlap with
  | Some (ix, iy) =>
      match String.get ix word, String.get iy neighbor_word with
      | Some a, Some b => negb (Ascii.eqb a b)
      | _, _ => false
      end
  | None => false
  end.

Definition conflicts_spec (c : Crossword) (d : domains) (assignment : Assignment)
           (var : Var.t) (word : str) : nat :=
  list_sum
    (map (fun neighbor =>
            if contains assignment neighbor then 0
            else List.length (List.filter (disagree (overlaps c var neighbor) word)
                                          (d neighbor)))
         (neighbors c var)).

(** The cross: a 3 x 3 grid with one across and one down slot,
<<
      _##
      ___
      _##
>>
    the first letter of the across word being the second of the down
    word. *)
Definition cross_across : Var.t := Var.mk 1 0 ACROSS 3.
Definition cross_down : Var.t := Var.mk 0 0 DOWN 3.
Definition cross (ws : list str) : Crossword :=
  grid [cross_across; cross_down] ws.

(** Whether a call returned [True]. *)
Definition returns_true (r : result bool) : bool :=
  match r with
  | Ok true => true
  | _ => false
  end.

(** No assignment of vocabulary words to the variables is complete and
    consistent. *)
Definition infeasible (c : Crossword) : bool :=
  forallb (fun a => negb (assignment_complete c a && returns_true (consistent c a)))
          (all_assignments (variables c) (words c)).

(** The test of [revise] on one word [w] of the domain of [x], against
    the domain [ys] of [y]. *)
Definition has_support (o : nat * nat) (ys : list str) (w : str) : bool :=
  match String.get (fst o) w with
  | Some ch => returns_true (any_match (snd o) ch ys)
  | None => false
  end.

(** The same store for every object but the one [self.domains] refers
    to, and the same domains in that one but for [x]. *)
Definition same_but (x : Var.t) (st st' : creator) : Prop :=
  self_domains st' = self_domains st /\
  next st' = next st /\
  (forall a, a <> self_domains st -> heap st' !! a = heap st !! a) /\
  (forall v, v <> x -> current st' v = current st v).

(** The domain of [x] is arc consistent with the domain of [y], as
    [revise] tests it. *)
Definition supported (st : creator) (x y : Var.t) (o : nat * nat) : Prop :=
  forall w, In w (current st x) -> has_support o (current st y) w = true.

(** The arcs [(z, x)] for the neighbors [z] of [x]: what a pass of [ac3]
    puts back on the queue after a revision of [x], and the worklist the
    specification gives [backtrack] for the variable [x]. *)
Definition neighbor_arcs (c : Crossword) (x : Var.t) : list arc :=
  map (fun z => (z, x)) (neighbors c x).

Definition overlapping (c : Crossword) (a : arc) : bool :=
  match overlaps c (fst a) (snd a) with
  | Some _ => true
  | None => false
  end.

(** The initial worklist as the specification describes it: every
    overlapping ordered pair. *)
Definition overlapping_arcs (c : Crossword) : list arc :=
  List.filter (overlapping c) (overlaps_keys c).

(** The variable set has no repetition. *)
Fixpoint distinct (vs : list Var.t) : bool :=
  match vs with
  | [] => true
  | v :: vs' => negb (existsb (Var.eqb v) vs') && distinct vs'
  end.

(** C4 as stated: a pass that revises [x] against [y] and leaves its
    domain non-empty puts back the arcs [(z, x)] for the neighbors [z] of
    [x] other than [y]. *)
Definition requeues_all_but (c : Crossword) (x y : Var.t) (rest : list arc)
           (st : creator) : Prop :=
  forall st',
    revise c x y st = (Ok true, st') -> current st' x <> [] ->
    fst (ac3_pass c x y rest st) =
    Ok (inr (rest ++ map (fun z => (z, x))
                         (List.filter (fun z => negb (Var.eqb z y)) (neighbors c x)))).


(** Two words agree on an overlap [o]: character [fst o] of [w] is
    character [snd o] of [v]. *)
Definition agree (o : nat * nat) (w v : str) : Prop :=
  exists ch, String.get (fst o) w = Some ch /\ String.get (snd o) v = Some ch.

(** A later store that differs from an earlier one by removals from the
    dictionary [self.domains] refers to, and by nothing else. *)
Definition shrinks (st st' : creator) : Prop :=
  self_domains st' = self_domains st /\
  next st' = next st /\
  (forall a, a <> self_domains st -> heap st' !! a = heap st !! a) /\
  (forall v, exists p, current st' v = List.filter p (current st v)).

(** The invariant of the worklist: an overlapping pair is either waiting
    in the queue or arc consistent. *)
Definition queued_or_supported (c : Crossword) (arcs : list (Var.t * Var.t))
           (st : creator) : Prop :=
  forall x y o, In x (variables c) -> In y (variables c) -> x <> y ->
                overlaps c x y = Some o ->
                In (x, y) arcs \/ supported st x y o.

(** The test of [enforce_node_consistency] on a word of the domain of
    [v]. *)
Definition fits (v : Var.t) (w : str) : bool := String.length w =? Var.length v.

(** A domains dictionary is node consistent: the words of every
    variable have the length of the variable. *)
Definition node_consistent (c : Crossword) (d : domains) : Prop :=
  forall v w, In v (variables c) -> In w (d v) -> String.length w = Var.length v.

(** The entry of [var] counts for [consistent]: the test
    [var in assignment and assignment[var]] holds, with [w] the word. *)
Definition assigned (a : Assignment) (var : Var.t) (w : str) : Prop :=
  assignment_get a var = Ok w /\ truthy w = true.

(** The words [consistent] adds to [used_words], in the order of the
    loop over [vars]. *)
Definition assigned_words (a : Assignment) (vars : list Var.t) : list str :=
  flat_map (fun v =>
              match assignment_get a v with
              | Ok w => if truthy w then [w] else []
              | _ => []
              end) vars.

(** The state of the first loop: no minimum yet and no candidate, or a
    minimum and the candidates found with it. *)
Definition lowest_inv (d : domains) (lowest : option nat) (acc : list Var.t) : Prop :=
  match lowest with
  | None => acc = []
  | Some m => acc <> [] /\ forall u, In u acc -> List.length (d u) = m
  end.

(** The score [order_domain_values] computes for [word]: over every
    neighbor of [var], the words of the neighbor's domain that differ
    from [word] at the overlap. *)
Definition conflicts (c : Crossword) (d : domains) (var : Var.t) (word : str) : nat :=
  list_sum
    (map (fun neighbor =>
            List.length (List.filter (disagree (overlaps c var neighbor) word)
                                     (d neighbor)))
         (neighbors c var)).

(** The overlap relation is symmetric: when [x] overlaps [y], [y]
    overlaps [x]. *)
Definition symmetric (c : Crossword) : bool :=
  forallb (fun x =>
             forallb (fun y => implb (overlapping c (x, y)) (overlapping c (y, x)))
                     (variables c))
          (variables c).

(** Every variable has a counted word in the assignment, and the word is
    in the variable's domain. *)
Definition within (c : Crossword) (a : Assignment) (d : domains) : Prop :=
  forall v, In v (variables c) -> exists w, assigned a v w /\ In w (d v).

(** The puzzle is well formed: the overlap relation is symmetric and
    the offsets of an overlap are positions inside the two variables. *)
Definition well_formed (c : Crossword) : bool :=
  symmetric c &&
  forallb (fun x =>
             forallb (fun y =>
                        match overlaps c x y with
                        | Some (ix, iy) => (ix <? Var.length x) && (iy <? Var.length y)
                        | None => true
                        end)
                     (variables c))
          (variables c).

(** Every dictionary of the store is node consistent. *)
Definition heap_ok (c : Crossword) (st : creator) : Prop :=
  forall addr dd, heap st !! addr = Some dd -> node_consistent c dd.

(** The word of every variable in the assignment has the length of the
    variable. *)
Definition lengths_ok (c : Crossword) (a : Assignment) : Prop :=
  forall v w, In v (variables c) -> assignment_get a v = Ok w ->
              String.length w = Var.length v.

(** The variables that are no key of the assignment. *)
Definition unassigned (c : Crossword) (a : Assignment) : list Var.t :=
  List.filter (fun v => negb (contains a v)) (variables c).

(** The two conditions above as tests. *)
Definition node_consistentb (c : Crossword) (d : domains) : bool :=
  forallb (fun v => forallb (fun w => String.length w =? Var.length v) (d v))
          (variables c).

Definition heap_okb (c : Crossword) (st : creator) : bool :=
  forallb (fun e => node_consistentb c (snd e)) (map_to_list (heap st)).

Definition lengths_okb (c : Crossword) (a : Assignment) : bool :=
  forallb (fun v =>
             match assignment_get a v with
             | Ok w => String.length w =? Var.length v
             | _ => true
             end)
          (variables c).

(** ** [letter_grid] *)

(** [letters[i][j] = ch] on a list of rows: an [IndexError] when there
    is no row [i] or no column [j] in it. *)
Definition set_cell (letters : list (list (option ascii))) (i j : nat) (ch : ascii)
  : result (list (list (option ascii))) :=
  match letters !! i with
  | Some row =>
      if j <? List.length row
      then Ok (<[i := <[j := Some ch]> row]> letters)
      else Raise IndexError
  | None => Raise IndexError
  end.

(** The cell the loop of [letter_grid] writes for the index [k] of the
    word of [variable]. *)
Definition position (variable : Var.t) (k : nat) : nat * nat :=
  (Var.i variable + match Var.direction variable with DOWN => k | ACROSS => 0 end,
   Var.j variable + match Var.direction variable with ACROSS => k | DOWN => 0 end).

(** The loop [for k in range(len(word))] of [letter_grid], over the
    values [ks] of [k] still to come. *)
Fixpoint letter_grid_word (variable : Var.t) (word : str) (ks : list nat)
         (letters : list (list (option ascii))) : result (list (list (option ascii))) :=
  match ks with
  | [] => Ok letters
  | k :: ks' =>
      rbind (getitem word k) (fun ch =>
      rbind (set_cell letters (fst (position variable k)) (snd (position variable k)) ch)
            (fun letters => letter_grid_word variable word ks' letters))
  end.

(** The loop [for variable, word in assignment.items()]. *)
Fixpoint letter_grid_items (items : Assignment) (letters : list (list (option ascii)))
  : result (list (list (option ascii))) :=
  match items with
  | [] => Ok letters
  | (variable, word) :: items' =>
      rbind (letter_grid_word variable word (seq 0 (String.length word)) letters)
            (fun letters => letter_grid_items items' letters)
  end.

(** [letter_grid(assignment)]; [height] and [width] are
    [self.crossword.height] and [self.crossword.width], and [None] in a
    cell is Python's [None]. *)
Definition letter_grid (height width : nat) (assignment : Assignment)
  : result (list (list (option ascii))) :=
  letter_grid_items assignment (replicate height (replicate width None)).

(** [letters[i][j]] (read), [None] when out of range. *)
Definition cell (letters : list (list (option ascii))) (i j : nat)
  : option (option ascii) :=
  match letters !! i with
  | Some row => row !! j
  | None => None
  end.

(** The letter an entry of the assignment puts in the cell [(i, j)], if
    any. *)
Definition letter_of (e : Var.t * str) (i j : nat) : option ascii :=
  match Var.direction (fst e) with
  | ACROSS =>
      if (i =? Var.i (fst e)) && (Var.j (fst e) <=? j)
      then String.get (j - Var.j (fst e)) (snd e) else None
  | DOWN =>
      if (j =? Var.j (fst e)) && (Var.i (fst e) <=? i)
      then String.get (i - Var.i (fst e)) (snd e) else None
  end.

(** The letter shown in the cell [(i, j)]: the one of the last entry
    that covers it. *)
Definition shown (a : Assignment) (i j : nat) : option ascii :=
  fold_left (fun acc e => match letter_of e i j with Some ch => Some ch | None => acc end)
            a None.

(** The word of an entry lies inside a grid of the given size. *)
Definition inside (height width : nat) (e : Var.t * str) : bool :=
  (String.length (snd e) =? 0) ||
  match Var.direction (fst e) with
  | ACROSS => (Var.i (fst e) <? height) && (Var.j (fst e) + String.length (snd e) <=? width)
  | DOWN => (Var.j (fst e) <? width) && (Var.i (fst e) + String.length (snd e) <=? height)
  end.

(** A list of [height] rows of [width] cells. *)
Definition shape (height width : nat) (letters : list (list (option ascii))) : Prop :=
  List.length letters = height /\
  forall i row, letters !! i = Some row -> List.length row = width.
(** * Properties *)

(** ** Runs of the solver on concrete grids *)

(** C1.  On the ring with the vocabulary [lost_words], whatever the
    iteration order of the variable set and with the vocabulary iterated
    in either direction, [solve] returns [None] although
    [lost_solution] is a complete and consistent assignment. *)
Theorem solve_misses_solution :
  Forall (fun vs =>
    Forall (fun ws =>
      let c := grid vs ws in
      fst (solve c (init c)) = Ok None /\
      assignment_complete c lost_solution = true /\
      consistent c lost_solution = Ok true /\
      Forall (fun e => In (snd e) (words c)) lost_solution)
    [lost_words; rev lost_words])
  (orders ring_variables).
Proof.
  let l := eval vm_compute in (orders ring_variables) in
  change (orders ring_variables) with l.
  repeat (apply List.Forall_cons; [| try apply List.Forall_nil]).
  all: repeat (apply List.Forall_cons; [| try apply List.Forall_nil]).
  all: cbv zeta; split; [vm_compute; reflexivity |].
  all: split; [vm_compute; reflexivity |].
  all: split; [vm_compute; reflexivity |].
  all: repeat (apply List.Forall_cons; [vm_compute; tauto |]); apply List.Forall_nil.
Qed.

(** C2.  On the ring with the vocabulary [twisted_words], which has no
    filling, whatever the iteration order of the variable set:
    [backtrack] returns [None] and leaves the assignment empty, but the
    domains [self.domains] refers to afterwards are not the domains it was
    called with. *)
Theorem backtrack_leaves_pruned_domains :
  Forall (fun vs =>
    let c := grid vs twisted_words in
    let st := before_backtrack c in
    let r := backtrack c (S (List.length vs)) [] st in
    infeasible c = true /\
    fst (solve c (init c)) = Ok None /\
    fst r = Ok (false, []) /\
    domains_eqb c (current st) (current (snd r)) = false)
  (orders ring_variables).
Proof.
  let l := eval vm_compute in (orders ring_variables) in
  change (orders ring_variables) with l.
  repeat (apply List.Forall_cons; [| try apply List.Forall_nil]).
  all: cbv zeta; repeat (apply conj); vm_compute; reflexivity.
Qed.

(** C3.  On the ring after node consistency, with the right slot
    assigned: the specification's score, which leaves the assigned right
    slot out, puts [PXQ] (2) before [RXS] (3); [order_domain_values]
    counts the words of the right slot too and returns [RXS] first. *)
Theorem order_domain_values_counts_assigned_neighbors :
  let c := grid ring_variables scored_words in
  let d := current (snd (enforce_node_consistency c (init c))) in
  let assignment := [(ring_right, "SBBB")] in
  consistent c assignment = Ok true /\
  conflicts_spec c d assignment ring_top "PXQ" = 2 /\
  conflicts_spec c d assignment ring_top "RXS" = 3 /\
  order_domain_values c d ring_top assignment = Ok ["RXS"; "PXQ"].
Proof. cbv zeta; repeat (apply conj); vm_compute; reflexivity. Qed.

(** C6.  On the cross with the vocabulary [TO], node consistency empties
    both domains and [ac3] then returns [True]. *)
Theorem ac3_succeeds_with_empty_domains :
  let c := cross ["TO"] in
  let r := (enforce_node_consistency c ;;; ac3 c None) (init c) in
  fst r = Ok true /\
  current (snd r) cross_across = [] /\
  current (snd r) cross_down = [].
Proof. cbv zeta; repeat (apply conj); vm_compute; reflexivity. Qed.

(** ** Basic facts *)

Lemma var_eqb_eq (a b : Var.t) : Var.eqb a b = true <-> a = b.
Proof.
  unfold Var.eqb. destruct a as [i1 j1 d1 l1], b as [i2 j2 d2 l2]; simpl.
  rewrite !andb_true_iff, !Nat.eqb_eq. split.
  - intros [[[-> ->] Hd] ->]. destruct d1, d2; simpl in Hd; congruence.
  - intros [= -> -> -> ->]. destruct d2; auto.
Qed.

Lemma var_eqb_refl (a : Var.t) : Var.eqb a a = true.
Proof. now apply var_eqb_eq. Qed.

Lemma var_eqb_neq (a b : Var.t) : Var.eqb a b = false <-> a <> b.
Proof.
  rewrite <- var_eqb_eq. destruct (Var.eqb a b); split; congruence.
Qed.

Lemma var_eqb_sym (a b : Var.t) : Var.eqb a b = Var.eqb b a.
Proof.
  destruct (Var.eqb a b) eqn:E.
  - apply var_eqb_eq in E. subst. now rewrite var_eqb_refl.
  - symmetry. apply var_eqb_neq. apply var_eqb_neq in E. congruence.
Qed.

Lemma is_variable_In (c : Crossword) (v : Var.t) :
  is_variable c v = true <-> In v (variables c).
Proof.
  unfold is_variable. rewrite existsb_exists. split.
  - intros (x & Hx & E). apply var_eqb_eq in E. now subst.
  - intros H. exists v. split; [assumption | apply var_eqb_refl].
Qed.

Lemma In_overlaps_keys (c : Crossword) (x y : Var.t) :
  In (x, y) (overlaps_keys c) <->
  In x (variables c) /\ In y (variables c) /\ x <> y.
Proof.
  unfold overlaps_keys. rewrite in_flat_map. split.
  - intros (v1 & H1 & H). apply in_flat_map in H. destruct H as (v2 & H2 & H).
    destruct (Var.eqb v1 v2) eqn:E; simpl in H; [contradiction |].
    destruct H as [[= <- <-] | []]. apply var_eqb_neq in E. auto.
  - intros (Hx & Hy & Hne). exists x. split; [assumption |].
    apply in_flat_map. exists y. split; [assumption |].
    apply var_eqb_neq in Hne. rewrite Hne. now left.
Qed.

Lemma In_neighbors (c : Crossword) (z x : Var.t) :
  In z (neighbors c x) <->
  In z (variables c) /\ z <> x /\ overlaps c z x <> None.
Proof.
  unfold neighbors. rewrite filter_In, andb_true_iff, negb_true_iff, var_eqb_neq.
  rewrite bool_decide_eq_true. unfold is_Some.
  split; intros (H1 & H2 & H3); repeat split; auto.
  - destruct H3 as [o Ho]. congruence.
  - destruct (overlaps c z x) as [o |]; [eauto | congruence].
Qed.

Lemma overlaps_get_Ok (c : Crossword) (x y : Var.t) o :
  overlaps_get c x y = Ok o <->
  In x (variables c) /\ In y (variables c) /\ x <> y /\ o = overlaps c x y.
Proof.
  unfold overlaps_get.
  destruct (is_variable c x) eqn:Ex, (is_variable c y) eqn:Ey,
    (Var.eqb x y) eqn:Exy; simpl;
    rewrite <- ?is_variable_In, <- ?var_eqb_neq, ?Ex, ?Ey, ?Exy;
    split; try (intros [= <-]; auto); try (intros (? & ? & ? & ?); congruence).
Qed.

Lemma overlaps_get_key (c : Crossword) (x y : Var.t) :
  In x (variables c) -> In y (variables c) -> x <> y ->
  overlaps_get c x y = Ok (overlaps c x y).
Proof. intros. now apply overlaps_get_Ok. Qed.

(** *** The object store *)

Lemma current_set_current (d : domains) (st : creator) :
  current (set_current d st) = d.
Proof. unfold current, set_current; simpl. now rewrite lookup_insert_eq. Qed.

Lemma self_domains_set_current (d : domains) (st : creator) :
  self_domains (set_current d st) = self_domains st.
Proof. reflexivity. Qed.

Lemma update_eq (d : domains) (x : Var.t) ws : update d x ws x = ws.
Proof. unfold update. now rewrite var_eqb_refl. Qed.

Lemma update_neq (d : domains) (x v : Var.t) ws : v <> x -> update d x ws v = d v.
Proof. unfold update. intros H. apply var_eqb_neq in H. now rewrite H. Qed.

Lemma In_remove (w w' : str) (ws : list str) :
  In w' (remove w ws) <-> In w' ws /\ w' <> w.
Proof.
  unfold remove. rewrite filter_In, negb_true_iff, String.eqb_neq. tauto.
Qed.

(** *** The monad *)

Lemma bind_Ok {A B} (m : M A) (f : A -> M B) st b st' :
  bind m f st = (Ok b, st') <->
  exists a st1, m st = (Ok a, st1) /\ f a st1 = (Ok b, st').
Proof.
  unfold bind. destruct (m st) as [[a | e |] st1]; split.
  - eauto.
  - intros (a' & st1' & [= <- <-] & H). exact H.
  - discriminate.
  - intros (a' & st1' & [=] & _).
  - discriminate.
  - intros (a' & st1' & [=] & _).
Qed.

Lemma bind_run {A B} (m : M A) (f : A -> M B) st a st1 :
  m st = (Ok a, st1) -> bind m f st = f a st1.
Proof. unfold bind. now intros ->. Qed.

Lemma bind_fail {A B} (m : M A) (f : A -> M B) st r st1 :
  m st = (r, st1) -> (forall a, r <> Ok a) ->
  exists r', bind m f st = (r', st1) /\ (forall b, r' <> Ok b) /\
             (r = OutOfFuel <-> r' = OutOfFuel).
Proof.
  unfold bind. intros -> H. destruct r as [a | e |].
  - now destruct (H a).
  - exists (Raise e). repeat split; congruence.
  - exists OutOfFuel. repeat split; congruence.
Qed.

(** ** revise *)



Lemma same_but_refl x st : same_but x st st.
Proof. repeat split; auto. Qed.

Lemma same_but_trans x st1 st2 st3 :
  same_but x st1 st2 -> same_but x st2 st3 -> same_but x st1 st3.
Proof.
  intros (A1 & B1 & C1 & D1) (A2 & B2 & C2 & D2). repeat split; try congruence.
  - intros a Ha. rewrite C2, C1; congruence.
  - intros v Hv. rewrite D2, D1; auto.
Qed.

Lemma same_but_remove x w st :
  same_but x st (set_current (update (current st) x (remove w (current st x))) st).
Proof.
  repeat split; auto.
  - intros a Ha. simpl. now rewrite lookup_insert_ne.
  - intros v Hv. rewrite current_set_current. now apply update_neq.
Qed.

Lemma any_match_true j ch ys :
  any_match j ch ys = Ok true ->
  exists v, In v ys /\ String.get j v = Some ch.
Proof.
  induction ys as [| y ys IH]; simpl; [discriminate |].
  unfold getitem. destruct (String.get j y) as [d |] eqn:E; simpl; [| discriminate].
  destruct (Ascii.eqb d ch) eqn:Ed.
  - apply Ascii.eqb_eq in Ed. subst. eauto.
  - intros H. destruct (IH H) as (v & Hv & Hg). eauto.
Qed.

Lemma any_match_false j ch ys :
  any_match j ch ys = Ok false ->
  forall v, In v ys -> exists d, String.get j v = Some d /\ d <> ch.
Proof.
  induction ys as [| y ys IH]; simpl; [contradiction |].
  unfold getitem. destruct (String.get j y) as [d |] eqn:E; simpl; [| discriminate].
  destruct (Ascii.eqb d ch) eqn:Ed; [discriminate |].
  intros H v [<- | Hv]; [| now apply IH].
  exists d. split; [assumption | now apply Ascii.eqb_neq].
Qed.

Lemma any_match_no_fuel j ch ys : any_match j ch ys <> OutOfFuel.
Proof.
  induction ys as [| y ys IH]; simpl; [discriminate |].
  unfold getitem. destruct (String.get j y); simpl; [| discriminate].
  destruct (Ascii.eqb _ _); [discriminate | assumption].
Qed.

Lemma has_support_witness o ys w :
  has_support o ys w = true ->
  exists v ch, In v ys /\ String.get (fst o) w = Some ch /\ String.get (snd o) v = Some ch.
Proof.
  unfold has_support. destruct (String.get (fst o) w) as [ch |]; [| discriminate].
  destruct (any_match (snd o) ch ys) as [[|] | |] eqn:E; try discriminate.
  intros _. destruct (any_match_true _ _ _ E) as (v & Hv & Hg). eauto.
Qed.

Lemma filter_true_id {A} (l : list A) : List.filter (fun _ => true) l = l.
Proof. induction l as [| a l IH]; simpl; [reflexivity | now rewrite IH]. Qed.

Lemma filter_twice {A} (p q : A -> bool) (l : list A) :
  List.filter p (List.filter q l) = List.filter (fun a => q a && p a) l.
Proof.
  induction l as [| a l IH]; simpl; [reflexivity |].
  destruct (q a); simpl; [| exact IH]. destruct (p a); simpl; now rewrite IH.
Qed.

Section Revise.

Variable c : Crossword.

(** The loop of [revise]: what the store is afterwards, whatever the
    outcome. *)
Lemma revise_loop_shrinks x y o words revised st r st' :
  revise_loop c x y o words revised st = (r, st') ->
  same_but x st st' /\
  (exists p, current st' x = List.filter p (current st x)) /\
  r <> OutOfFuel.
Proof.
  revert revised st. induction words as [| w words IH]; intros revised st; simpl.
  - intros [= <- <-]. split; [apply same_but_refl |]. split; [| discriminate].
    exists (fun _ => true). symmetry. apply filter_true_id.
  - unfold bind at 1, lift at 1, getitem.
    destruct (String.get (fst o) w) as [ch |]; simpl.
    2:{ intros [= <- <-]. split; [apply same_but_refl |]. split; [| discriminate].
        exists (fun _ => true). symmetry. apply filter_true_id. }
    unfold bind at 1, domains_get.
    destruct (is_variable c y); simpl.
    2:{ intros [= <- <-]. split; [apply same_but_refl |]. split; [| discriminate].
        exists (fun _ => true). symmetry. apply filter_true_id. }
    unfold bind at 1, lift at 1.
    destruct (any_match (snd o) ch (current st y)) as [found | e |] eqn:Em.
    3:{ now apply any_match_no_fuel in Em. }
    2:{ intros [= <- <-]. split; [apply same_but_refl |]. split; [| discriminate].
        exists (fun _ => true). symmetry. apply filter_true_id. }
    destruct found; simpl.
    + apply IH.
    + unfold bind at 1, domains_remove. intros H. apply IH in H.
      destruct H as (Hs & (p & Hp) & Hr). split; [| split; [| exact Hr]].
      * eapply same_but_trans; [apply same_but_remove | exact Hs].
      * rewrite current_set_current, update_eq in Hp. unfold remove in Hp.
        exists (fun w' => negb (String.eqb w' w) && p w').
        rewrite Hp. apply filter_twice.
Qed.

(** A completed loop: the words kept are those of the domain that are
    not among the [words] without support, and the flag tells whether
    there was one. *)
Lemma revise_loop_Ok x y o words revised st b st' :
  x <> y ->
  revise_loop c x y o words revised st = (Ok b, st') ->
  (forall w, In w (current st' x) <->
             In w (current st x) /\
             (In w words -> has_support o (current st y) w = true)) /\
  b = revised || existsb (fun w => negb (has_support o (current st y) w)) words.
Proof.
  intros Hxy. revert revised st. induction words as [| w words IH]; intros revised st; simpl.
  - intros [= <- <-]. split; [tauto | now rewrite orb_false_r].
  - unfold bind at 1, lift at 1, getitem.
    destruct (String.get (fst o) w) as [ch |] eqn:Eg; simpl; [| discriminate].
    unfold bind at 1, domains_get.
    destruct (is_variable c y); simpl; [| discriminate].
    unfold bind at 1, lift at 1.
    destruct (any_match (snd o) ch (current st y)) as [found | e |] eqn:Em;
      [| discriminate | discriminate].
    assert (Hw : has_support o (current st y) w = found).
    { unfold has_support. rewrite Eg, Em. now destruct found. }
    destruct found; simpl.
    + intros H. apply IH in H. destruct H as (Hin & Hb). rewrite Hw. simpl. split; [| exact Hb].
      intros w'. rewrite Hin. split.
      * intros (H1 & H2). split; [assumption |]. intros [<- | H3]; auto.
      * intros (H1 & H2). split; auto.
    + unfold bind at 1, domains_remove. intros H. apply IH in H.
      destruct H as (Hin & Hb). rewrite Hw. simpl. rewrite orb_true_r. split; [| exact Hb].
      intros w'. rewrite Hin, !current_set_current, update_eq, In_remove.
      rewrite (update_neq _ _ _ _ (not_eq_sym Hxy)). split.
      * intros ((H1 & H2) & H3). split; [assumption |].
        intros [E | H4]; [congruence | auto].
      * intros (H1 & H2). split; [split; [assumption |] | auto].
        intros ->. specialize (H2 (or_introl eq_refl)). congruence.
Qed.

(** A loop that reports no revision leaves the creator as it was. *)
Lemma revise_loop_false x y o words st st' :
  revise_loop c x y o words false st = (Ok false, st') -> st' = st.
Proof.
  revert st. induction words as [| w words IH]; intros st; simpl.
  - now intros [= <-].
  - unfold bind at 1, lift at 1, getitem.
    destruct (String.get (fst o) w) as [ch |]; simpl; [| discriminate].
    unfold bind at 1, domains_get.
    destruct (is_variable c y); simpl; [| discriminate].
    unfold bind at 1, lift at 1.
    destruct (any_match (snd o) ch (current st y)) as [[|] | e |];
      simpl; try discriminate.
    + apply IH.
    + unfold bind at 1, domains_remove. intros H.
      assert (forall ws st0 b st1,
                 revise_loop c x y o ws true st0 = (Ok b, st1) -> b = true) as Ht.
      { clear. induction ws as [| a ws IHw]; intros st0 b st1; simpl.
        - now intros [= <-].
        - unfold bind at 1, lift at 1, getitem.
          destruct (String.get (fst o) a); simpl; [| discriminate].
          unfold bind at 1, domains_get.
          destruct (is_variable c y); simpl; [| discriminate].
          unfold bind at 1, lift at 1.
          destruct (any_match _ _ _) as [[|] | |]; simpl; try discriminate.
          + apply IHw.
          + unfold bind at 1, domains_remove. apply IHw. }
      apply Ht in H. discriminate.
Qed.

End Revise.

Section ReviseCall.

Variable c : Crossword.


Lemma revise_shrinks x y st r st' :
  revise c x y st = (r, st') ->
  same_but x st st' /\
  (exists p, current st' x = List.filter p (current st x)) /\
  r <> OutOfFuel.
Proof.
  unfold revise, bind at 1, lift at 1.
  assert (Hid : same_but x st st /\
                (exists p, current st x = List.filter p (current st x))).
  { split; [apply same_but_refl |]. exists (fun _ => true). symmetry. apply filter_true_id. }
  destruct (overlaps_get c x y) as [[o |] | e |] eqn:Eo.
  - unfold bind at 1, domains_get. destruct (is_variable c x).
    + apply revise_loop_shrinks.
    + intros [= <- <-]. split; [apply Hid |]. split; [apply Hid | discriminate].
  - intros [= <- <-]. split; [apply Hid |]. split; [apply Hid | discriminate].
  - intros [= <- <-]. split; [apply Hid |]. split; [apply Hid | discriminate].
  - unfold overlaps_get in Eo. destruct (_ && _); discriminate.
Qed.

Lemma revise_Ok x y st b st' :
  revise c x y st = (Ok b, st') ->
  In x (variables c) /\ In y (variables c) /\ x <> y /\
  match overlaps c x y with
  | None => b = false /\ st' = st
  | Some o =>
      (forall w, In w (current st' x) <->
                 In w (current st x) /\ has_support o (current st y) w = true) /\
      b = existsb (fun w => negb (has_support o (current st y) w)) (current st x)
  end.
Proof.
  unfold revise, bind at 1, lift at 1.
  destruct (overlaps_get c x y) as [o | e |] eqn:Eo; try discriminate.
  apply overlaps_get_Ok in Eo. destruct Eo as (Hx & Hy & Hxy & ->).
  intros H. repeat (split; [assumption |]).
  destruct (overlaps c x y) as [o |].
  - unfold bind at 1, domains_get in H.
    apply is_variable_In in Hx. rewrite Hx in H.
    apply revise_loop_Ok in H; [| assumption]. destruct H as (Hin & Hb).
    split; [| exact Hb]. intros w. rewrite Hin. tauto.
  - injection H as <- <-. auto.
Qed.

Lemma revise_false x y st st' :
  revise c x y st = (Ok false, st') -> st' = st.
Proof.
  unfold revise, bind at 1, lift at 1.
  destruct (overlaps_get c x y) as [[o |] | e |]; try discriminate.
  - unfold bind at 1, domains_get. destruct (is_variable c x); [| discriminate].
    apply revise_loop_false.
  - now intros [= <-].
Qed.

Lemma filter_length_lt {A} (p : A -> bool) (l : list A) (a : A) :
  In a l -> p a = false -> List.length (List.filter p l) < List.length l.
Proof.
  induction l as [| b l IH]; simpl; [contradiction |].
  intros [-> | Hin] Hp.
  - rewrite Hp. pose proof (List.filter_length_le p l). lia.
  - specialize (IH Hin Hp). destruct (p b); simpl; lia.
Qed.

Lemma revise_true_lt x y st st' :
  revise c x y st = (Ok true, st') ->
  List.length (current st' x) < List.length (current st x).
Proof.
  intros H. pose proof (revise_shrinks _ _ _ _ _ H) as (_ & (p & Hp) & _).
  apply revise_Ok in H. destruct H as (_ & _ & _ & H).
  destruct (overlaps c x y) as [o |]; [| destruct H; discriminate].
  destruct H as (Hin & Hb). symmetry in Hb. apply existsb_exists in Hb.
  destruct Hb as (w & Hw & Hs). apply negb_true_iff in Hs.
  rewrite Hp. apply filter_length_lt with (a := w); [assumption |].
  destruct (p w) eqn:Epw; [| reflexivity].
  assert (In w (current st' x)) as Hw'.
  { rewrite Hp. apply filter_In. auto. }
  apply Hin in Hw'. destruct Hw'. congruence.
Qed.

(** After a completed call the domain of [x] is supported by the domain
    of [y]. *)
Lemma revise_supported x y o st b st' :
  revise c x y st = (Ok b, st') -> overlaps c x y = Some o ->
  supported st' x y o.
Proof.
  intros H Ho. pose proof (revise_shrinks _ _ _ _ _ H) as ((_ & _ & _ & Hs) & _).
  apply revise_Ok in H. destruct H as (_ & _ & Hxy & H). rewrite Ho in H.
  destruct H as (Hin & _). intros w Hw. apply Hin in Hw.
  rewrite (Hs y (not_eq_sym Hxy)). tauto.
Qed.

Lemma revise_loop_supported x y o words st :
  is_variable c y = true ->
  (forall w, In w words -> has_support o (current st y) w = true) ->
  revise_loop c x y o words false st = (Ok false, st).
Proof.
  intros Hy. induction words as [| w words IH]; intros Hs; simpl; [reflexivity |].
  pose proof (Hs w (or_introl eq_refl)) as Hw. unfold has_support in Hw.
  unfold bind at 1, lift at 1, getitem.
  destruct (String.get (fst o) w) as [ch |]; [| discriminate]. simpl.
  unfold bind at 1, domains_get. rewrite Hy. simpl.
  unfold bind at 1, lift at 1.
  destruct (any_match (snd o) ch (current st y)) as [[|] | |]; try discriminate.
  simpl. apply IH. intros w' Hw'. apply Hs. now right.
Qed.

(** A call on a supported arc changes nothing. *)
Lemma revise_noop x y o st :
  In x (variables c) -> In y (variables c) -> x <> y ->
  overlaps c x y = Some o -> supported st x y o ->
  revise c x y st = (Ok false, st).
Proof.
  intros Hx Hy Hxy Ho Hs. unfold revise, bind at 1, lift at 1.
  rewrite overlaps_get_key by assumption. rewrite Ho.
  unfold bind at 1, domains_get. apply is_variable_In in Hx, Hy. rewrite Hx.
  now apply revise_loop_supported.
Qed.

(** A call on a pair that does not overlap changes nothing. *)
Lemma revise_no_overlap x y st :
  In x (variables c) -> In y (variables c) -> x <> y ->
  overlaps c x y = None ->
  revise c x y st = (Ok false, st).
Proof.
  intros Hx Hy Hxy Ho. unfold revise, bind at 1, lift at 1.
  rewrite overlaps_get_key by assumption. now rewrite Ho.
Qed.

End ReviseCall.

(** ** ac3 *)

Section Ac3.

Variable c : Crossword.


(** The four ways a pass of the loop can end. *)
Lemma ac3_pass_cases x y rest st r st' :
  ac3_pass c x y rest st = (r, st') ->
  (revise c x y st = (Ok false, st) /\ st' = st /\ r = Ok (inr rest)) \/
  (revise c x y st = (Ok true, st') /\ current st' x = [] /\ r = Ok (inl false)) \/
  (revise c x y st = (Ok true, st') /\ current st' x <> [] /\
   r = Ok (inr (rest ++ neighbor_arcs c x))) \/
  (exists e, revise c x y st = (Raise e, st') /\ r = Raise e).
Proof.
  unfold ac3_pass, bind at 1.
  destruct (revise c x y st) as [[[|] | e |] st1] eqn:Er.
  - pose proof (revise_Ok _ _ _ _ _ _ Er) as (Hx & _).
    unfold bind, domains_get. apply is_variable_In in Hx. rewrite Hx.
    destruct (current st1 x) as [| w ws] eqn:Ed; simpl; intros [= <- <-].
    + right. left. auto.
    + right. right. left. repeat split; auto. congruence.
  - pose proof (revise_false _ _ _ _ _ Er) as ->. intros [= <- <-]. left. auto.
  - intros [= <- <-]. right. right. right. eauto.
  - apply revise_shrinks in Er. now destruct Er as (_ & _ & ?).
Qed.

Lemma list_sum_map_le {A} (f g : A -> nat) (l : list A) :
  (forall a, In a l -> f a <= g a) ->
  list_sum (map f l) <= list_sum (map g l).
Proof.
  induction l as [| a l IH]; simpl; intros H; [lia |].
  pose proof (H a (or_introl eq_refl)). specialize (IH (fun b Hb => H b (or_intror Hb))). lia.
Qed.

Lemma list_sum_map_lt {A} (f g : A -> nat) (l : list A) (x : A) :
  (forall a, In a l -> f a <= g a) -> In x l -> f x < g x ->
  list_sum (map f l) < list_sum (map g l).
Proof.
  induction l as [| a l IH]; simpl; intros H Hin Hlt; [contradiction |].
  pose proof (H a (or_introl eq_refl)).
  pose proof (list_sum_map_le f g l (fun b Hb => H b (or_intror Hb))).
  destruct Hin as [-> | Hin]; [lia |].
  specialize (IH (fun b Hb => H b (or_intror Hb)) Hin Hlt). lia.
Qed.

Lemma total_size_revised x y st st' :
  revise c x y st = (Ok true, st') ->
  total_size c (current st') < total_size c (current st).
Proof.
  intros H. pose proof (revise_true_lt _ _ _ _ _ H) as Hlt.
  pose proof (revise_shrinks _ _ _ _ _ _ H) as ((_ & _ & _ & Hs) & _).
  apply revise_Ok in H. destruct H as (Hx & _).
  unfold total_size. apply list_sum_map_lt with (x := x); [| assumption | assumption].
  intros v _. destruct (Var.eqb v x) eqn:E.
  - apply var_eqb_eq in E. subst. lia.
  - apply var_eqb_neq in E. rewrite (Hs v E). lia.
Qed.

Lemma length_neighbor_arcs x : List.length (neighbor_arcs c x) <= List.length (variables c).
Proof.
  unfold neighbor_arcs, neighbors. rewrite length_map. apply List.filter_length_le.
Qed.

(** The loop comes to an end when the fuel exceeds the length of the
    queue plus, for every word still in a domain, the arcs one revision
    can put back. *)
Lemma ac3_loop_terminates fuel arcs st :
  List.length arcs + List.length (variables c) * total_size c (current st) < fuel ->
  fst (ac3_loop c fuel arcs st) <> OutOfFuel.
Proof.
  revert arcs st. induction fuel as [| fuel IH]; intros arcs st Hf; [lia |].
  destruct arcs as [| [x y] rest]; simpl; [discriminate |].
  unfold bind at 1.
  destruct (ac3_pass c x y rest st) as [r st'] eqn:Ep.
  apply ac3_pass_cases in Ep.
  destruct Ep as [(_ & -> & ->) | [(_ & _ & ->) | [(Hr & _ & ->) | (e & _ & ->)]]];
    simpl; try discriminate.
  - apply IH. simpl in Hf. lia.
  - apply IH. apply total_size_revised in Hr.
    rewrite length_app. pose proof (length_neighbor_arcs x). simpl in Hf. nia.
Qed.

(** More fuel does not change the outcome of a loop that ended. *)
Lemma ac3_loop_more_fuel n m arcs st :
  fst (ac3_loop c n arcs st) <> OutOfFuel -> n <= m ->
  ac3_loop c m arcs st = ac3_loop c n arcs st.
Proof.
  revert m arcs st. induction n as [| n IH]; intros m arcs st Hn Hm.
  - destruct arcs as [| [x y] rest]; [now destruct m |]. now simpl in Hn.
  - destruct m as [| m]; [lia |].
    destruct arcs as [| [x y] rest]; [reflexivity |].
    simpl in *. unfold bind at 1 in Hn. unfold bind at 1. unfold bind at 1.
    destruct (ac3_pass c x y rest st) as [[[b | arcs'] | e |] st']; try reflexivity.
    apply IH; [assumption | lia].
Qed.

Lemma ac3_loop_fuel_irrelevant n m arcs st :
  fst (ac3_loop c n arcs st) <> OutOfFuel ->
  fst (ac3_loop c m arcs st) <> OutOfFuel ->
  ac3_loop c n arcs st = ac3_loop c m arcs st.
Proof.
  intros Hn Hm. destruct (Nat.le_ge_cases n m) as [H | H].
  - symmetry. now apply ac3_loop_more_fuel.
  - now apply ac3_loop_more_fuel.
Qed.

(** [ac3] always returns or raises. *)
Lemma ac3_terminates arcs st : fst (ac3 c arcs st) <> OutOfFuel.
Proof.
  unfold ac3. apply ac3_loop_terminates. unfold ac3_fuel. lia.
Qed.

End Ac3.

(** ** The worklists of ac3 *)

Section Worklists.

Variable c : Crossword.

Lemma distinct_NoDup (vs : list Var.t) : distinct vs = true <-> List.NoDup vs.
Proof.
  induction vs as [| v vs IH]; simpl.
  - split; [constructor | reflexivity].
  - rewrite andb_true_iff, negb_true_iff, IH. split.
    + intros (Hn & Hd). apply List.NoDup_cons; [| assumption].
      intros Hin. assert (existsb (Var.eqb v) vs = true); [| congruence].
      apply existsb_exists. exists v. split; [assumption | apply var_eqb_refl].
    + intros H. apply List.NoDup_cons_iff in H. destruct H as (Hn & Hd). split; [| assumption].
      destruct (existsb (Var.eqb v) vs) eqn:E; [| reflexivity].
      apply existsb_exists in E. destruct E as (u & Hu & E).
      apply var_eqb_eq in E. now subst.
Qed.

Lemma In_neighbor_arcs z x :
  In (z, x) (neighbor_arcs c x) <->
  In z (variables c) /\ z <> x /\ overlaps c z x <> None.
Proof.
  unfold neighbor_arcs. rewrite in_map_iff. rewrite <- In_neighbors. split.
  - now intros (z' & [= ->] & H).
  - intros H. now exists z.
Qed.

Lemma filter_id {A} (p : A -> bool) (l : list A) :
  (forall a, In a l -> p a = true) -> List.filter p l = l.
Proof.
  induction l as [| a l IH]; simpl; intros H; [reflexivity |].
  rewrite (H a (or_introl eq_refl)), IH; auto.
Qed.

Lemma overlapping_true x y : overlapping c (x, y) = true <-> overlaps c x y <> None.
Proof. unfold overlapping; simpl. destruct (overlaps c x y); split; congruence. Qed.

Lemma neighbor_arcs_overlapping x :
  List.filter (overlapping c) (neighbor_arcs c x) = neighbor_arcs c x.
Proof.
  apply filter_id. intros [z x'] H.
  assert (x' = x) as ->.
  { unfold neighbor_arcs in H. apply in_map_iff in H. now destruct H as (? & [= _ ->] & _). }
  apply overlapping_true. now apply In_neighbor_arcs in H.
Qed.

Lemma neighbor_arcs_keys x :
  In x (variables c) ->
  Forall (fun a => In a (overlaps_keys c)) (neighbor_arcs c x).
Proof.
  intros Hx. apply List.Forall_forall. intros [z x'] H.
  assert (x' = x) as ->.
  { unfold neighbor_arcs in H. apply in_map_iff in H. now destruct H as (? & [= _ ->] & _). }
  apply In_neighbor_arcs in H. apply In_overlaps_keys. tauto.
Qed.

(** One pass of the loop, spelled out. *)
Lemma ac3_loop_step n x y rest st :
  ac3_loop c (S n) ((x, y) :: rest) st =
  match revise c x y st with
  | (Ok true, st1) =>
      if is_variable c x
      then if List.length (current st1 x) =? 0
           then (Ok false, st1)
           else ac3_loop c n (rest ++ neighbor_arcs c x) st1
      else (Raise KeyError, st1)
  | (Ok false, st1) => ac3_loop c n rest st1
  | (Raise e, st1) => (Raise e, st1)
  | (OutOfFuel, st1) => (OutOfFuel, st1)
  end.
Proof.
  cbn [ac3_loop]. unfold bind at 1, ac3_pass, bind at 1.
  destruct (revise c x y st) as [[[|] | e |] st1]; try reflexivity.
  unfold bind, domains_get. destruct (is_variable c x); [| reflexivity].
  destruct (List.length (current st1 x) =? 0); reflexivity.
Qed.

(** Dropping the arcs that do not overlap from the queue does not change
    the outcome of the loop. *)
Lemma ac3_loop_filter n arcs st :
  Forall (fun a => In a (overlaps_keys c)) arcs ->
  fst (ac3_loop c n arcs st) <> OutOfFuel ->
  ac3_loop c n (List.filter (overlapping c) arcs) st = ac3_loop c n arcs st.
Proof.
  revert arcs st. induction n as [| n IH]; intros arcs st Hk Hf.
  - destruct arcs as [| [x y] rest]; [reflexivity | now simpl in Hf].
  - destruct arcs as [| [x y] rest]; [reflexivity |].
    apply List.Forall_cons_iff in Hk. destruct Hk as (Hxy & Hk).
    apply In_overlaps_keys in Hxy. destruct Hxy as (Hx & Hy & Hne).
    cbn [List.filter]. destruct (overlapping c (x, y)) eqn:Eo.
    + rewrite !ac3_loop_step in *.
      destruct (revise c x y st) as [[[|] | e |] st1]; try reflexivity.
      * destruct (is_variable c x) eqn:Ex; [| reflexivity].
        destruct (List.length (current st1 x) =? 0); [reflexivity |].
        transitivity
          (ac3_loop c n (List.filter (overlapping c) (rest ++ neighbor_arcs c x)) st1).
        { now rewrite List.filter_app, neighbor_arcs_overlapping. }
        apply IH; [| exact Hf].
        apply Forall_app. split; [assumption |].
        apply neighbor_arcs_keys. now apply is_variable_In.
      * now apply IH.
    + assert (overlaps c x y = None) as Hnone.
      { destruct (overlaps c x y) eqn:E; [| reflexivity].
        assert (overlapping c (x, y) = true); [| congruence].
        apply overlapping_true. congruence. }
      assert (ac3_loop c (S n) ((x, y) :: rest) st = ac3_loop c n rest st) as Hstep.
      { rewrite ac3_loop_step. now rewrite revise_no_overlap. }
      rewrite Hstep in Hf. rewrite Hstep. rewrite <- (IH rest st Hk Hf).
      apply ac3_loop_more_fuel; [| lia]. now rewrite (IH rest st Hk Hf).
Qed.

Lemma overlaps_keys_keys :
  Forall (fun a => In a (overlaps_keys c)) (overlaps_keys c).
Proof. now apply List.Forall_forall. Qed.

Lemma ac3_filter arcs st :
  Forall (fun a => In a (overlaps_keys c)) arcs ->
  ac3 c (Some (List.filter (overlapping c) arcs)) st = ac3 c (Some arcs) st.
Proof.
  intros Hk. unfold ac3.
  pose proof (ac3_loop_terminates c _ arcs st
                (Nat.lt_succ_diag_r _ : _ < ac3_fuel c arcs (current st))) as Ht.
  rewrite <- (ac3_loop_filter _ _ _ Hk Ht).
  apply ac3_loop_fuel_irrelevant.
  - apply ac3_loop_terminates. unfold ac3_fuel. lia.
  - now rewrite (ac3_loop_filter _ _ _ Hk Ht).
Qed.

(** With a variable set free of repetitions, the arcs into [var] that
    overlap are the arcs from its neighbors. *)
Lemma neighbor_queue_filtered var :
  distinct (variables c) = true -> In var (variables c) ->
  List.filter (overlapping c) (get_neighbors_overlap_queue c var) = neighbor_arcs c var.
Proof.
  intros Hd Hin. apply distinct_NoDup in Hd.
  unfold get_neighbors_overlap_queue, overlaps_keys, neighbor_arcs, neighbors.
  assert (forall v1,
             List.filter (fun overlap : arc => Var.eqb (snd overlap) var)
               (flat_map (fun v2 => if Var.eqb v1 v2 then [] else [(v1, v2)]) (variables c))
             = if Var.eqb v1 var then [] else [(v1, var)]) as Hinner.
  { intros v1. revert Hd Hin. generalize (variables c) as vs.
    induction vs as [| v vs IH]; intros Hd Hin; [contradiction |].
    apply List.NoDup_cons_iff in Hd. destruct Hd as (Hnv & Hd). cbn [flat_map].
    rewrite List.filter_app. destruct Hin as [-> | Hin].
    - assert (List.filter (fun overlap : arc => Var.eqb (snd overlap) var)
                (flat_map (fun v2 => if Var.eqb v1 v2 then [] else [(v1, v2)]) vs) = []) as ->.
      { clear IH Hd. induction vs as [| u vs IHu]; [reflexivity |]. cbn [flat_map].
        rewrite List.filter_app, IHu by (intros H; apply Hnv; now right).
        destruct (Var.eqb v1 u); [reflexivity |]. cbn.
        assert (Var.eqb u var = false) as ->; [| reflexivity].
        apply var_eqb_neq. intros ->. apply Hnv. now left. }
      rewrite app_nil_r. destruct (Var.eqb v1 var); [reflexivity |].
      cbn. now rewrite var_eqb_refl.
    - rewrite (IH Hd Hin). destruct (Var.eqb v1 v) eqn:E1; [reflexivity |].
      cbn. assert (Var.eqb v var = false) as ->; [| reflexivity].
      apply var_eqb_neq. intros ->. contradiction. }
  assert (forall us,
             List.filter (overlapping c)
               (List.filter (fun overlap : Var.t * Var.t => Var.eqb (snd overlap) var)
                  (flat_map
                     (fun v1 => flat_map (fun v2 => if Var.eqb v1 v2 then [] else [(v1, v2)])
                                         (variables c)) us))
             = map (fun z => (z, var))
                   (List.filter
                      (fun v => negb (Var.eqb v var) &&
                                bool_decide (is_Some (overlaps c v var))) us)) as Houter.
  { induction us as [| u us IH]; [reflexivity |].
    cbn [flat_map]. rewrite !List.filter_app, IH, Hinner. cbn [List.filter].
    destruct (Var.eqb u var) eqn:E; cbn [negb andb app map]; [reflexivity |].
    unfold overlapping at 1. cbn [fst snd List.filter].
    destruct (overlaps c u var) eqn:Eo; reflexivity. }
  apply Houter.
Qed.

End Worklists.

(** C10.  What the two worklists of the code hold, what the worklists
    of the specification hold, and that the difference does not matter.
    [ac3] without argument starts from every ordered pair of distinct
    variables, the specification from the overlapping ones only;
    [get_neighbors_overlap_queue var] holds [(z, var)] for every other
    variable [z], the specification's worklist only those for the
    neighbors [z] of [var].  [revise] on a pair that does not overlap
    returns [False] and leaves the store as it is, and [ac3] returns the
    same value and leaves the same store under both seedings. *)
Theorem ac3_seeds_equivalent (c : Crossword) (st : creator) (var : Var.t) :
  distinct (variables c) = true -> In var (variables c) ->
  (forall x y, In (x, y) (overlaps_keys c) <->
               In x (variables c) /\ In y (variables c) /\ x <> y) /\
  (forall x y, In (x, y) (overlapping_arcs c) <->
               In x (variables c) /\ In y (variables c) /\ x <> y /\
               overlaps c x y <> None) /\
  (forall x y, In (x, y) (get_neighbors_overlap_queue c var) <->
               y = var /\ In x (variables c) /\ x <> var) /\
  (forall x y, In (x, y) (neighbor_arcs c var) <->
               y = var /\ In x (variables c) /\ x <> var /\
               overlaps c x var <> None) /\
  (forall x y st0, In (x, y) (overlaps_keys c) -> overlaps c x y = None ->
                   revise c x y st0 = (Ok false, st0)) /\
  ac3 c None st = ac3 c (Some (overlapping_arcs c)) st /\
  ac3 c (Some (get_neighbors_overlap_queue c var)) st =
  ac3 c (Some (neighbor_arcs c var)) st.
Proof.
  intros Hd Hvar. repeat apply conj.
  - intros x y. apply In_overlaps_keys.
  - intros x y. unfold overlapping_arcs. rewrite filter_In, In_overlaps_keys.
    unfold overlapping. simpl. destruct (overlaps c x y); split.
    + intros ((Hx & Hy & Hne) & _). repeat split; auto; discriminate.
    + intros (Hx & Hy & Hne & _). auto.
    + intros (_ & H). discriminate.
    + intros (_ & _ & _ & H). contradiction.
  - intros x y. unfold get_neighbors_overlap_queue.
    rewrite filter_In, In_overlaps_keys. simpl. rewrite var_eqb_eq. split.
    + intros ((Hx & Hy & Hne) & ->). auto.
    + intros (-> & Hx & Hne). auto.
  - intros x y. unfold neighbor_arcs. rewrite in_map_iff. split.
    + intros (z & [= <- <-] & Hz). apply In_neighbors in Hz. tauto.
    + intros (-> & Hx & Hne & Ho). exists x. split; [reflexivity |].
      apply In_neighbors. auto.
  - intros x y st0 Hk Ho. apply In_overlaps_keys in Hk. destruct Hk as (Hx & Hy & Hne).
    now apply revise_no_overlap.
  - symmetry. apply (ac3_filter c (overlaps_keys c)). apply overlaps_keys_keys.
  - rewrite <- (neighbor_queue_filtered c var Hd Hvar). symmetry. apply ac3_filter.
    apply List.Forall_forall. intros a Ha. unfold get_neighbors_overlap_queue in Ha.
    now apply filter_In in Ha.
Qed.

(** The ring has twelve ordered pairs of distinct variables, eight of
    them overlapping (the two across slots do not meet, nor do the two
    down slots), and three arcs into the top slot, two of them from
    neighbors.  With the top slot forced to [AXB] after node consistency,
    both seedings of [ac3] prune the store down to an empty domain for
    the bottom slot and return [False]. *)
Lemma ac3_seeds_equivalent_witness :
  let c := grid ring_variables lost_words in
  let st := snd (domains_set ring_top ["AXB"]
                   (snd (enforce_node_consistency c (init c)))) in
  distinct (variables c) = true /\ In ring_top (variables c) /\
  (List.length (overlaps_keys c) = 12 /\ List.length (overlapping_arcs c) = 8) /\
  (List.length (get_neighbors_overlap_queue c ring_top) = 3 /\
   List.length (neighbor_arcs c ring_top) = 2) /\
  (In (ring_bottom, ring_top) (overlaps_keys c) /\
   In (ring_bottom, ring_top) (get_neighbors_overlap_queue c ring_top) /\
   overlaps c ring_bottom ring_top = None) /\
  revise c ring_bottom ring_top st = (Ok false, st) /\
  fst (ac3 c None st) = Ok false /\
  ac3 c None st = ac3 c (Some (overlapping_arcs c)) st /\
  ac3 c (Some (get_neighbors_overlap_queue c ring_top)) st =
  ac3 c (Some (neighbor_arcs c ring_top)) st.
Proof.
  cbv zeta.
  assert (Hd : distinct (variables (grid ring_variables lost_words)) = true)
    by (vm_compute; reflexivity).
  assert (Hv : In ring_top (variables (grid ring_variables lost_words)))
    by (simpl; auto).
  assert (Hk : In (ring_bottom, ring_top) (overlaps_keys (grid ring_variables lost_words)))
    by (vm_compute; auto 20).
  assert (Hq : In (ring_bottom, ring_top)
                  (get_neighbors_overlap_queue (grid ring_variables lost_words) ring_top))
    by (vm_compute; auto 20).
  assert (Ho : overlaps (grid ring_variables lost_words) ring_bottom ring_top = None)
    by (vm_compute; reflexivity).
  pose proof (ac3_seeds_equivalent (grid ring_variables lost_words)
                (snd (domains_set ring_top ["AXB"]
                        (snd (enforce_node_consistency (grid ring_variables lost_words)
                                (init (grid ring_variables lost_words))))))
                ring_top Hd Hv) as (_ & _ & _ & _ & Hrevise & Hfull & Hinc).
  split; [exact Hd |]. split; [exact Hv |].
  split; [split; vm_compute; reflexivity |].
  split; [split; vm_compute; reflexivity |].
  split; [repeat split; assumption |].
  split; [exact (Hrevise ring_bottom ring_top _ Hk Ho) |].
  split; [vm_compute; reflexivity |].
  split; [exact Hfull | exact Hinc].
Defined.

(** C4, as the code has it.  A pass that revises [x] against [y] and
    leaves the domain of [x] non-empty puts back, behind the rest of the
    queue, the arc [(z, x)] for every neighbor [z] of [x]; [y] is not left
    out. *)
Theorem ac3_requeues_every_neighbor (c : Crossword) (x y : Var.t)
        (rest : list (Var.t * Var.t)) (st st' : creator) :
  revise c x y st = (Ok true, st') -> current st' x <> [] ->
  ac3_pass c x y rest st = (Ok (inr (rest ++ neighbor_arcs c x)), st') /\
  (forall n, ac3_loop c (S n) ((x, y) :: rest) st =
             ac3_loop c n (rest ++ neighbor_arcs c x) st') /\
  (forall z, In (z, x) (neighbor_arcs c x) <->
             In z (variables c) /\ z <> x /\ overlaps c z x <> None) /\
  (In (y, x) (neighbor_arcs c x) <-> overlaps c y x <> None).
Proof.
  intros Hr Hne. pose proof (revise_Ok _ _ _ _ _ _ Hr) as (Hx & Hy & Hxy & _).
  split; [| split; [| split]].
  - unfold ac3_pass, bind at 1. rewrite Hr. unfold bind, domains_get.
    apply is_variable_In in Hx. rewrite Hx.
    destruct (current st' x); [congruence | reflexivity].
  - intros n. rewrite ac3_loop_step, Hr. apply is_variable_In in Hx. rewrite Hx.
    destruct (current st' x); [congruence | reflexivity].
  - intros z. apply In_neighbor_arcs.
  - rewrite In_neighbor_arcs. split; [tauto | auto].
Qed.

Lemma ac3_requeues_every_neighbor_witness :
  let c := cross ["CAT"; "ARM"; "DOG"] in
  let st := snd (enforce_node_consistency c (init c)) in
  let st' := snd (revise c cross_across cross_down st) in
  revise c cross_across cross_down st = (Ok true, st') /\
  current st' cross_across <> [] /\
  ac3_pass c cross_across cross_down [] st =
  (Ok (inr ([] ++ neighbor_arcs c cross_across)), st').
Proof.
  cbv zeta.
  assert (H1 : revise (cross ["CAT"; "ARM"; "DOG"]) cross_across cross_down
                 (snd (enforce_node_consistency (cross ["CAT"; "ARM"; "DOG"])
                         (init (cross ["CAT"; "ARM"; "DOG"])))) =
               (Ok true,
                snd (revise (cross ["CAT"; "ARM"; "DOG"]) cross_across cross_down
                       (snd (enforce_node_consistency (cross ["CAT"; "ARM"; "DOG"])
                               (init (cross ["CAT"; "ARM"; "DOG"]))))))).
  { apply injective_projections; [vm_compute; reflexivity | reflexivity]. }
  assert (H2 : current
                 (snd (revise (cross ["CAT"; "ARM"; "DOG"]) cross_across cross_down
                         (snd (enforce_node_consistency (cross ["CAT"; "ARM"; "DOG"])
                                 (init (cross ["CAT"; "ARM"; "DOG"]))))))
                 cross_across <> []).
  { vm_compute. discriminate. }
  split; [exact H1 |]. split; [exact H2 |].
  exact (proj1 (ac3_requeues_every_neighbor _ _ _ [] _ _ H1 H2)).
Defined.

(** C4 as stated fails: on the cross, after node consistency, the pass
    for the arc (across, down) revises the domain of the across slot to
    [ARM] and puts the arc (down, across) back, although the down slot is
    the [y] of the pass. *)
Lemma ac3_requeues_the_arc_back :
  ~ requeues_all_but (cross ["CAT"; "ARM"; "DOG"]) cross_across cross_down []
      (snd (enforce_node_consistency (cross ["CAT"; "ARM"; "DOG"])
              (init (cross ["CAT"; "ARM"; "DOG"])))).
Proof.
  intros H.
  destruct ac3_requeues_every_neighbor_witness as (H1 & H2 & H3).
  specialize (H _ H1 H2). rewrite H3 in H. vm_compute in H. discriminate.
Qed.

(** ** More about [revise] *)

Section ReviseMore.

Variable c : Crossword.

Lemma any_match_found j ch ys found v :
  any_match j ch ys = Ok found -> In v ys -> String.get j v = Some ch ->
  found = true.
Proof.
  intros Hm Hv Hg. destruct found; [reflexivity |].
  destruct (any_match_false _ _ _ Hm v Hv) as (d & Hd & Hne). congruence.
Qed.

(** Any exception of [any_match] is an [IndexError]. *)
Lemma any_match_raise j ch ys e : any_match j ch ys = Raise e -> e = IndexError.
Proof.
  induction ys as [| v ys IH]; simpl; [discriminate |].
  unfold getitem. destruct (String.get j v) as [d |]; simpl.
  - destruct (Ascii.eqb d ch); [discriminate | exact IH].
  - now intros [= <-].
Qed.

(** A completed loop has read character [fst o] of every word and has
    got an answer from [any] for each. *)
Lemma revise_loop_defined x y o words revised st b st' :
  x <> y ->
  revise_loop c x y o words revised st = (Ok b, st') ->
  forall w, In w words ->
            exists ch found, String.get (fst o) w = Some ch /\
                             any_match (snd o) ch (current st y) = Ok found.
Proof.
  intros Hxy. revert revised st. induction words as [| w0 words IH]; intros revised st; simpl.
  - intros _ w [].
  - unfold bind at 1, lift at 1, getitem.
    destruct (String.get (fst o) w0) as [ch |] eqn:Eg; simpl; [| discriminate].
    unfold bind at 1, domains_get.
    destruct (is_variable c y); simpl; [| discriminate].
    unfold bind at 1, lift at 1.
    destruct (any_match (snd o) ch (current st y)) as [found | e |] eqn:Em;
      [| discriminate | discriminate].
    destruct found; simpl.
    + intros H w [<- | Hw]; [eauto | exact (IH _ _ H w Hw)].
    + unfold bind at 1, domains_remove. intros H w [<- | Hw]; [eauto |].
      specialize (IH _ _ H w Hw).
      rewrite current_set_current, (update_neq _ _ _ _ (not_eq_sym Hxy)) in IH.
      exact IH.
Qed.

(** Any exception of the loop is an [IndexError], when [y] is a
    variable. *)
Lemma revise_loop_raise x y o words revised st e st' :
  is_variable c y = true ->
  revise_loop c x y o words revised st = (Raise e, st') -> e = IndexError.
Proof.
  intros Hy. revert revised st. induction words as [| w0 words IH]; intros revised st; simpl.
  - discriminate.
  - unfold bind at 1, lift at 1, getitem.
    destruct (String.get (fst o) w0) as [ch |] eqn:Eg; simpl; [| now intros [= <-]].
    unfold bind at 1, domains_get. rewrite Hy.
    unfold bind at 1, lift at 1.
    destruct (any_match (snd o) ch (current st y)) as [found | e' |] eqn:Em.
    + destruct found; simpl; [apply IH |]. unfold bind at 1, domains_remove. apply IH.
    + intros [= <- _]. now apply any_match_raise in Em.
    + discriminate.
Qed.

(** Offsets inside every word: the loop completes. *)
Lemma any_match_total j ch ys :
  (forall v, In v ys -> j < String.length v) ->
  exists found, any_match j ch ys = Ok found.
Proof.
  induction ys as [| v ys IH]; intros H; simpl; [eauto |].
  unfold getitem. destruct (String.get j v) as [d |] eqn:Eg; simpl.
  - destruct (Ascii.eqb d ch); [eauto |]. apply IH. intros; apply H; now right.
  - exfalso. assert (Hl : j < String.length v) by (apply H; now left).
    revert Eg Hl. clear. revert j. induction v as [| a v IHv]; intros j; simpl.
    + lia.
    + destruct j; [discriminate |]. intros E Hl. apply (IHv j E). lia.
Qed.

Lemma get_Some_lt (w : str) k : k < String.length w -> exists ch, String.get k w = Some ch.
Proof.
  revert k. induction w as [| a w IH]; intros k; simpl; [lia |].
  destruct k; [eauto |]. intros H. apply IH. lia.
Qed.

Lemma get_Some_length (w : str) k ch : String.get k w = Some ch -> k < String.length w.
Proof.
  revert k. induction w as [| a w IH]; intros k; simpl; [discriminate |].
  destruct k; [lia |]. intros H. apply IH in H. lia.
Qed.

Lemma revise_loop_total x y o words revised st :
  x <> y -> is_variable c y = true ->
  (forall w, In w words -> fst o < String.length w) ->
  (forall v, In v (current st y) -> snd o < String.length v) ->
  exists b st', revise_loop c x y o words revised st = (Ok b, st').
Proof.
  intros Hxy Hy. revert revised st. induction words as [| w0 words IH];
    intros revised st Hw Hv; simpl; [unfold ret; eauto |].
  unfold bind at 1, lift at 1, getitem.
  destruct (get_Some_lt w0 (fst o)) as (ch & ->); [apply Hw; now left |]. simpl.
  unfold bind at 1, domains_get. rewrite Hy.
  unfold bind at 1, lift at 1.
  destruct (any_match_total (snd o) ch (current st y) Hv) as (found & ->).
  destruct found; simpl.
  - apply IH; [intros; apply Hw; now right | exact Hv].
  - unfold bind at 1, domains_remove. apply IH; [intros; apply Hw; now right |].
    rewrite current_set_current, (update_neq _ _ _ _ (not_eq_sym Hxy)). exact Hv.
Qed.

End ReviseMore.

(** ** [revise]: what a call does to the store *)

Lemma revise_Ok_agree (c : Crossword) (x y : Var.t) (o : nat * nat)
      (st st' : creator) (b : bool) :
  revise c x y st = (Ok b, st') -> overlaps c x y = Some o ->
  (forall w, In w (current st' x) <->
             In w (current st x) /\ exists v, In v (current st y) /\ agree o w v) /\
  (forall v, v <> x -> current st' v = current st v) /\
  (b = true <-> List.length (current st' x) < List.length (current st x)) /\
  (b = false -> st' = st).
Proof.
  intros Hr Ho.
  pose proof (revise_Ok _ _ _ _ _ _ Hr) as (Hx & Hy & Hxy & Hm). rewrite Ho in Hm.
  destruct Hm as (Hin & Hb).
  pose proof (revise_shrinks _ _ _ _ _ _ Hr) as ((_ & _ & _ & Hsame) & _ & _).
  assert (Hdef : forall w, In w (current st x) ->
                           exists ch found, String.get (fst o) w = Some ch /\
                                            any_match (snd o) ch (current st y) = Ok found).
  { unfold revise, bind at 1, lift at 1 in Hr.
    rewrite (overlaps_get_key c x y Hx Hy Hxy), Ho in Hr.
    unfold bind at 1, domains_get in Hr.
    apply is_variable_In in Hx. rewrite Hx in Hr.
    exact (revise_loop_defined c _ _ _ _ _ _ _ _ Hxy Hr). }
  split; [| split; [exact Hsame | split]].
  - intros w. rewrite Hin. split.
    + intros (Hw & Hs). split; [exact Hw |].
      apply has_support_witness in Hs. destruct Hs as (v & ch & Hv & H1 & H2).
      exists v. split; [exact Hv | now exists ch].
    + intros (Hw & v & Hv & ch & H1 & H2). split; [exact Hw |].
      destruct (Hdef w Hw) as (ch' & found & Hg & Hm).
      unfold has_support. rewrite Hg, Hm.
      assert (ch' = ch) as -> by congruence.
      now rewrite (any_match_found _ _ _ _ _ Hm Hv H2).
  - split.
    + intros ->. now apply (revise_true_lt c x y).
    + intros Hlt. destruct b; [reflexivity |].
      apply revise_false in Hr. subst st'. lia.
  - intros ->. now apply revise_false in Hr.
Qed.

(** [revise(x, y)] on an overlapping pair, when it returns: the words
    left in the domain of [x] are those that were there and agree, at the
    overlap, with some word of the domain of [y]; no other domain
    changes; the result is [True] exactly when the domain of [x] got
    smaller, and on [False] the whole store is as before. *)
Theorem revise_keeps_agreeing_words (c : Crossword) (x y : Var.t) (o : nat * nat)
        (st st' : creator) (b : bool) :
  revise c x y st = (Ok b, st') -> overlaps c x y = Some o ->
  (forall w, In w (current st' x) <->
             In w (current st x) /\ exists v, In v (current st y) /\ agree o w v) /\
  (forall v, v <> x -> current st' v = current st v) /\
  (b = true <-> List.length (current st' x) < List.length (current st x)) /\
  (b = false -> st' = st).
Proof.
  apply revise_Ok_agree.
Qed.

Lemma revise_keeps_agreeing_words_witness :
  let c := cross ["CAT"; "ARM"; "DOG"] in
  let st := snd (enforce_node_consistency c (init c)) in
  let st' := snd (revise c cross_across cross_down st) in
  revise c cross_across cross_down st = (Ok true, st') /\
  overlaps c cross_across cross_down = Some (0, 1) /\
  (true = true <->
   List.length (current st' cross_across) < List.length (current st cross_across)).
Proof.
  cbv zeta.
  assert (H1 : revise (cross ["CAT"; "ARM"; "DOG"]) cross_across cross_down
                 (snd (enforce_node_consistency (cross ["CAT"; "ARM"; "DOG"])
                         (init (cross ["CAT"; "ARM"; "DOG"])))) =
               (Ok true,
                snd (revise (cross ["CAT"; "ARM"; "DOG"]) cross_across cross_down
                       (snd (enforce_node_consistency (cross ["CAT"; "ARM"; "DOG"])
                               (init (cross ["CAT"; "ARM"; "DOG"]))))))).
  { apply injective_projections; [vm_compute; reflexivity | reflexivity]. }
  assert (H2 : overlaps (cross ["CAT"; "ARM"; "DOG"]) cross_across cross_down = Some (0, 1)).
  { vm_compute; reflexivity. }
  split; [exact H1 |]. split; [exact H2 |].
  exact (proj1 (proj2 (proj2 (revise_keeps_agreeing_words _ _ _ _ _ _ _ H1 H2)))).
Defined.

(** [revise(x, y)] looks the pair up in the overlaps dictionary first:
    for [x = y], or when one of the two is no variable of the crossword,
    it raises [KeyError] and leaves the store alone. *)
Theorem revise_key_error (c : Crossword) (x y : Var.t) (st : creator) :
  x = y \/ ~ In x (variables c) \/ ~ In y (variables c) ->
  revise c x y st = (Raise KeyError, st).
Proof.
  intros H. unfold revise, bind, lift, overlaps_get.
  assert (E : is_variable c x && is_variable c y && negb (Var.eqb x y) = false).
  { destruct H as [-> | [H | H]].
    - rewrite var_eqb_refl. simpl. apply andb_false_r.
    - destruct (is_variable c x) eqn:Ex; [| reflexivity].
      apply is_variable_In in Ex. contradiction.
    - destruct (is_variable c y) eqn:Ey; [| now rewrite andb_false_r].
      apply is_variable_In in Ey. contradiction. }
  now rewrite E.
Qed.

Lemma revise_key_error_witness :
  revise (cross ["CAT"]) cross_across cross_across (init (cross ["CAT"])) =
  (Raise KeyError, init (cross ["CAT"])).
Proof.
  apply revise_key_error. now left.
Defined.

(** [revise(x, y)] reads character [overlap[0]] of every word of the
    domain of [x]: when some word there is too short for it, the call
    ends in an [IndexError] (a store that is not node consistent). *)
Theorem revise_index_error (c : Crossword) (x y : Var.t) (o : nat * nat)
        (st : creator) (w : str) :
  In x (variables c) -> In y (variables c) -> x <> y ->
  overlaps c x y = Some o ->
  In w (current st x) -> String.length w <= fst o ->
  fst (revise c x y st) = Raise IndexError.
Proof.
  intros Hx Hy Hxy Ho Hw Hlen.
  destruct (revise c x y st) as [r st'] eqn:Hr. simpl.
  destruct r as [b | e |].
  - exfalso. unfold revise, bind at 1, lift at 1 in Hr.
    rewrite (overlaps_get_key c x y Hx Hy Hxy), Ho in Hr.
    unfold bind at 1, domains_get in Hr.
    apply is_variable_In in Hx. rewrite Hx in Hr.
    destruct (revise_loop_defined c _ _ _ _ _ _ _ _ Hxy Hr w Hw) as (ch & _ & Hg & _).
    apply get_Some_length in Hg. lia.
  - f_equal. unfold revise, bind at 1, lift at 1 in Hr.
    rewrite (overlaps_get_key c x y Hx Hy Hxy), Ho in Hr.
    unfold bind at 1, domains_get in Hr.
    apply is_variable_In in Hx. rewrite Hx in Hr.
    apply is_variable_In in Hy.
    exact (revise_loop_raise c _ _ _ _ _ _ _ _ Hy Hr).
  - exfalso. now apply revise_shrinks in Hr.
Qed.

Lemma revise_index_error_witness :
  fst (revise (cross ["CAT"; "A"]) cross_down cross_across
         (init (cross ["CAT"; "A"]))) = Raise IndexError.
Proof.
  apply (revise_index_error (cross ["CAT"; "A"]) cross_down cross_across (1, 0) _ "A").
  - simpl; auto.
  - simpl; auto.
  - discriminate.
  - vm_compute; reflexivity.
  - vm_compute; auto.
  - vm_compute; lia.
Defined.

(** ** More about [ac3] *)

Section Ac3More.

Variable c : Crossword.

Lemma shrinks_refl st : shrinks st st.
Proof.
  repeat split; auto. intros v. exists (fun _ => true). symmetry. apply filter_true_id.
Qed.

Lemma shrinks_trans st1 st2 st3 : shrinks st1 st2 -> shrinks st2 st3 -> shrinks st1 st3.
Proof.
  intros (H1 & H2 & H3 & H4) (K1 & K2 & K3 & K4). repeat split.
  - congruence.
  - congruence.
  - intros a Ha. rewrite K3, H3; congruence.
  - intros v. destruct (H4 v) as (p & Hp). destruct (K4 v) as (q & Hq).
    exists (fun a => p a && q a). rewrite Hq, Hp. apply filter_twice.
Qed.

Lemma same_but_shrinks x st st' :
  same_but x st st' -> (exists p, current st' x = List.filter p (current st x)) ->
  shrinks st st'.
Proof.
  intros (H1 & H2 & H3 & H4) Hp. repeat split; auto.
  intros v. destruct (Var.eqb v x) eqn:E.
  - apply var_eqb_eq in E. now subst.
  - apply var_eqb_neq in E. rewrite (H4 v E).
    exists (fun _ => true). symmetry. apply filter_true_id.
Qed.

Lemma shrinks_In st st' v w : shrinks st st' -> In w (current st' v) -> In w (current st v).
Proof.
  intros (_ & _ & _ & H) Hw. destruct (H v) as (p & Hp). rewrite Hp in Hw.
  now apply filter_In in Hw.
Qed.

Lemma revise_shrinks_store x y st r st' :
  revise c x y st = (r, st') -> shrinks st st'.
Proof.
  intros H. apply revise_shrinks in H. destruct H as (H1 & H2 & _).
  now apply same_but_shrinks with (x := x).
Qed.

Lemma ac3_pass_shrinks x y rest st r st' :
  ac3_pass c x y rest st = (r, st') -> shrinks st st'.
Proof.
  intros H. apply ac3_pass_cases in H.
  destruct H as [(_ & -> & _) | [(H & _) | [(H & _) | (e & H & _)]]];
    [apply shrinks_refl | | |]; now apply revise_shrinks_store in H.
Qed.

(** The loop only removes words, and only from the dictionary
    [self.domains] refers to. *)
Lemma ac3_loop_shrinks n arcs st r st' :
  ac3_loop c n arcs st = (r, st') -> shrinks st st'.
Proof.
  revert arcs st. induction n as [| n IH]; intros arcs st.
  - destruct arcs as [| [x y] rest]; simpl; intros [= <- <-]; apply shrinks_refl.
  - destruct arcs as [| [x y] rest]; simpl; [intros [= <- <-]; apply shrinks_refl |].
    unfold bind at 1.
    destruct (ac3_pass c x y rest st) as [r1 st1] eqn:Ep.
    apply ac3_pass_shrinks in Ep.
    destruct r1 as [[b | arcs'] | e |].
    + intros [= <- <-]. exact Ep.
    + intros H. apply IH in H. eapply shrinks_trans; eassumption.
    + intros [= <- <-]. exact Ep.
    + intros [= <- <-]. exact Ep.
Qed.

(** A loop that returns [False] has just emptied a domain. *)
Lemma ac3_loop_false n arcs st st' :
  ac3_loop c n arcs st = (Ok false, st') ->
  exists x, In x (variables c) /\ current st x <> [] /\ current st' x = [].
Proof.
  revert arcs st. induction n as [| n IH]; intros arcs st.
  - destruct arcs as [| [x y] rest]; simpl; discriminate.
  - destruct arcs as [| [x y] rest]; [simpl; discriminate |].
    rewrite ac3_loop_step.
    destruct (revise c x y st) as [[[|] | e |] st1] eqn:Er; try discriminate.
    + pose proof (revise_Ok _ _ _ _ _ _ Er) as (Hx & _).
      pose proof (revise_true_lt _ _ _ _ _ Er) as Hlt.
      pose proof (proj2 (is_variable_In c x) Hx) as Hv. rewrite Hv.
      destruct (List.length (current st1 x) =? 0) eqn:El.
      * intros [= <-]. apply Nat.eqb_eq in El. exists x. split; [exact Hx |]. split.
        -- intros E. rewrite E in Hlt. simpl in Hlt. lia.
        -- now destruct (current st1 x).
      * intros H. apply IH in H. destruct H as (z & Hz & Hne & He).
        exists z. split; [exact Hz |]. split; [| exact He].
        intros E. apply Hne. apply revise_shrinks_store in Er.
        destruct Er as (_ & _ & _ & Hp). destruct (Hp z) as (p & ->). now rewrite E.
    + apply revise_false in Er. subst st1. apply IH.
Qed.

Lemma supported_kept x a b o st st' :
  same_but x st st' ->
  (exists p, current st' x = List.filter p (current st x)) ->
  b <> x -> supported st a b o -> supported st' a b o.
Proof.
  intros (_ & _ & _ & Hs) (p & Hp) Hb H w Hw.
  rewrite (Hs b Hb). apply H.
  destruct (Var.eqb a x) eqn:E.
  - apply var_eqb_eq in E. subst a. rewrite Hp in Hw. now apply filter_In in Hw.
  - apply var_eqb_neq in E. now rewrite (Hs a E) in Hw.
Qed.

Lemma ac3_loop_fixpoint n arcs st st' :
  queued_or_supported c arcs st ->
  ac3_loop c n arcs st = (Ok true, st') ->
  queued_or_supported c [] st'.
Proof.
  revert arcs st. induction n as [| n IH]; intros arcs st Hinv.
  - destruct arcs as [| [x y] rest]; simpl; [now intros [= <-] | discriminate].
  - destruct arcs as [| [x y] rest]; [simpl; now intros [= <-] |].
    rewrite ac3_loop_step.
    destruct (revise c x y st) as [[[|] | e |] st1] eqn:Er; try discriminate.
    + pose proof (revise_Ok _ _ _ _ _ _ Er) as (Hx & Hy & Hxy & _).
      pose proof (proj2 (is_variable_In c x) Hx) as Hv. rewrite Hv.
      destruct (List.length (current st1 x) =? 0); [discriminate |].
      apply IH. intros a b o Ha Hb Hab Ho.
      destruct (Var.eqb b x) eqn:Ebx.
      * apply var_eqb_eq in Ebx. subst b. left. apply in_or_app. right.
        apply In_neighbor_arcs. repeat split; [assumption | assumption | congruence].
      * apply var_eqb_neq in Ebx.
        destruct (Hinv a b o Ha Hb Hab Ho) as [[E | Hin] | Hs].
        -- injection E as <- <-. right. exact (revise_supported c _ _ _ _ _ _ Er Ho).
        -- left. apply in_or_app. now left.
        -- right. pose proof (revise_shrinks _ _ _ _ _ _ Er) as (H1 & H2 & _).
           exact (supported_kept x a b o st st1 H1 H2 Ebx Hs).
    + pose proof (revise_false _ _ _ _ _ Er) as ->.
      apply IH. intros a b o Ha Hb Hab Ho.
      destruct (Hinv a b o Ha Hb Hab Ho) as [[E | Hin] | Hs]; auto.
      injection E as <- <-. right. exact (revise_supported c _ _ _ _ _ _ Er Ho).
Qed.

End Ac3More.

(** ** [ac3]: termination, frame and result *)

(** The [while] loop of [ac3] comes to an end: the fuel [ac3] computes is
    enough, whatever the queue and the store, and any larger amount gives
    the same result and the same store. *)
Theorem ac3_fuel_suffices (c : Crossword) (arcs : option (list (Var.t * Var.t)))
        (st : creator) (n : nat) :
  ac3_fuel c (default (overlaps_keys c) arcs) (current st) <= n ->
  fst (ac3 c arcs st) <> OutOfFuel /\
  ac3_loop c n (default (overlaps_keys c) arcs) st = ac3 c arcs st.
Proof.
  intros Hn. split; [apply ac3_terminates |].
  pose proof (ac3_terminates c arcs st) as Ht.
  destruct arcs as [q |]; simpl in *; unfold ac3 in *;
    now apply ac3_loop_more_fuel.
Qed.

Lemma ac3_fuel_suffices_witness :
  let c := cross ["CAT"; "ARM"; "DOG"] in
  ac3_fuel c (default (overlaps_keys c) None) (current (init c)) <= 100 /\
  fst (ac3 c None (init c)) <> OutOfFuel.
Proof.
  cbv zeta.
  assert (H : ac3_fuel (cross ["CAT"; "ARM"; "DOG"])
                (default (overlaps_keys (cross ["CAT"; "ARM"; "DOG"])) None)
                (current (init (cross ["CAT"; "ARM"; "DOG"]))) <= 100).
  { vm_compute. lia. }
  split; [exact H |].
  exact (proj1 (ac3_fuel_suffices (cross ["CAT"; "ARM"; "DOG"]) None _ 100 H)).
Defined.

(** Whatever its outcome (also an exception), [ac3] changes nothing but
    the dictionary [self.domains] refers to, and there it only removes
    words: every domain afterwards is the domain before without some of
    its words, in the same order. *)
Theorem ac3_only_removes (c : Crossword) (arcs : option (list (Var.t * Var.t)))
        (st : creator) :
  shrinks st (snd (ac3 c arcs st)) /\
  (forall v w, In w (current (snd (ac3 c arcs st)) v) -> In w (current st v)) /\
  (forall v, List.length (current (snd (ac3 c arcs st)) v) <= List.length (current st v)).
Proof.
  assert (H : shrinks st (snd (ac3 c arcs st))).
  { destruct (ac3 c arcs st) as [r st'] eqn:E. unfold ac3 in E.
    now apply ac3_loop_shrinks in E. }
  split; [exact H |]. split.
  - intros v w. now apply shrinks_In.
  - intros v. destruct H as (_ & _ & _ & H). destruct (H v) as (p & ->).
    apply List.filter_length_le.
Qed.

(** When [ac3] returns [False], the domain of some variable is empty in
    the store it leaves, and was not empty in the store it started
    from. *)
Theorem ac3_false_empties_a_domain (c : Crossword)
        (arcs : option (list (Var.t * Var.t))) (st st' : creator) :
  ac3 c arcs st = (Ok false, st') ->
  exists x, In x (variables c) /\ current st x <> [] /\ current st' x = [].
Proof.
  unfold ac3. apply ac3_loop_false.
Qed.

Lemma ac3_false_empties_a_domain_witness :
  let c := cross ["CAT"; "DOG"] in
  let st := snd (enforce_node_consistency c (init c)) in
  exists x, In x (variables c) /\ current st x <> [] /\
            current (snd (ac3 c None st)) x = [].
Proof.
  cbv zeta.
  apply (ac3_false_empties_a_domain (cross ["CAT"; "DOG"]) None).
  apply injective_projections; [vm_compute; reflexivity | reflexivity].
Defined.

(** When [ac3], started without argument, returns [True], the store is
    arc consistent: for every ordered pair of variables that overlap,
    every word left in the domain of the first agrees at the overlap with
    some word left in the domain of the second, and a further
    [revise] of the pair returns [False] and changes nothing. *)
Theorem ac3_reaches_arc_consistency (c : Crossword) (st st' : creator)
        (x y : Var.t) (o : nat * nat) :
  ac3 c None st = (Ok true, st') ->
  In x (variables c) -> In y (variables c) -> x <> y ->
  overlaps c x y = Some o ->
  (forall w, In w (current st' x) -> exists v, In v (current st' y) /\ agree o w v) /\
  revise c x y st' = (Ok false, st').
Proof.
  intros Ha Hx Hy Hxy Ho. unfold ac3 in Ha.
  apply ac3_loop_fixpoint in Ha.
  - destruct (Ha x y o Hx Hy Hxy Ho) as [[] | Hs]. split.
    + intros w Hw. apply Hs in Hw. apply has_support_witness in Hw.
      destruct Hw as (v & ch & Hv & H1 & H2). exists v. split; [exact Hv | now exists ch].
    + now apply revise_noop with (o := o).
  - intros a b o' Ha' Hb' Hab _. left. apply In_overlaps_keys. auto.
Qed.

Lemma ac3_reaches_arc_consistency_witness :
  let c := cross ["CAT"; "ARM"; "DOG"] in
  let st := snd (enforce_node_consistency c (init c)) in
  let st' := snd (ac3 c None st) in
  ac3 c None st = (Ok true, st') /\
  revise c cross_across cross_down st' = (Ok false, st').
Proof.
  cbv zeta.
  assert (H : ac3 (cross ["CAT"; "ARM"; "DOG"]) None
                (snd (enforce_node_consistency (cross ["CAT"; "ARM"; "DOG"])
                        (init (cross ["CAT"; "ARM"; "DOG"])))) =
              (Ok true,
               snd (ac3 (cross ["CAT"; "ARM"; "DOG"]) None
                      (snd (enforce_node_consistency (cross ["CAT"; "ARM"; "DOG"])
                              (init (cross ["CAT"; "ARM"; "DOG"]))))))).
  { apply injective_projections; [vm_compute; reflexivity | reflexivity]. }
  split; [exact H |].
  refine (proj2 (ac3_reaches_arc_consistency _ _ _ cross_across cross_down (0, 1)
                   H _ _ _ _)).
  - simpl; auto.
  - simpl; auto.
  - discriminate.
  - vm_compute; reflexivity.
Defined.

(** ** Node consistency *)

Section NodeConsistency.

Variable c : Crossword.

Lemma filter_ext_In {A} (p q : A -> bool) (l : list A) :
  (forall a, In a l -> p a = q a) -> List.filter p l = List.filter q l.
Proof.
  induction l as [| a l IH]; simpl; intros H; [reflexivity |].
  rewrite (H a (or_introl eq_refl)), IH; [reflexivity |]. intros; apply H; now right.
Qed.

Lemma existsb_eqb_In (w : str) (ws : list str) :
  existsb (String.eqb w) ws = true <-> In w ws.
Proof.
  rewrite existsb_exists. split.
  - intros (w' & Hw & E). apply String.eqb_eq in E. now subst.
  - intros H. exists w. split; [exact H | apply String.eqb_refl].
Qed.

(** The inner loop of [enforce_node_consistency] over the copy [ws] of
    the domain of [var]. *)
Lemma node_loop var ws st :
  exists st',
    for_each ws (fun word =>
      if negb (String.length word =? Var.length var)
      then domains_remove var word else ret tt) st = (Ok tt, st') /\
    same_but var st st' /\
    current st' var =
    List.filter (fun w => fits var w || negb (existsb (String.eqb w) ws)) (current st var).
Proof.
  revert st. induction ws as [| w ws IH]; intros st; simpl.
  - exists st. split; [reflexivity |]. split; [apply same_but_refl |].
    symmetry. rewrite <- (filter_true_id (current st var)) at 2.
    apply filter_ext_In. intros a _. apply orb_true_r.
  - unfold bind at 1.
    destruct (String.length w =? Var.length var) eqn:El; simpl.
    + destruct (IH st) as (st' & H1 & H2 & H3). exists st'. unfold ret at 1.
      split; [exact H1 |]. split; [exact H2 |]. rewrite H3.
      apply filter_ext_In. intros a _. unfold fits.
      destruct (String.eqb a w) eqn:E; [| reflexivity].
      apply String.eqb_eq in E. subst a. now rewrite El.
    + unfold domains_remove at 1.
      destruct (IH (set_current (update (current st) var (remove w (current st var))) st))
        as (st' & H1 & H2 & H3).
      exists st'. split; [exact H1 |]. split.
      * eapply same_but_trans; [apply same_but_remove | exact H2].
      * rewrite H3, current_set_current, update_eq. unfold remove.
        rewrite filter_twice. apply filter_ext_In. intros a _. unfold fits.
        destruct (String.eqb a w) eqn:E; simpl; [| reflexivity].
        apply String.eqb_eq in E. subst a. now rewrite El.
Qed.

(** The body of the outer loop, for one variable. *)
Lemma node_step var st :
  is_variable c var = true ->
  exists st',
    (words <- domains_get c var ;;
     for_each words (fun word =>
       if negb (String.length word =? Var.length var)
       then domains_remove var word else ret tt)) st = (Ok tt, st') /\
    same_but var st st' /\
    current st' var = List.filter (fits var) (current st var).
Proof.
  intros Hv. unfold bind, domains_get. rewrite Hv.
  destruct (node_loop var (current st var) st) as (st' & H1 & H2 & H3).
  exists st'. split; [exact H1 |]. split; [exact H2 |]. rewrite H3.
  apply filter_ext_In. intros a Ha.
  apply existsb_eqb_In in Ha. rewrite Ha. simpl. apply orb_false_r.
Qed.

Lemma filter_fits_twice v (l : list str) :
  List.filter (fits v) (List.filter (fits v) l) = List.filter (fits v) l.
Proof.
  rewrite filter_twice. apply filter_ext_In. intros a _. now destruct (fits v a).
Qed.

Lemma In_var_dec (v : Var.t) (vs : list Var.t) : In v vs \/ ~ In v vs.
Proof.
  destruct (existsb (Var.eqb v) vs) eqn:E.
  - left. apply existsb_exists in E. destruct E as (u & Hu & E).
    apply var_eqb_eq in E. now subst.
  - right. intros H. assert (existsb (Var.eqb v) vs = true); [| congruence].
    apply existsb_exists. exists v. split; [exact H | apply var_eqb_refl].
Qed.

(** The outer loop over the variables [vars]. *)
Lemma node_vars vars st :
  (forall v, In v vars -> In v (variables c)) ->
  exists st',
    for_each vars (fun var =>
      words <- domains_get c var ;;
      for_each words (fun word =>
        if negb (String.length word =? Var.length var)
        then domains_remove var word else ret tt)) st = (Ok tt, st') /\
    self_domains st' = self_domains st /\ next st' = next st /\
    (forall a, a <> self_domains st -> heap st' !! a = heap st !! a) /\
    (forall v, In v vars -> current st' v = List.filter (fits v) (current st v)) /\
    (forall v, ~ In v vars -> current st' v = current st v).
Proof.
  revert st. induction vars as [| var vars IH]; intros st Hvars; simpl.
  - exists st. repeat split; auto. intros v [].
  - unfold bind at 1.
    destruct (node_step var st) as (st1 & H1 & (S1 & S2 & S3 & S4) & H3).
    { apply is_variable_In. apply Hvars. now left. }
    rewrite H1.
    destruct (IH st1) as (st' & K1 & K2 & K3 & K4 & K5 & K6).
    { intros; apply Hvars; now right. }
    exists st'. split; [exact K1 |]. repeat split.
    + congruence.
    + congruence.
    + intros a Ha. rewrite K4, S3; congruence.
    + intros v [<- | Hv].
      * destruct (In_var_dec var vars) as [Hin | Hout].
        -- rewrite (K5 _ Hin), H3. apply filter_fits_twice.
        -- now rewrite (K6 _ Hout).
      * rewrite (K5 _ Hv).
        destruct (Var.eqb v var) eqn:E.
        -- apply var_eqb_eq in E. subst v. rewrite H3. apply filter_fits_twice.
        -- apply var_eqb_neq in E. now rewrite (S4 v E).
    + intros v Hv. rewrite K6 by tauto.
      apply S4. intros ->. apply Hv. now left.
Qed.

Lemma shrinks_node_consistent st st' :
  shrinks st st' -> node_consistent c (current st) -> node_consistent c (current st').
Proof.
  intros Hs H v w Hv Hw. apply (H v w Hv). now apply (shrinks_In st st').
Qed.

End NodeConsistency.

Lemma enforce_node_consistency_run (c : Crossword) (st : creator) :
  exists st',
    enforce_node_consistency c st = (Ok tt, st') /\
    shrinks st st' /\
    (forall v, In v (variables c) -> current st' v = List.filter (fits v) (current st v)) /\
    (forall v, ~ In v (variables c) -> current st' v = current st v).
Proof.
  destruct (node_vars c (variables c) st (fun v H => H))
    as (st' & H1 & H2 & H3 & H4 & H5 & H6).
  exists st'. split; [exact H1 |]. split; [| split; assumption].
  repeat split; auto. intros v.
  destruct (In_var_dec v (variables c)) as [Hin | Hout].
  - exists (fits v). now apply H5.
  - exists (fun _ => true). rewrite filter_true_id. now apply H6.
Qed.

Lemma enforce_node_consistent (c : Crossword) (st : creator) :
  node_consistent c (current (snd (enforce_node_consistency c st))).
Proof.
  destruct (enforce_node_consistency_run c st) as (st' & -> & _ & H & _). simpl.
  intros v w Hv Hw. rewrite (H v Hv) in Hw. apply filter_In in Hw.
  destruct Hw as (_ & Hw). now apply Nat.eqb_eq in Hw.
Qed.

(** [enforce_node_consistency] never raises; it leaves in the domain of
    every variable exactly the words whose length is the variable's
    length, in their order, and touches nothing else. *)
Theorem enforce_node_consistency_filters (c : Crossword) (st : creator) :
  fst (enforce_node_consistency c st) = Ok tt /\
  (forall v, In v (variables c) ->
             current (snd (enforce_node_consistency c st)) v =
             List.filter (fun w => String.length w =? Var.length v) (current st v)) /\
  (forall v, ~ In v (variables c) ->
             current (snd (enforce_node_consistency c st)) v = current st v) /\
  shrinks st (snd (enforce_node_consistency c st)).
Proof.
  destruct (enforce_node_consistency_run c st) as (st' & -> & H1 & H2 & H3). simpl.
  repeat split; try apply H1; assumption.
Qed.

(** The length invariant of the domains: it holds after
    [enforce_node_consistency] from any store, and [revise] and [ac3]
    keep it, whatever their outcome. *)
Theorem node_consistency_kept (c : Crossword) (st : creator) (x y : Var.t)
        (arcs : option (list (Var.t * Var.t))) :
  node_consistent c (current (snd (enforce_node_consistency c st))) /\
  (node_consistent c (current st) ->
   node_consistent c (current (snd (revise c x y st))) /\
   node_consistent c (current (snd (ac3 c arcs st)))).
Proof.
  split; [apply enforce_node_consistent |]. intros H. split.
  - apply (shrinks_node_consistent c st); [| exact H].
    destruct (revise c x y st) as [r st'] eqn:E. now apply revise_shrinks_store in E.
  - apply (shrinks_node_consistent c st); [| exact H].
    destruct (ac3 c arcs st) as [r st'] eqn:E. unfold ac3 in E.
    now apply ac3_loop_shrinks in E.
Qed.

Lemma node_consistency_kept_witness :
  let c := cross ["CAT"; "ARM"; "TO"] in
  let st := snd (enforce_node_consistency c (init c)) in
  node_consistent c (current st) /\
  node_consistent c (current (snd (ac3 c None st))).
Proof.
  cbv zeta.
  assert (H : node_consistent (cross ["CAT"; "ARM"; "TO"])
                (current (snd (enforce_node_consistency (cross ["CAT"; "ARM"; "TO"])
                                 (init (cross ["CAT"; "ARM"; "TO"])))))).
  { intros v w [<- | [<- | []]] Hw; vm_compute in Hw;
      destruct Hw as [<- | [<- | []]]; reflexivity. }
  split; [exact H |].
  exact (proj2 (proj2 (node_consistency_kept (cross ["CAT"; "ARM"; "TO"]) _
                         cross_across cross_down None) H)).
Defined.

(** ** [consistent] *)

Section Consistent.

Variable c : Crossword.

Lemma contains_true a v :
  contains a v = true -> exists w, assignment_get a v = Ok w.
Proof.
  unfold contains, assignment_get. induction a as [| e a IH]; simpl; [discriminate |].
  destruct (Var.eqb (fst e) v); simpl; eauto.
Qed.

Lemma contains_false a v :
  contains a v = false -> assignment_get a v = Raise KeyError.
Proof.
  unfold contains, assignment_get. induction a as [| e a IH]; simpl; [reflexivity |].
  destruct (Var.eqb (fst e) v); simpl; [discriminate | exact IH].
Qed.

Lemma get_Ok_contains a v w : assignment_get a v = Ok w -> contains a v = true.
Proof.
  intros H. destruct (contains a v) eqn:E; [reflexivity |].
  apply contains_false in E. congruence.
Qed.

Lemma In_set_add w w' used : In w' (set_add w used) <-> In w' used \/ w' = w.
Proof.
  unfold set_add. destruct (existsb (String.eqb w) used) eqn:E.
  - apply existsb_eqb_In in E. split; [auto |]. intros [H | ->]; assumption.
  - rewrite in_app_iff. simpl. split.
    + intros [H | [<- | []]]; auto.
    + intros [H | ->]; auto.
Qed.

(** [len(used_words)] at the end of the loop against the counter. *)
Lemma used_words_length (l : list str) (used : list str) :
  List.length (fold_left (fun u w => set_add w u) l used) <= List.length used + List.length l /\
  (List.length (fold_left (fun u w => set_add w u) l used) = List.length used + List.length l <->
   List.NoDup l /\ forall w, In w l -> ~ In w used).
Proof.
  revert used. induction l as [| w l IH]; intros used; simpl.
  - split; [lia |]. split; [| lia]. intros _. split; [constructor | intros w []].
  - destruct (IH (set_add w used)) as (Hle & Heq).
    unfold set_add in *. destruct (existsb (String.eqb w) used) eqn:E.
    + apply existsb_eqb_In in E. split; [lia |]. split; [lia |].
      intros (_ & H). exfalso. apply (H w); auto.
    + assert (Hw : ~ In w used).
      { intros H. apply existsb_eqb_In in H. congruence. }
      rewrite length_app in *. simpl in *. split; [lia |].
      replace (List.length used + S (List.length l))
        with (List.length used + 1 + List.length l) by lia.
      rewrite Heq. split.
      * intros (Hnd & Hout). split.
        -- constructor; [| exact Hnd]. intros Hin. apply (Hout w Hin).
           apply in_or_app. right. now left.
        -- intros w' [<- | Hin]; [exact Hw |]. intros Hu. apply (Hout w' Hin).
           apply in_or_app. now left.
      * intros (Hnd & Hout). apply List.NoDup_cons_iff in Hnd. destruct Hnd as (Hnin & Hnd).
        split; [exact Hnd |]. intros w' Hin Hu. apply in_app_or in Hu.
        destruct Hu as [Hu | [<- | []]]; [| contradiction].
        apply (Hout w'); auto.
Qed.

(** The inner loop returns [True] exactly when every counted neighbor
    of the list agrees with the word of [var]. *)
Lemma consistent_neighbors_true a var vw ns :
  In var (variables c) ->
  (forall n, In n ns -> In n (variables c) /\ n <> var) ->
  assignment_get a var = Ok vw ->
  (consistent_neighbors c a var ns = Ok true <->
   forall n nw, In n ns -> assigned a n nw ->
                exists o, overlaps c var n = Some o /\ agree o vw nw).
Proof.
  intros Hvar Hns Hget. induction ns as [| n ns IH]; simpl.
  - split; [intros _ n nw [] | reflexivity].
  - assert (Hns' : forall n0, In n0 ns -> In n0 (variables c) /\ n0 <> var)
      by (intros; apply Hns; now right).
    specialize (IH Hns').
    destruct (Hns n (or_introl eq_refl)) as (Hn & Hne).
    destruct (contains a n) eqn:Ec; simpl.
    2:{ apply contains_false in Ec. rewrite IH. split.
        - intros H n0 nw [<- | Hin] Ha; [| now apply H].
          destruct Ha as (Ha & _). congruence.
        - intros H n0 nw Hin. apply H. now right. }
    destruct (contains_true _ _ Ec) as (nw & Hnw). rewrite Hnw. simpl.
    destruct (truthy nw) eqn:Et; simpl.
    2:{ rewrite IH. split.
        - intros H n0 nw0 [<- | Hin] Ha; [| now apply H].
          destruct Ha as (Ha & Ht). congruence.
        - intros H n0 nw0 Hin. apply H. now right. }
    rewrite (overlaps_get_key c var n Hvar Hn (not_eq_sym Hne)). simpl.
    rewrite Hget. simpl.
    assert (Hhere : assigned a n nw) by (now split).
    destruct (overlaps c var n) as [o |] eqn:Eo.
    2:{ split; [discriminate |]. intros H.
        destruct (H n nw (or_introl eq_refl) Hhere) as (o & Ho & _). congruence. }
    unfold getitem.
    destruct (String.get (fst o) vw) as [ch1 |] eqn:E1; simpl.
    2:{ split; [discriminate |]. intros H.
        destruct (H n nw (or_introl eq_refl) Hhere) as (o' & Ho & ch & H1 & _).
        congruence. }
    destruct (String.get (snd o) nw) as [ch2 |] eqn:E2; simpl.
    2:{ split; [discriminate |]. intros H.
        destruct (H n nw (or_introl eq_refl) Hhere) as (o' & Ho & ch & _ & H2).
        congruence. }
    destruct (Ascii.eqb ch1 ch2) eqn:Ee; simpl.
    + apply Ascii.eqb_eq in Ee. subst ch2. rewrite IH. split.
      * intros H n0 nw0 [<- | Hin] Ha; [| now apply H].
        destruct Ha as (Ha & _). assert (nw0 = nw) as -> by congruence.
        exists o. split; [exact Eo | now exists ch1].
      * intros H n0 nw0 Hin. apply H. now right.
    + apply Ascii.eqb_neq in Ee. split; [discriminate |]. intros H.
      destruct (H n nw (or_introl eq_refl) Hhere) as (o' & Ho & ch & H1 & H2).
      congruence.
Qed.

Lemma neighbors_are_others var n :
  In n (neighbors c var) -> In n (variables c) /\ n <> var.
Proof.
  intros H. apply In_neighbors in H. tauto.
Qed.

(** The outer loop returns [True] exactly when every counted variable
    passes the neighbor and the length test and the size of the set of
    used words is the counter at the end. *)
Lemma consistent_loop_true a vars used count :
  (forall v, In v vars -> In v (variables c)) ->
  (consistent_loop c a vars used count = Ok true <->
   (forall var vw, In var vars -> assigned a var vw ->
      (forall n nw, In n (neighbors c var) -> assigned a n nw ->
                    exists o, overlaps c var n = Some o /\ agree o vw nw) /\
      Var.length var = String.length vw) /\
   List.length (fold_left (fun u w => set_add w u) (assigned_words a vars) used) =
   count + List.length (assigned_words a vars)).
Proof.
  revert used count. induction vars as [| var vars IH]; intros used count Hvars; simpl.
  - destruct (List.length used =? count) eqn:E; simpl.
    + apply Nat.eqb_eq in E. split; [| reflexivity]. intros _.
      split; [intros var vw [] | lia].
    + apply Nat.eqb_neq in E. split; [discriminate |]. intros (_ & H). lia.
  - assert (Hvars' : forall v, In v vars -> In v (variables c))
      by (intros; apply Hvars; now right).
    pose proof (Hvars var (or_introl eq_refl)) as Hvar.
    destruct (contains a var) eqn:Ec.
    2:{ apply contains_false in Ec. rewrite Ec. simpl. rewrite (IH _ _ Hvars').
        split; intros (H1 & H2); (split; [| exact H2]).
        - intros v vw [<- | Hin] Ha; [| now apply H1].
          destruct Ha as (Ha & _). congruence.
        - intros v vw Hin. apply H1. now right. }
    destruct (contains_true _ _ Ec) as (vw & Hvw). rewrite Hvw. simpl.
    destruct (truthy vw) eqn:Et; simpl.
    2:{ rewrite (IH _ _ Hvars').
        split; intros (H1 & H2); (split; [| exact H2]).
        - intros v vw0 [<- | Hin] Ha; [| now apply H1].
          destruct Ha as (Ha & Ht). congruence.
        - intros v vw0 Hin. apply H1. now right. }
    assert (Hhere : assigned a var vw) by (now split).
    pose proof (consistent_neighbors_true a var vw (neighbors c var) Hvar
                  (neighbors_are_others var) Hvw) as Hn.
    destruct (consistent_neighbors c a var (neighbors c var)) as [[|] | e |] eqn:En; simpl.
    + destruct (Var.length var =? String.length vw) eqn:El; simpl.
      * apply Nat.eqb_eq in El. rewrite (IH _ _ Hvars').
        replace (count + 1 + List.length (assigned_words a vars))
          with (count + S (List.length (assigned_words a vars))) by lia.
        split; intros (H1 & H2); (split; [| exact H2]).
        -- intros v vw0 [<- | Hin] Ha; [| now apply H1].
           destruct Ha as (Ha & _). assert (vw0 = vw) as -> by congruence.
           split; [now apply Hn | exact El].
        -- intros v vw0 Hin. apply H1. now right.
      * apply Nat.eqb_neq in El. split; [discriminate |]. intros (H1 & _).
        destruct (H1 var vw (or_introl eq_refl) Hhere) as (_ & H). contradiction.
    + split; [discriminate |]. intros (H1 & _).
      destruct (H1 var vw (or_introl eq_refl) Hhere) as (H & _).
      apply Hn in H. discriminate.
    + split; [discriminate |]. intros (H1 & _).
      destruct (H1 var vw (or_introl eq_refl) Hhere) as (H & _).
      apply Hn in H. discriminate.
    + split; [discriminate |]. intros (H1 & _).
      destruct (H1 var vw (or_introl eq_refl) Hhere) as (H & _).
      apply Hn in H. discriminate.
Qed.

Lemma In_assigned_words a vars w :
  In w (assigned_words a vars) <-> exists v, In v vars /\ assigned a v w.
Proof.
  unfold assigned_words. rewrite in_flat_map. split.
  - intros (v & Hv & Hw). exists v. split; [exact Hv |].
    destruct (assignment_get a v) as [w0 | |] eqn:E; try contradiction.
    destruct (truthy w0) eqn:Et; [| contradiction].
    destruct Hw as [<- | []]. now split.
  - intros (v & Hv & Hg & Ht). exists v. split; [exact Hv |].
    rewrite Hg, Ht. now left.
Qed.

(** No word is counted twice: no two variables share a counted word. *)
Lemma assigned_words_NoDup a vars :
  List.NoDup vars ->
  (List.NoDup (assigned_words a vars) <->
   forall v1 v2 w, In v1 vars -> In v2 vars ->
                   assigned a v1 w -> assigned a v2 w -> v1 = v2).
Proof.
  induction vars as [| v vars IH]; intros Hnd.
  - simpl. split; [intros _ v1 v2 w [] | constructor].
  - apply List.NoDup_cons_iff in Hnd. destruct Hnd as (Hv & Hnd). specialize (IH Hnd).
    change (assigned_words a (v :: vars))
      with ((match assignment_get a v with
             | Ok w => if truthy w then [w] else []
             | _ => []
             end) ++ assigned_words a vars).
    destruct (assignment_get a v) as [w |e |] eqn:Eg.
    2,3: simpl; rewrite IH; split;
      [ intros H v1 v2 w0 [<- | H1] [<- | H2] (A1 & T1) (A2 & T2); try congruence;
        apply (H v1 v2 w0); auto; split; auto
      | intros H v1 v2 w0 H1 H2; apply H; now right ].
    destruct (truthy w) eqn:Et.
    2:{ simpl. rewrite IH. split.
        - intros H v1 v2 w0 [<- | H1] [<- | H2] (A1 & T1) (A2 & T2); try congruence.
          apply (H v1 v2 w0); auto; split; auto.
        - intros H v1 v2 w0 H1 H2. apply H; now right. }
    simpl. rewrite List.NoDup_cons_iff, IH, In_assigned_words. split.
    + intros (Hout & H) v1 v2 w0 [<- | H1] [<- | H2] A1 A2; try reflexivity.
      * exfalso. apply Hout. exists v2. split; [exact H2 |].
        destruct A1 as (A1 & _). assert (w0 = w) as <- by congruence. exact A2.
      * exfalso. apply Hout. exists v1. split; [exact H1 |].
        destruct A2 as (A2 & _). assert (w0 = w) as <- by congruence. exact A1.
      * now apply (H v1 v2 w0).
    + intros H. split.
      * intros (v2 & H2 & A2). apply Hv.
        assert (v = v2) as ->; [| exact H2].
        apply (H v v2 w); [now left | now right | now split | exact A2].
      * intros v1 v2 w0 H1 H2. apply H; now right.
Qed.

End Consistent.

Lemma consistent_true_iff_aux (c : Crossword) (a : list (Var.t * string)) :
  distinct (variables c) = true ->
  (consistent c a = Ok true <->
   (forall v1 v2 w, In v1 (variables c) -> In v2 (variables c) ->
                    assigned a v1 w -> assigned a v2 w -> v1 = v2) /\
   (forall var n vw nw, In var (variables c) -> In n (neighbors c var) ->
                        assigned a var vw -> assigned a n nw ->
                        exists o, overlaps c var n = Some o /\ agree o vw nw) /\
   (forall var vw, In var (variables c) -> assigned a var vw ->
                   String.length vw = Var.length var)).
Proof.
  intros Hd. apply distinct_NoDup in Hd. unfold consistent.
  rewrite (consistent_loop_true c a (variables c) [] 0 (fun v H => H)).
  pose proof (used_words_length (assigned_words a (variables c)) []) as (_ & Hu).
  simpl in Hu. rewrite Hu. rewrite (assigned_words_NoDup a (variables c) Hd).
  split.
  - intros (H1 & H2 & _). split; [exact H2 |]. split.
    + intros var n vw nw Hvar Hn Ha Hna.
      destruct (H1 var vw Hvar Ha) as (H & _). now apply (H n nw).
    + intros var vw Hvar Ha. destruct (H1 var vw Hvar Ha) as (_ & H). now symmetry.
  - intros (H1 & H2 & H3). split; [| split; [exact H1 | intros w _ []]].
    intros var vw Hvar Ha. split.
    + intros n nw Hn Hna. now apply (H2 var n vw nw).
    + symmetry. now apply H3.
Qed.

(** [consistent(assignment)] returns [True] exactly when, among the
    entries it counts (a variable of the crossword with a non-empty
    word), (a) no two variables have the same word, (b) every variable
    agrees with each of its neighbors at the offsets of their overlap and
    (c) every word has the length of its variable.  Entries with an empty
    word are skipped like missing ones. *)
Theorem consistent_true_iff (c : Crossword) (a : list (Var.t * string)) :
  distinct (variables c) = true ->
  (consistent c a = Ok true <->
   (forall v1 v2 w, In v1 (variables c) -> In v2 (variables c) ->
                    assigned a v1 w -> assigned a v2 w -> v1 = v2) /\
   (forall var n vw nw, In var (variables c) -> In n (neighbors c var) ->
                        assigned a var vw -> assigned a n nw ->
                        exists o, overlaps c var n = Some o /\ agree o vw nw) /\
   (forall var vw, In var (variables c) -> assigned a var vw ->
                   String.length vw = Var.length var)).
Proof.
  apply consistent_true_iff_aux.
Qed.

Lemma consistent_true_iff_witness :
  let c := cross ["CAT"; "ARM"] in
  let a := [(cross_across, "ARM"); (cross_down, "CAT")] in
  distinct (variables c) = true /\
  consistent c a = Ok true /\
  (forall var vw, In var (variables c) -> assigned a var vw ->
                  String.length vw = Var.length var).
Proof.
  cbv zeta.
  assert (Hd : distinct (variables (cross ["CAT"; "ARM"])) = true) by reflexivity.
  assert (Hc : consistent (cross ["CAT"; "ARM"])
                 [(cross_across, "ARM"); (cross_down, "CAT")] = Ok true)
    by (vm_compute; reflexivity).
  split; [exact Hd |]. split; [exact Hc |].
  exact (proj2 (proj2 (proj1 (consistent_true_iff (cross ["CAT"; "ARM"])
                                [(cross_across, "ARM"); (cross_down, "CAT")] Hd) Hc))).
Defined.

(** ** [select_unassigned_variable] *)

Section Select.

Variable c : Crossword.
Variable d : domains.
Variable a : list (Var.t * string).

Lemma lowest_loop_spec vars lowest acc :
  lowest_inv d lowest acc ->
  let L := lowest_domain_count_loop d a vars lowest acc in
  (forall v, In v L -> In v acc \/ (In v vars /\ contains a v = false)) /\
  (forall v v', In v L -> In v' L -> List.length (d v) = List.length (d v')) /\
  (forall v u, In v L -> In u vars -> contains a u = false ->
               List.length (d v) <= List.length (d u) /\
               (List.length (d u) = List.length (d v) -> In u L)) /\
  (forall v u, In v L -> In u acc ->
               List.length (d v) <= List.length (d u) /\
               (List.length (d u) = List.length (d v) -> In u L)) /\
  ((acc <> [] \/ exists u, In u vars /\ contains a u = false) -> L <> []).
Proof.
  revert lowest acc. induction vars as [| var vars IH]; intros lowest acc Hinv; simpl.
  - split; [auto |]. split; [| split; [| split; [| intros [H | (u & [] & _)]; exact H]]].
    + intros v v' Hv Hv'. destruct lowest as [m |]; simpl in Hinv.
      * destruct Hinv as (_ & H). rewrite (H v Hv), (H v' Hv'). reflexivity.
      * subst. contradiction.
    + intros v u _ [].
    + intros v u Hv Hu. destruct lowest as [m |]; simpl in Hinv.
      * destruct Hinv as (_ & H). rewrite (H v Hv), (H u Hu). split; [lia | auto].
      * subst. contradiction.
  - destruct (contains a var) eqn:Ec.
    { destruct (IH lowest acc Hinv) as (H1 & H2 & H3 & H4 & H5).
      split; [| split; [exact H2 | split; [| split; [exact H4 |]]]].
      - intros v Hv. destruct (H1 v Hv) as [H | (H & H')]; auto.
      - intros v u Hv [<- | Hu] Hc; [congruence | now apply H3].
      - intros [H | (u & [<- | Hu] & Hc)]; [apply H5; auto | congruence |].
        apply H5. right. eauto. }
    assert (Hnew : lowest_inv d (Some (List.length (d var))) [var]).
    { split; [discriminate |]. intros u [<- | []]. reflexivity. }
    assert (Hreset :
              (forall m, lowest = Some m -> List.length (d var) < m) ->
              let L := lowest_domain_count_loop d a vars (Some (List.length (d var))) [var] in
              (forall v, In v L -> In v acc \/ (In v (var :: vars) /\ contains a v = false)) /\
              (forall v v', In v L -> In v' L -> List.length (d v) = List.length (d v')) /\
              (forall v u, In v L -> In u (var :: vars) -> contains a u = false ->
                           List.length (d v) <= List.length (d u) /\
                           (List.length (d u) = List.length (d v) -> In u L)) /\
              (forall v u, In v L -> In u acc ->
                           List.length (d v) <= List.length (d u) /\
                           (List.length (d u) = List.length (d v) -> In u L)) /\
              ((acc <> [] \/ exists u, In u (var :: vars) /\ contains a u = false) -> L <> [])).
    { intros Hlt. destruct (IH _ _ Hnew) as (H1 & H2 & H3 & H4 & H5).
      split; [| split; [exact H2 | split; [| split]]].
      - intros v Hv. destruct (H1 v Hv) as [[<- | []] | (H & H')]; right; split; simpl; auto.
      - intros v u Hv [<- | Hu] Hc; [apply H4; simpl; auto | now apply H3].
      - intros v u Hv Hu. destruct (H4 v var Hv (or_introl eq_refl)) as (Hle & _).
        destruct lowest as [m |]; simpl in Hinv.
        + destruct Hinv as (_ & Hm). specialize (Hlt m eq_refl).
          rewrite (Hm u Hu). lia.
        + subst. contradiction.
      - intros _. apply H5. left. discriminate. }
    destruct lowest as [m |].
    2:{ apply Hreset. discriminate. }
    destruct (List.length (d var) <? m) eqn:Elt.
    { apply Nat.ltb_lt in Elt. apply Hreset. now intros m' [= <-]. }
    apply Nat.ltb_ge in Elt.
    destruct Hinv as (Hne & Hm).
    destruct (List.length (d var) =? m) eqn:Eeq.
    + apply Nat.eqb_eq in Eeq.
      assert (Hinv' : lowest_inv d (Some m) (acc ++ [var])).
      { split; [now destruct acc |]. intros u Hu. apply in_app_or in Hu.
        destruct Hu as [Hu | [<- | []]]; auto. }
      destruct (IH _ _ Hinv') as (H1 & H2 & H3 & H4 & H5).
      split; [| split; [exact H2 | split; [| split]]].
      * intros v Hv. destruct (H1 v Hv) as [H | (H & H')].
        -- apply in_app_or in H. destruct H as [H | [<- | []]]; simpl; auto.
        -- simpl; auto.
      * intros v u Hv [<- | Hu] Hc; [| now apply H3].
        apply H4; [exact Hv |]. apply in_or_app. right. now left.
      * intros v u Hv Hu. apply H4; [exact Hv |]. apply in_or_app. now left.
      * intros _. apply H5. left. now destruct acc.
    + apply Nat.eqb_neq in Eeq.
      assert (Hinv' : lowest_inv d (Some m) acc) by (now split).
      destruct (IH _ _ Hinv') as (H1 & H2 & H3 & H4 & H5).
      split; [| split; [exact H2 | split; [| split; [exact H4 |]]]].
      * intros v Hv. destruct (H1 v Hv) as [H | (H & H')]; simpl; auto.
      * intros v u Hv [<- | Hu] Hc; [| now apply H3].
        destruct acc as [| u0 acc']; [contradiction |].
        destruct (H4 v u0 Hv (or_introl eq_refl)) as (Hle & _).
        rewrite (Hm u0 (or_introl eq_refl)) in Hle. split; lia.
      * intros _. apply H5. now left.
Qed.

Lemma most_loop_spec L mv :
  exists r,
    most_neighbors_loop c L (Some (List.length (neighbors c mv))) (Some mv) = Some r /\
    (r = mv \/ In r L) /\
    List.length (neighbors c mv) <= List.length (neighbors c r) /\
    forall u, In u L -> List.length (neighbors c u) <= List.length (neighbors c r).
Proof.
  revert mv. induction L as [| v L IH]; intros mv; simpl.
  - exists mv. repeat split; auto. intros u [].
  - destruct (List.length (neighbors c mv) <? List.length (neighbors c v)) eqn:E.
    + apply Nat.ltb_lt in E. destruct (IH v) as (r & H1 & H2 & H3 & H4).
      exists r. split; [exact H1 |]. split; [| split].
      * destruct H2 as [-> | H2]; auto.
      * lia.
      * intros u [<- | Hu]; auto.
    + apply Nat.ltb_ge in E. destruct (IH mv) as (r & H1 & H2 & H3 & H4).
      exists r. split; [exact H1 |]. split; [| split].
      * destruct H2 as [-> | H2]; auto.
      * exact H3.
      * intros u [<- | Hu]; [lia | auto].
Qed.

Lemma assignment_complete_false :
  assignment_complete c a = false <->
  exists u, In u (variables c) /\ contains a u = false.
Proof.
  unfold assignment_complete. split.
  - intros H. induction (variables c) as [| v vs IH]; simpl in *; [discriminate |].
    destruct (contains a v) eqn:E; simpl in H.
    + destruct (IH H) as (u & Hu & Hc). exists u. auto.
    + exists v. auto.
  - intros (u & Hu & Hc). destruct (forallb _ _) eqn:E; [| reflexivity].
    rewrite forallb_forall in E. specialize (E u Hu). congruence.
Qed.

Lemma select_unassigned_variable_Ok :
  assignment_complete c a = false ->
  exists var,
    select_unassigned_variable c d a = Ok var /\
    In var (variables c) /\ contains a var = false /\
    forall u, In u (variables c) -> contains a u = false ->
              List.length (d var) <= List.length (d u) /\
              (List.length (d u) = List.length (d var) ->
               List.length (neighbors c u) <= List.length (neighbors c var)).
Proof.
  intros Hc. apply assignment_complete_false in Hc.
  unfold select_unassigned_variable.
  destruct (lowest_loop_spec (variables c) None [] eq_refl) as (H1 & H2 & H3 & _ & H5).
  destruct (lowest_domain_count_loop d a (variables c) None []) as [| v L] eqn:EL.
  { exfalso. apply H5; auto. }
  simpl. destruct (most_loop_spec L v) as (r & -> & Hr & Hle & Hmax).
  assert (Hin : In r (v :: L)) by (destruct Hr as [-> | Hr]; simpl; auto).
  exists r. split; [reflexivity |].
  destruct (H1 r Hin) as [[] | (Hv & Hcr)].
  split; [exact Hv |]. split; [exact Hcr |].
  intros u Hu Hcu. destruct (H3 r u Hin Hu Hcu) as (Hl & Hm). split; [exact Hl |].
  intros E. destruct (Hm E) as [<- | HuL]; [exact Hle | now apply Hmax].
Qed.

Lemma select_unassigned_variable_complete :
  assignment_complete c a = true ->
  select_unassigned_variable c d a = Raise UnboundLocalError.
Proof.
  intros Hc. unfold select_unassigned_variable, assignment_complete in *.
  rewrite forallb_forall in Hc.
  assert (H : lowest_domain_count_loop d a (variables c) None [] = []).
  { induction (variables c) as [| v vs IH]; simpl; [reflexivity |].
    rewrite (Hc v (or_introl eq_refl)). apply IH. intros; apply Hc; now right. }
  now rewrite H.
Qed.

End Select.

(** [select_unassigned_variable] on an assignment that leaves a variable
    out returns a variable of the crossword that is not a key of the
    assignment, with the fewest words in its domain among those, and
    among those with as few words one with the most neighbors. *)
Theorem select_unassigned_variable_minimum (c : Crossword) (d : domains)
        (a : list (Var.t * string)) :
  assignment_complete c a = false ->
  exists var,
    select_unassigned_variable c d a = Ok var /\
    In var (variables c) /\ contains a var = false /\
    forall u, In u (variables c) -> contains a u = false ->
              List.length (d var) <= List.length (d u) /\
              (List.length (d u) = List.length (d var) ->
               List.length (neighbors c u) <= List.length (neighbors c var)).
Proof.
  apply select_unassigned_variable_Ok.
Qed.

Lemma select_unassigned_variable_minimum_witness :
  exists var,
    select_unassigned_variable (grid ring_variables scored_words)
      (fun _ => scored_words) [(ring_top, "PXQ")] = Ok var /\
    In var ring_variables /\ contains [(ring_top, "PXQ")] var = false.
Proof.
  destruct (select_unassigned_variable_minimum (grid ring_variables scored_words)
              (fun _ => scored_words) [(ring_top, "PXQ")] eq_refl)
    as (var & H1 & H2 & H3 & _).
  exists var. split; [exact H1 |]. split; [exact H2 | exact H3].
Defined.

(** [select_unassigned_variable] on a complete assignment finds no
    candidate and fails on its [return]: the local variable
    [most_neighbors_variable] was never bound. *)
Theorem select_unassigned_variable_unbound (c : Crossword) (d : domains)
        (a : list (Var.t * string)) :
  assignment_complete c a = true ->
  select_unassigned_variable c d a = Raise UnboundLocalError.
Proof.
  apply select_unassigned_variable_complete.
Qed.

Lemma select_unassigned_variable_unbound_witness :
  select_unassigned_variable (grid ring_variables lost_words)
    (fun _ => lost_words) lost_solution = Raise UnboundLocalError.
Proof.
  apply select_unassigned_variable_unbound. reflexivity.
Defined.

(** ** [order_domain_values] *)

Section Order.

Variable c : Crossword.
Variable d : domains.

Lemma word_in_assignment_false w (a : list (Var.t * string)) :
  word_in_assignment w a = false.
Proof.
  unfold word_in_assignment. induction a as [| e a IH]; simpl; auto.
Qed.

Lemma score_words_Ok a word ov nwords s s' :
  score_words a word ov nwords s = Ok s' ->
  s' = s + List.length (List.filter (disagree ov word) nwords).
Proof.
  revert s. induction nwords as [| nw nwords IH]; intros s; simpl.
  - intros [= <-]. lia.
  - rewrite word_in_assignment_false. destruct ov as [[ix iy] |]; [| discriminate].
    unfold getitem. simpl.
    destruct (String.get ix word) as [ch1 |]; simpl; [| discriminate].
    destruct (String.get iy nw) as [ch2 |]; simpl; [| discriminate].
    destruct (Ascii.eqb ch1 ch2); simpl; intros H; apply IH in H; simpl; lia.
Qed.

Lemma score_words_assignment a word ov nwords s :
  score_words a word ov nwords s = score_words [] word ov nwords s.
Proof.
  revert s. induction nwords as [| nw nwords IH]; intros s; simpl; [reflexivity |].
  rewrite word_in_assignment_false. destruct ov as [o |]; [| reflexivity].
  destruct (getitem word (fst o)); simpl; try reflexivity.
  destruct (getitem nw (snd o)); simpl; try reflexivity.
  destruct (negb _); apply IH.
Qed.

Lemma score_neighbors_Ok a var word ns s s' :
  In var (variables c) ->
  (forall n, In n ns -> In n (variables c) /\ n <> var) ->
  score_neighbors c d a var word ns s = Ok s' ->
  s' = s + list_sum (map (fun n => List.length
                                     (List.filter (disagree (overlaps c var n) word) (d n)))
                         ns).
Proof.
  intros Hvar. revert s. induction ns as [| n ns IH]; intros s Hns; simpl.
  - intros [= <-]. lia.
  - destruct (Hns n (or_introl eq_refl)) as (Hn & Hne).
    rewrite (overlaps_get_key c var n Hvar Hn (not_eq_sym Hne)). simpl.
    destruct (score_words a word (overlaps c var n) (d n) s) as [s1 | |] eqn:E;
      simpl; try discriminate.
    apply score_words_Ok in E. intros H. apply IH in H; [lia |].
    intros; apply Hns; now right.
Qed.

Lemma score_neighbors_assignment a var word ns s :
  score_neighbors c d a var word ns s = score_neighbors c d [] var word ns s.
Proof.
  revert s. induction ns as [| n ns IH]; intros s; simpl; [reflexivity |].
  destruct (overlaps_get c var n); simpl; try reflexivity.
  rewrite score_words_assignment.
  destruct (score_words [] word _ (d n) s); simpl; try reflexivity. apply IH.
Qed.

Lemma word_scores_Ok a var ws rest :
  In var (variables c) ->
  word_scores c d a var ws = Ok rest ->
  rest = map (fun w => (w, conflicts c d var w)) ws.
Proof.
  intros Hvar. revert rest. induction ws as [| w ws IH]; intros rest; simpl.
  - now intros [= <-].
  - destruct (score_neighbors c d a var w (neighbors c var) 0) as [s | |] eqn:E;
      simpl; try discriminate.
    apply score_neighbors_Ok in E;
      [| exact Hvar | intros n Hn; apply In_neighbors in Hn; tauto].
    destruct (word_scores c d a var ws) as [r | |]; simpl; try discriminate.
    intros [= <-]. rewrite (IH r eq_refl). simpl in E. subst s. reflexivity.
Qed.

Lemma word_scores_assignment a var ws :
  word_scores c d a var ws = word_scores c d [] var ws.
Proof.
  induction ws as [| w ws IH]; simpl; [reflexivity |].
  now rewrite score_neighbors_assignment, IH.
Qed.

Lemma insert_sorted_perm e l : Permutation (insert_sorted e l) (e :: l).
Proof.
  induction l as [| e' l IH]; simpl; [reflexivity |].
  destruct (snd e' <? snd e); [| reflexivity].
  rewrite IH. apply perm_swap.
Qed.

Lemma sorted_perm l : Permutation (sorted l) l.
Proof.
  induction l as [| e l IH]; simpl; [reflexivity |].
  rewrite insert_sorted_perm. now constructor.
Qed.

Lemma insert_sorted_sorted e l :
  StronglySorted (fun x y => snd x <= snd y) l ->
  StronglySorted (fun x y : string * nat => snd x <= snd y) (insert_sorted e l).
Proof.
  induction l as [| e' l IH]; simpl; intros H.
  - constructor; constructor.
  - apply StronglySorted_inv in H. destruct H as (Hs & Hall).
    destruct (snd e' <? snd e) eqn:E.
    + apply Nat.ltb_lt in E. constructor; [now apply IH |].
      apply List.Forall_forall. intros x Hx.
      apply (Permutation_in _ (insert_sorted_perm e l)) in Hx.
      destruct Hx as [<- | Hx]; [lia |].
      rewrite List.Forall_forall in Hall. now apply Hall.
    + apply Nat.ltb_ge in E. constructor; [now constructor |].
      constructor; [exact E |].
      apply List.Forall_forall. intros x Hx.
      rewrite List.Forall_forall in Hall. specialize (Hall x Hx). lia.
Qed.

Lemma sorted_sorted l : StronglySorted (fun x y : string * nat => snd x <= snd y) (sorted l).
Proof.
  induction l as [| e l IH]; simpl; [constructor |]. now apply insert_sorted_sorted.
Qed.

Lemma StronglySorted_map_fst (f : string -> nat) (l : list (string * nat)) :
  (forall e, In e l -> snd e = f (fst e)) ->
  StronglySorted (fun x y => snd x <= snd y) l ->
  StronglySorted (fun w1 w2 => f w1 <= f w2) (map fst l).
Proof.
  induction l as [| e l IH]; simpl; intros Hf H; [constructor |].
  apply StronglySorted_inv in H. destruct H as (Hs & Hall). constructor.
  - apply IH; [intros; apply Hf; now right | exact Hs].
  - apply List.Forall_forall. intros w Hw. apply in_map_iff in Hw.
    destruct Hw as (e' & <- & He'). rewrite List.Forall_forall in Hall.
    specialize (Hall e' He'). rewrite <- (Hf e (or_introl eq_refl)).
    rewrite <- (Hf e' (or_intror He')). exact Hall.
Qed.

Lemma order_domain_values_Ok a var l :
  order_domain_values c d var a = Ok l ->
  Permutation l (d var) /\
  StronglySorted (fun w1 w2 => conflicts c d var w1 <= conflicts c d var w2) l /\
  order_domain_values c d var [] = Ok l.
Proof.
  unfold order_domain_values. destruct (is_variable c var) eqn:Ev; [| discriminate].
  apply is_variable_In in Ev. rewrite <- (word_scores_assignment a).
  destruct (word_scores c d a var (d var)) as [scores | |] eqn:E; simpl; try discriminate.
  intros [= <-]. apply word_scores_Ok in E; [| exact Ev]. subst scores.
  split; [| split; [| reflexivity]].
  - rewrite (Permutation_map fst (sorted_perm _)). rewrite map_map. simpl.
    now rewrite map_id.
  - apply StronglySorted_map_fst; [| apply sorted_sorted].
    intros e He. apply (Permutation_in _ (sorted_perm _)) in He.
    apply in_map_iff in He. now destruct He as (w & <- & _).
Qed.

End Order.

(** When [order_domain_values(var, assignment)] returns, its result is
    the domain of [var], rearranged in ascending order of the number of
    words in the domains of all neighbors of [var] that differ at the
    overlap; the assignment has no influence on the result. *)
Theorem order_domain_values_sorted (c : Crossword) (d : domains) (var : Var.t)
        (a : list (Var.t * string)) (l : list string) :
  order_domain_values c d var a = Ok l ->
  Permutation l (d var) /\
  StronglySorted (fun w1 w2 => conflicts c d var w1 <= conflicts c d var w2) l /\
  order_domain_values c d var [] = Ok l.
Proof.
  apply order_domain_values_Ok.
Qed.

Lemma order_domain_values_sorted_witness :
  let c := grid ring_variables scored_words in
  let d := current (snd (enforce_node_consistency c (init c))) in
  order_domain_values c d ring_top [(ring_right, "SBBB")] = Ok ["RXS"; "PXQ"] /\
  Permutation ["RXS"; "PXQ"] (d ring_top).
Proof.
  cbv zeta.
  assert (H : order_domain_values (grid ring_variables scored_words)
                (current (snd (enforce_node_consistency (grid ring_variables scored_words)
                                 (init (grid ring_variables scored_words)))))
                ring_top [(ring_right, "SBBB")] = Ok ["RXS"; "PXQ"])
    by (vm_compute; reflexivity).
  split; [exact H |].
  exact (proj1 (order_domain_values_sorted _ _ _ _ _ H)).
Defined.

(** ** [ac3] and the solutions of the puzzle *)

Section Ac3Sound.

Variable c : Crossword.
Variable a : list (Var.t * string).

Hypothesis Hdistinct : distinct (variables c) = true.
Hypothesis Hsymmetric : symmetric c = true.
Hypothesis Hconsistent : consistent c a = Ok true.

Lemma symmetric_overlap x y :
  In x (variables c) -> In y (variables c) ->
  overlaps c x y <> None -> overlaps c y x <> None.
Proof.
  intros Hx Hy Ho. unfold symmetric in Hsymmetric.
  rewrite forallb_forall in Hsymmetric. specialize (Hsymmetric x Hx).
  rewrite forallb_forall in Hsymmetric. specialize (Hsymmetric y Hy).
  unfold overlapping in Hsymmetric. simpl in Hsymmetric.
  destruct (overlaps c x y); [| contradiction].
  destruct (overlaps c y x); [discriminate | discriminate].
Qed.

Lemma solution_agrees x y o wx wy :
  In x (variables c) -> In y (variables c) -> x <> y ->
  overlaps c x y = Some o -> assigned a x wx -> assigned a y wy ->
  agree o wx wy.
Proof.
  intros Hx Hy Hxy Ho Hwx Hwy.
  pose proof (proj1 (consistent_true_iff_aux c a Hdistinct) Hconsistent) as (_ & H & _).
  destruct (H x y wx wy Hx) as (o' & Ho' & Hag); try assumption.
  - apply In_neighbors. split; [exact Hy |]. split; [auto |].
    apply symmetric_overlap; congruence.
  - congruence.
Qed.

Lemma revise_keeps_solution x y st b st' :
  within c a (current st) ->
  revise c x y st = (Ok b, st') ->
  within c a (current st').
Proof.
  intros Hw Hr v Hv. destruct (Hw v Hv) as (w & Ha & Hin). exists w. split; [exact Ha |].
  pose proof (revise_Ok _ _ _ _ _ _ Hr) as (Hx & Hy & Hxy & _).
  destruct (overlaps c x y) as [o |] eqn:Eo.
  - destruct (revise_Ok_agree c x y o st st' b Hr Eo) as (Hkeep & Hsame & _).
    destruct (Var.eqb v x) eqn:E.
    + apply var_eqb_eq in E. subst v. apply Hkeep. split; [exact Hin |].
      destruct (Hw y Hy) as (wy & Hay & Hiny). exists wy. split; [exact Hiny |].
      now apply (solution_agrees x y).
    + apply var_eqb_neq in E. now rewrite (Hsame v E).
  - rewrite (revise_no_overlap c x y st Hx Hy Hxy Eo) in Hr. now injection Hr as <- <-.
Qed.

Lemma ac3_loop_keeps_solution n arcs st b st' :
  within c a (current st) ->
  ac3_loop c n arcs st = (Ok b, st') ->
  within c a (current st').
Proof.
  revert arcs st. induction n as [| n IH]; intros arcs st Hw.
  - destruct arcs as [| [x y] rest]; simpl; [now intros [= <- <-] | discriminate].
  - destruct arcs as [| [x y] rest]; [simpl; now intros [= <- <-] |].
    rewrite ac3_loop_step.
    destruct (revise c x y st) as [[[|] | e |] st1] eqn:Er; try discriminate.
    + pose proof (revise_keeps_solution _ _ _ _ _ Hw Er) as Hw1.
      destruct (is_variable c x); [| discriminate].
      destruct (List.length (current st1 x) =? 0); [now intros [= <- <-] |].
      now apply IH.
    + apply revise_false in Er. subst st1. now apply IH.
Qed.

End Ac3Sound.

(** [ac3] is sound.  On a crossword with distinct variables and a
    symmetric overlap relation, take an assignment on which [consistent]
    returns [True] and that gives every variable a non-empty word of its
    domain.  Then a call of [ac3] that returns does not return [False],
    and every one of these words is still in its domain afterwards. *)
Theorem ac3_keeps_solutions (c : Crossword) (a : list (Var.t * string))
        (arcs : option (list (Var.t * Var.t))) (st st' : creator) (b : bool) :
  distinct (variables c) = true -> symmetric c = true ->
  consistent c a = Ok true ->
  (forall v, In v (variables c) -> exists w, assigned a v w /\ In w (current st v)) ->
  ac3 c arcs st = (Ok b, st') ->
  b = true /\
  forall v, In v (variables c) -> exists w, assigned a v w /\ In w (current st' v).
Proof.
  intros Hd Hs Hc Hw Hr.
  assert (Hw' : within c a (current st')).
  { unfold ac3 in Hr. exact (ac3_loop_keeps_solution c a Hd Hs Hc _ _ _ _ _ Hw Hr). }
  split; [| exact Hw'].
  destruct b; [reflexivity |].
  apply ac3_loop_false in Hr. destruct Hr as (x & Hx & _ & He).
  destruct (Hw' x Hx) as (w & _ & Hin). rewrite He in Hin. contradiction.
Qed.

Lemma ac3_keeps_solutions_witness :
  let c := cross ["CAT"; "ARM"; "DOG"] in
  let a := [(cross_across, "ARM"); (cross_down, "CAT")] in
  let st := snd (enforce_node_consistency c (init c)) in
  ac3 c None st = (Ok true, snd (ac3 c None st)) /\
  exists w, assigned a cross_across w /\ In w (current (snd (ac3 c None st)) cross_across).
Proof.
  cbv zeta.
  assert (H : ac3 (cross ["CAT"; "ARM"; "DOG"]) None
                (snd (enforce_node_consistency (cross ["CAT"; "ARM"; "DOG"])
                        (init (cross ["CAT"; "ARM"; "DOG"])))) =
              (Ok true,
               snd (ac3 (cross ["CAT"; "ARM"; "DOG"]) None
                      (snd (enforce_node_consistency (cross ["CAT"; "ARM"; "DOG"])
                              (init (cross ["CAT"; "ARM"; "DOG"]))))))).
  { apply injective_projections; [vm_compute; reflexivity | reflexivity]. }
  split; [exact H |].
  refine (proj2 (ac3_keeps_solutions (cross ["CAT"; "ARM"; "DOG"])
                   [(cross_across, "ARM"); (cross_down, "CAT")] None _ _ true
                   _ _ _ _ H) cross_across _).
  - vm_compute; reflexivity.
  - vm_compute; reflexivity.
  - vm_compute; reflexivity.
  - intros v [<- | [<- | []]].
    + exists "ARM". split; [split; reflexivity | vm_compute; auto].
    + exists "CAT". split; [split; reflexivity | vm_compute; auto].
  - simpl; auto.
Defined.

(** ** Snapshots of the domains *)

(** [make_domains_copy] on a store whose next free address is not the
    one of [self.domains]: the copy is a new dictionary equal to the
    current one, and later changes made through [self.domains]
    (an assignment to an entry, then [ac3]) do not reach it.  Once
    [self.domains] is set to the copy, they do change it: the copy and
    [self.domains] are the same object. *)
Theorem snapshot_isolated_until_restored (c : Crossword) (st : creator) :
  self_domains st < next st ->
  fst (make_domains_copy st) = Ok (next st) /\
  current (snd (make_domains_copy st)) = current st /\
  (forall var ws arcs,
      heap (snd (ac3 c arcs (snd (domains_set var ws (snd (make_domains_copy st))))))
      !! next st = Some (current st)) /\
  (forall var ws,
      heap (snd (domains_set var ws
                   (snd (set_self_domains (next st) (snd (make_domains_copy st))))))
      !! next st = Some (update (current st) var ws)).
Proof.
  intros Hlt. assert (Hne : next st <> self_domains st) by lia.
  split; [reflexivity |]. split; [| split].
  - unfold make_domains_copy, current. simpl. now rewrite lookup_insert_ne.
  - intros var ws arcs.
    destruct (ac3 c arcs (snd (domains_set var ws (snd (make_domains_copy st)))))
      as [r st'] eqn:E.
    unfold ac3 in E. apply ac3_loop_shrinks in E. destruct E as (_ & _ & H & _).
    simpl. rewrite H by (simpl; exact Hne).
    simpl. rewrite lookup_insert_ne by auto. now rewrite lookup_insert_eq.
  - intros var ws. simpl. rewrite lookup_insert_eq.
    unfold current. simpl. now rewrite lookup_insert_eq.
Qed.

Lemma snapshot_isolated_until_restored_witness :
  let c := cross ["CAT"; "ARM"; "DOG"] in
  self_domains (init c) < next (init c) /\
  heap (snd (ac3 c None (snd (domains_set cross_across ["ARM"]
                                 (snd (make_domains_copy (init c)))))))
  !! next (init c) = Some (current (init c)).
Proof.
  cbv zeta.
  assert (H : self_domains (init (cross ["CAT"; "ARM"; "DOG"])) <
              next (init (cross ["CAT"; "ARM"; "DOG"]))) by (simpl; lia).
  split; [exact H |].
  exact (proj1 (proj2 (proj2 (snapshot_isolated_until_restored
                                (cross ["CAT"; "ARM"; "DOG"]) _ H)))
           cross_across ["ARM"] None).
Defined.

(** ** Assignments *)

Lemma contains_set a var value v :
  contains (assignment_set a var value) v = contains a v || Var.eqb var v.
Proof.
  unfold contains. induction a as [| e a IH]; simpl.
  - now rewrite orb_false_r.
  - destruct (Var.eqb (fst e) var) eqn:E; simpl.
    + apply var_eqb_eq in E. rewrite E.
      destruct (Var.eqb var v), (existsb _ a); reflexivity.
    + rewrite IH. now rewrite orb_assoc.
Qed.

Lemma get_set_eq a var value : assignment_get (assignment_set a var value) var = Ok value.
Proof.
  unfold assignment_get. induction a as [| e a IH]; simpl.
  - now rewrite var_eqb_refl.
  - destruct (Var.eqb (fst e) var) eqn:E; simpl.
    + now rewrite E.
    + rewrite E. exact IH.
Qed.

Lemma get_set_neq a var value v :
  v <> var -> assignment_get (assignment_set a var value) v = assignment_get a v.
Proof.
  intros Hne. unfold assignment_get. induction a as [| e a IH]; simpl.
  - assert (Var.eqb var v = false) as -> by (apply var_eqb_neq; auto). reflexivity.
  - destruct (Var.eqb (fst e) var) eqn:E; simpl.
    + apply var_eqb_eq in E. rewrite E.
      assert (Var.eqb var v = false) as -> by (apply var_eqb_neq; auto). reflexivity.
    + destruct (Var.eqb (fst e) v); [reflexivity | exact IH].
Qed.

(** An entry added for a new key and deleted again leaves the
    assignment as it was. *)
Lemma del_set a var value :
  contains a var = false ->
  assignment_del (assignment_set a var value) var = Ok a.
Proof.
  intros Hc. unfold assignment_del. rewrite contains_set, var_eqb_refl, orb_true_r.
  f_equal. unfold contains in Hc. induction a as [| e a IH]; simpl.
  - now rewrite var_eqb_refl.
  - simpl in Hc. apply orb_false_elim in Hc. destruct Hc as (H1 & H2).
    rewrite H1. simpl. rewrite H1. simpl. now rewrite IH.
Qed.

Lemma consistent_nil (c : Crossword) : consistent c [] = Ok true.
Proof.
  unfold consistent. induction (variables c) as [| v vs IH]; simpl; [reflexivity | exact IH].
Qed.

(** ** [backtrack] and [solve]: the assignment returned *)

Ltac bind_inv H :=
  apply bind_Ok in H;
  let x := fresh "x" in
  let s := fresh "s" in
  let E := fresh "E" in
  destruct H as (x & s & E & H).

Section Sound.

Variable c : Crossword.

Lemma backtrack_values_sound recurse var values a st a' st' :
  (forall a0 st0 a1 st1,
      recurse a0 st0 = (Ok (true, a1), st1) -> consistent c a0 = Ok true ->
      assignment_complete c a1 = true /\ consistent c a1 = Ok true) ->
  backtrack_values c recurse var values a st = (Ok (true, a'), st') ->
  assignment_complete c a' = true /\ consistent c a' = Ok true.
Proof.
  intros Hrec. revert a st. induction values as [| value values IH]; intros a st H.
  - simpl in H. unfold ret in H. congruence.
  - cbn [backtrack_values] in H. bind_inv H. destruct x as [|].
    + unfold lift in E. injection E as Hc _.
      bind_inv H. bind_inv H. bind_inv H. bind_inv H. bind_inv H.
      destruct (fst x3 && negb (List.length (snd x3) =? 0)) eqn:Et.
      * unfold ret in H. injection H as <- <-.
        apply andb_prop in Et. destruct Et as (Et & _).
        destruct x3 as [f a1]. simpl in *. subst f.
        exact (Hrec _ _ _ _ E3 Hc).
      * bind_inv H. bind_inv H. exact (IH _ _ H).
    + bind_inv H. exact (IH _ _ H).
Qed.

Lemma backtrack_sound fuel a st a' st' :
  backtrack c fuel a st = (Ok (true, a'), st') ->
  consistent c a = Ok true ->
  assignment_complete c a' = true /\ consistent c a' = Ok true.
Proof.
  revert a st a' st'. induction fuel as [| fuel IH]; intros a st a' st' H Hc.
  - discriminate.
  - cbn [backtrack] in H. destruct (assignment_complete c a) eqn:Ea.
    + unfold ret in H. injection H as <- <-. auto.
    + bind_inv H. bind_inv H.
      apply (backtrack_values_sound (backtrack c fuel) x x0 a s0 a' st'); [| exact H].
      intros a0 st0 a1 st1 H0 Hc0. exact (IH _ _ _ _ H0 Hc0).
Qed.

End Sound.

(** Whatever the store it starts from, an assignment returned by
    [solve] is complete, and [consistent] returns [True] on it. *)
Theorem solve_result_complete_and_consistent (c : Crossword) (st st' : creator)
        (a : list (Var.t * string)) :
  solve c st = (Ok (Some a), st') ->
  assignment_complete c a = true /\ consistent c a = Ok true.
Proof.
  unfold solve. intros H. bind_inv H. bind_inv H. bind_inv H.
  unfold ret in H. destruct x1 as [f a1]. simpl in H.
  destruct f; [| discriminate]. injection H as <- <-.
  exact (backtrack_sound c _ _ _ _ _ E1 (consistent_nil c)).
Qed.

Lemma solve_result_complete_and_consistent_witness :
  let c := cross ["CAT"; "ARM"; "DOG"] in
  let a := [(cross_across, "ARM"); (cross_down, "CAT")] in
  solve c (init c) = (Ok (Some a), snd (solve c (init c))) /\
  assignment_complete c a = true /\ consistent c a = Ok true.
Proof.
  cbv zeta.
  assert (H : solve (cross ["CAT"; "ARM"; "DOG"]) (init (cross ["CAT"; "ARM"; "DOG"])) =
              (Ok (Some [(cross_across, "ARM"); (cross_down, "CAT")]),
               snd (solve (cross ["CAT"; "ARM"; "DOG"])
                      (init (cross ["CAT"; "ARM"; "DOG"]))))).
  { apply injective_projections; [vm_compute; reflexivity | reflexivity]. }
  split; [exact H |].
  exact (solve_result_complete_and_consistent _ _ _ _ H).
Defined.

(** ** No exception on a well-formed puzzle *)

Section Total.

Variable c : Crossword.
Hypothesis Hwf : well_formed c = true.

Lemma wf_symmetric : symmetric c = true.
Proof.
  unfold well_formed in Hwf. now apply andb_prop in Hwf.
Qed.

Lemma wf_overlap x y o :
  In x (variables c) -> In y (variables c) -> overlaps c x y = Some o ->
  fst o < Var.length x /\ snd o < Var.length y.
Proof.
  intros Hx Hy Ho. unfold well_formed in Hwf. apply andb_prop in Hwf.
  destruct Hwf as (_ & H). rewrite forallb_forall in H. specialize (H x Hx).
  rewrite forallb_forall in H. specialize (H y Hy). rewrite Ho in H.
  destruct o as [ix iy]. apply andb_prop in H. destruct H as (H1 & H2).
  apply Nat.ltb_lt in H1. apply Nat.ltb_lt in H2. simpl. lia.
Qed.

Lemma wf_neighbor var n :
  In var (variables c) -> In n (neighbors c var) ->
  exists o, overlaps c var n = Some o /\
            fst o < Var.length var /\ snd o < Var.length n.
Proof.
  intros Hvar Hn. apply In_neighbors in Hn. destruct Hn as (Hn & Hne & Ho).
  pose proof (symmetric_overlap c wf_symmetric n var Hn Hvar Ho) as Ho'.
  destruct (overlaps c var n) as [o |] eqn:E; [| contradiction].
  exists o. split; [reflexivity |]. now apply (wf_overlap var n).
Qed.

Lemma heap_ok_current st : heap_ok c st -> node_consistent c (current st).
Proof.
  intros H. unfold current. destruct (heap st !! self_domains st) as [dd |] eqn:E; simpl.
  - exact (H _ _ E).
  - intros v w _ [].
Qed.

Lemma heap_ok_shrinks st st' : shrinks st st' -> heap_ok c st -> heap_ok c st'.
Proof.
  intros Hs H addr dd Hl.
  destruct (Nat.eq_dec addr (self_domains st)) as [-> | Hne].
  - pose proof (shrinks_node_consistent c st st' Hs (heap_ok_current st H)) as Hn.
    destruct Hs as (Hself & _).
    assert (Hc : current st' = dd).
    { unfold current. rewrite Hself.
      transitivity (default (fun _ : Var.t => @nil string) (Some dd)); [| reflexivity].
      f_equal. exact Hl. }
    now rewrite Hc in Hn.
  - destruct Hs as (_ & _ & Hother & _). rewrite (Hother addr Hne) in Hl. exact (H _ _ Hl).
Qed.

Lemma revise_total x y st :
  node_consistent c (current st) ->
  In x (variables c) -> In y (variables c) -> x <> y ->
  exists b st', revise c x y st = (Ok b, st').
Proof.
  intros Hn Hx Hy Hxy. unfold revise, bind at 1, lift at 1.
  rewrite (overlaps_get_key c x y Hx Hy Hxy).
  destruct (overlaps c x y) as [o |] eqn:Eo; [| unfold ret; eauto].
  unfold bind at 1, domains_get. rewrite (proj2 (is_variable_In c x) Hx).
  destruct (wf_overlap x y o Hx Hy Eo) as (H1 & H2).
  apply revise_loop_total.
  - exact Hxy.
  - now apply is_variable_In.
  - intros w Hw. rewrite (Hn x w Hx Hw). exact H1.
  - intros v Hv. rewrite (Hn y v Hy Hv). exact H2.
Qed.

Lemma ac3_loop_no_raise n arcs st e st' :
  node_consistent c (current st) ->
  Forall (fun a => In a (overlaps_keys c)) arcs ->
  ac3_loop c n arcs st <> (Raise e, st').
Proof.
  revert arcs st. induction n as [| n IH]; intros arcs st Hn Hk.
  - destruct arcs as [| [x y] rest]; simpl; discriminate.
  - destruct arcs as [| [x y] rest]; [simpl; discriminate |].
    rewrite ac3_loop_step.
    apply List.Forall_cons_iff in Hk. destruct Hk as (Hxy & Hrest).
    apply In_overlaps_keys in Hxy. destruct Hxy as (Hx & Hy & Hne).
    destruct (revise_total x y st Hn Hx Hy Hne) as (b & st1 & Er). rewrite Er.
    pose proof (shrinks_node_consistent c st st1 (revise_shrinks_store c _ _ _ _ _ Er) Hn)
      as Hn1.
    destruct b.
    + rewrite (proj2 (is_variable_In c x) Hx).
      destruct (List.length (current st1 x) =? 0); [discriminate |].
      apply IH; [exact Hn1 |]. apply Forall_app. split; [exact Hrest |].
      now apply neighbor_arcs_keys.
    + now apply IH.
Qed.

Lemma ac3_total arcs st :
  heap_ok c st ->
  match arcs with
  | Some q => Forall (fun a => In a (overlaps_keys c)) q
  | None => True
  end ->
  exists b st', ac3 c arcs st = (Ok b, st') /\ heap_ok c st'.
Proof.
  intros Hh Hk. destruct (ac3 c arcs st) as [r st'] eqn:E.
  assert (Hs : heap_ok c st').
  { apply (heap_ok_shrinks st); [| exact Hh]. unfold ac3 in E.
    now apply ac3_loop_shrinks in E. }
  destruct r as [b | e |].
  - eauto.
  - exfalso. unfold ac3 in E. revert E. apply ac3_loop_no_raise.
    + now apply heap_ok_current.
    + destruct arcs as [q |]; [exact Hk | apply overlaps_keys_keys].
  - exfalso. pose proof (ac3_terminates c arcs st) as H. rewrite E in H. now apply H.
Qed.

End Total.

Section TotalSearch.

Variable c : Crossword.
Hypothesis Hwf : well_formed c = true.

Lemma heap_ok_copy st : heap_ok c st -> heap_ok c (snd (make_domains_copy st)).
Proof.
  intros H addr dd Hl. simpl in Hl. apply lookup_insert_Some in Hl.
  destruct Hl as [(_ & <-) | (_ & Hl)].
  - now apply heap_ok_current.
  - exact (H _ _ Hl).
Qed.

Lemma heap_ok_set st var value :
  heap_ok c st -> String.length value = Var.length var ->
  heap_ok c (snd (domains_set var [value] st)).
Proof.
  intros H Hlen addr dd Hl. simpl in Hl. apply lookup_insert_Some in Hl.
  destruct Hl as [(_ & <-) | (_ & Hl)].
  - intros v w Hv Hw. unfold update in Hw. destruct (Var.eqb v var) eqn:E.
    + apply var_eqb_eq in E. subst v. destruct Hw as [<- | []]. exact Hlen.
    + exact (heap_ok_current c st H v w Hv Hw).
  - exact (H _ _ Hl).
Qed.

Lemma consistent_neighbors_total a var vw ns :
  In var (variables c) -> (forall n, In n ns -> In n (neighbors c var)) ->
  lengths_ok c a -> assignment_get a var = Ok vw ->
  exists b, consistent_neighbors c a var ns = Ok b.
Proof.
  intros Hvar Hns Hlen Hvw. induction ns as [| n ns IH]; simpl; [eauto |].
  assert (IH' : exists b, consistent_neighbors c a var ns = Ok b)
    by (apply IH; intros; apply Hns; now right).
  clear IH. pose proof (Hns n (or_introl eq_refl)) as Hn.
  destruct (contains a n) eqn:Ec; simpl; [| exact IH'].
  destruct (contains_true _ _ Ec) as (nw & Hnw). rewrite Hnw. simpl.
  destruct (truthy nw) eqn:Et; simpl; [| exact IH'].
  destruct (wf_neighbor c Hwf var n Hvar Hn) as (o & Ho & H1 & H2).
  pose proof (proj1 (In_neighbors c n var) Hn) as (Hnv & Hne & _).
  rewrite (overlaps_get_key c var n Hvar Hnv (not_eq_sym Hne)). simpl.
  rewrite Hvw, Ho. simpl. unfold getitem.
  destruct (get_Some_lt vw (fst o)) as (ch1 & ->); [rewrite (Hlen var vw Hvar Hvw); exact H1 |].
  destruct (get_Some_lt nw (snd o)) as (ch2 & ->); [rewrite (Hlen n nw Hnv Hnw); exact H2 |].
  simpl. destruct (Ascii.eqb ch1 ch2); simpl; [exact IH' | eauto].
Qed.

Lemma consistent_loop_total a vars used count :
  (forall v, In v vars -> In v (variables c)) -> lengths_ok c a ->
  exists b, consistent_loop c a vars used count = Ok b.
Proof.
  intros Hvars Hlen. revert used count.
  induction vars as [| var vars IH]; intros used count; simpl.
  - destruct (negb _); eauto.
  - assert (IH' : forall used count, exists b, consistent_loop c a vars used count = Ok b)
      by (apply IH; intros; apply Hvars; now right).
    clear IH. pose proof (Hvars var (or_introl eq_refl)) as Hvar.
    destruct (contains a var) eqn:Ec; [| apply IH'].
    destruct (contains_true _ _ Ec) as (vw & Hvw). rewrite Hvw. simpl.
    destruct (truthy vw); [| apply IH'].
    destruct (consistent_neighbors_total a var vw (neighbors c var) Hvar (fun n H => H)
                Hlen Hvw) as (b & ->).
    simpl. destruct b; simpl; [| eauto].
    destruct (negb _); [eauto | apply IH'].
Qed.

Lemma consistent_total a : lengths_ok c a -> exists b, consistent c a = Ok b.
Proof.
  intros H. unfold consistent. now apply consistent_loop_total.
Qed.

Lemma score_words_total a word o nwords s :
  fst o < String.length word ->
  (forall nw, In nw nwords -> snd o < String.length nw) ->
  exists s', score_words a word (Some o) nwords s = Ok s'.
Proof.
  intros H1. revert s. induction nwords as [| nw nwords IH]; intros s H2; simpl; [eauto |].
  rewrite word_in_assignment_false. unfold getitem.
  destruct (get_Some_lt word (fst o) H1) as (ch1 & ->).
  destruct (get_Some_lt nw (snd o)) as (ch2 & ->); [apply H2; now left |].
  simpl. destruct (negb _); apply IH; intros; apply H2; now right.
Qed.

Lemma score_neighbors_total d a var word ns s :
  In var (variables c) -> (forall n, In n ns -> In n (neighbors c var)) ->
  node_consistent c d -> String.length word = Var.length var ->
  exists s', score_neighbors c d a var word ns s = Ok s'.
Proof.
  intros Hvar Hns Hd Hlen. revert s. induction ns as [| n ns IH]; intros s; simpl; [eauto |].
  pose proof (Hns n (or_introl eq_refl)) as Hn.
  destruct (wf_neighbor c Hwf var n Hvar Hn) as (o & Ho & H1 & H2).
  pose proof (proj1 (In_neighbors c n var) Hn) as (Hnv & Hne & _).
  rewrite (overlaps_get_key c var n Hvar Hnv (not_eq_sym Hne)). simpl. rewrite Ho.
  destruct (score_words_total a word o (d n) s) as (s1 & ->).
  - now rewrite Hlen.
  - intros nw Hnw. now rewrite (Hd n nw Hnv Hnw).
  - simpl. apply IH. intros; apply Hns; now right.
Qed.

Lemma word_scores_total d a var ws :
  In var (variables c) -> node_consistent c d ->
  (forall w, In w ws -> String.length w = Var.length var) ->
  exists rest, word_scores c d a var ws = Ok rest.
Proof.
  intros Hvar Hd. induction ws as [| w ws IH]; intros Hws; simpl; [eauto |].
  destruct (score_neighbors_total d a var w (neighbors c var) 0 Hvar (fun n H => H) Hd)
    as (s & ->); [apply Hws; now left |].
  simpl. destruct IH as (rest & ->); [intros; apply Hws; now right |].
  simpl. eauto.
Qed.

Lemma order_domain_values_total d a var :
  In var (variables c) -> node_consistent c d ->
  exists l, order_domain_values c d var a = Ok l.
Proof.
  intros Hvar Hd. unfold order_domain_values.
  rewrite (proj2 (is_variable_In c var) Hvar).
  destruct (word_scores_total d a var (d var) Hvar Hd) as (rest & ->).
  - intros w Hw. exact (Hd var w Hvar Hw).
  - simpl. eauto.
Qed.

Lemma filter_length_lt2 {A} (p q : A -> bool) (l : list A) (x : A) :
  (forall v, p v = true -> q v = true) -> In x l -> q x = true -> p x = false ->
  List.length (List.filter p l) < List.length (List.filter q l).
Proof.
  intros Hpq. induction l as [| v l IH]; simpl; intros Hx Hq Hp; [contradiction |].
  assert (Hle : List.length (List.filter p l) <= List.length (List.filter q l)).
  { clear - Hpq. induction l as [| u l IHl]; simpl; [lia |].
    destruct (p u) eqn:E1.
    - rewrite (Hpq u E1). simpl. lia.
    - destruct (q u); simpl; lia. }
  destruct Hx as [-> | Hx].
  - rewrite Hp, Hq. simpl. lia.
  - specialize (IH Hx Hq Hp). destruct (p v) eqn:E1.
    + rewrite (Hpq v E1). simpl. lia.
    + destruct (q v); simpl; lia.
Qed.

Lemma unassigned_set_lt a var value :
  In var (variables c) -> contains a var = false ->
  List.length (unassigned c (assignment_set a var value)) < List.length (unassigned c a).
Proof.
  intros Hvar Hc. unfold unassigned. apply filter_length_lt2 with (x := var).
  - intros v. rewrite contains_set. destruct (contains a v); simpl; [discriminate | auto].
  - exact Hvar.
  - now rewrite Hc.
  - now rewrite contains_set, var_eqb_refl, orb_true_r.
Qed.

Lemma lengths_ok_set a var value :
  lengths_ok c a -> String.length value = Var.length var ->
  lengths_ok c (assignment_set a var value).
Proof.
  intros H Hlen v w Hv Hg. destruct (Var.eqb v var) eqn:E.
  - apply var_eqb_eq in E. subst v. rewrite get_set_eq in Hg. now injection Hg as <-.
  - apply var_eqb_neq in E. rewrite (get_set_neq _ _ _ _ E) in Hg. exact (H v w Hv Hg).
Qed.

Lemma gnoq_keys var :
  Forall (fun a => In a (overlaps_keys c)) (get_neighbors_overlap_queue c var).
Proof.
  apply List.Forall_forall. intros a Ha. unfold get_neighbors_overlap_queue in Ha.
  now apply filter_In in Ha.
Qed.

End TotalSearch.

Section TotalBacktrack.

Variable c : Crossword.
Hypothesis Hwf : well_formed c = true.

Lemma backtrack_values_total recurse f var values a st :
  (forall a0 st0,
      heap_ok c st0 -> lengths_ok c a0 -> List.length (unassigned c a0) < f ->
      exists r st1,
        recurse a0 st0 = (Ok r, st1) /\ heap_ok c st1 /\
        (fst r = false -> snd r = a0) /\
        (fst r = true -> forall v, contains a0 v = true -> contains (snd r) v = true)) ->
  In var (variables c) -> contains a var = false -> lengths_ok c a ->
  (forall value, In value values -> String.length value = Var.length var) ->
  List.length (unassigned c a) <= f ->
  heap_ok c st ->
  exists r st',
    backtrack_values c recurse var values a st = (Ok r, st') /\ heap_ok c st' /\
    (fst r = false -> snd r = a) /\
    (fst r = true -> forall v, contains a v = true -> contains (snd r) v = true).
Proof.
  intros Hrec Hvar Hc Hlen Hvalues Hf. revert st.
  induction values as [| value values IH]; intros st Hst.
  - simpl. unfold ret. exists (false, a), st. repeat split; auto; simpl; discriminate.
  - assert (IH' : forall st0, heap_ok c st0 ->
                  exists r st',
                    backtrack_values c recurse var values a st0 = (Ok r, st') /\
                    heap_ok c st' /\ (fst r = false -> snd r = a) /\
                    (fst r = true ->
                     forall v, contains a v = true -> contains (snd r) v = true))
      by (apply IH; intros; apply Hvalues; now right).
    clear IH. pose proof (Hvalues value (or_introl eq_refl)) as Hvalue.
    pose proof (lengths_ok_set c a var value Hlen Hvalue) as Hlen'.
    destruct (consistent_total c Hwf _ Hlen') as (ok & Hok).
    cbn [backtrack_values].
    rewrite (bind_run _ _ st ok st) by (unfold lift; now rewrite Hok).
    destruct ok.
    + rewrite (bind_run _ _ st (next st) (snd (make_domains_copy st))) by reflexivity.
      pose proof (heap_ok_copy c st Hst) as H1.
      rewrite (bind_run _ _ _ tt (snd (domains_set var [value] (snd (make_domains_copy st)))))
        by reflexivity.
      pose proof (heap_ok_set c _ var value H1 Hvalue) as H2.
      destruct (ac3_total c Hwf (Some (get_neighbors_overlap_queue c var)) _ H2
                  (gnoq_keys c var)) as (p & st3 & E3 & H3).
      rewrite (bind_run _ _ _ _ _ E3).
      assert (E4 : exists st4,
                 (if negb p then set_self_domains (next st) else ret tt) st3 = (Ok tt, st4) /\
                 heap_ok c st4).
      { destruct p; simpl; [exists st3; auto |].
        eexists. split; [reflexivity |]. exact H3. }
      destruct E4 as (st4 & E4 & H4). rewrite (bind_run _ _ _ _ _ E4).
      destruct (Hrec (assignment_set a var value) st4 H4 Hlen') as (r & st5 & E5 & H5 & Hr1 & Hr2).
      { pose proof (unassigned_set_lt c a var value Hvar Hc). lia. }
      rewrite (bind_run _ _ _ _ _ E5).
      destruct (fst r && negb (List.length (snd r) =? 0)) eqn:Et.
      * unfold ret. exists (true, snd r), st5. split; [reflexivity |]. split; [exact H5 |].
        split; [discriminate |]. intros _ v Hv. simpl.
        apply andb_prop in Et. destruct Et as (Et & _). apply (Hr2 Et).
        rewrite contains_set, Hv. reflexivity.
      * rewrite (bind_run _ _ st5 tt (snd (set_self_domains (next st) st5))) by reflexivity.
        assert (Hdel : assignment_del (snd r) var = Ok a).
        { destruct (fst r) eqn:Ef.
          - exfalso. simpl in Et. apply negb_false_iff in Et. apply Nat.eqb_eq in Et.
            assert (Hk : contains (snd r) var = true).
            { apply (Hr2 eq_refl). now rewrite contains_set, var_eqb_refl, orb_true_r. }
            destruct (snd r); [discriminate | discriminate].
          - rewrite (Hr1 eq_refl). now apply del_set. }
        rewrite (bind_run _ _ _ a (snd (set_self_domains (next st) st5)))
          by (unfold lift; now rewrite Hdel).
        apply IH'. exact H5.
    + rewrite (bind_run _ _ st a st)
        by (unfold lift; now rewrite (del_set a var value Hc)).
      now apply IH'.
Qed.

Lemma backtrack_total fuel a st :
  heap_ok c st -> lengths_ok c a -> List.length (unassigned c a) < fuel ->
  exists r st',
    backtrack c fuel a st = (Ok r, st') /\ heap_ok c st' /\
    (fst r = false -> snd r = a) /\
    (fst r = true -> forall v, contains a v = true -> contains (snd r) v = true).
Proof.
  revert a st. induction fuel as [| fuel IH]; intros a st Hst Hlen Hf; [lia |].
  cbn [backtrack]. destruct (assignment_complete c a) eqn:Ea.
  - unfold ret. exists (true, a), st. repeat split; auto; simpl; discriminate.
  - destruct (select_unassigned_variable_Ok c (current st) a Ea)
      as (var & Hsel & Hvar & Hc & _).
    rewrite (bind_run _ _ st var st) by (now rewrite Hsel).
    pose proof (heap_ok_current c st Hst) as Hn.
    destruct (order_domain_values_total c Hwf (current st) a var Hvar Hn) as (l & Hl).
    rewrite (bind_run _ _ st l st) by (now rewrite Hl).
    apply backtrack_values_total with (f := fuel); try assumption.
    + intros value Hv. apply order_domain_values_Ok in Hl. destruct Hl as (Hp & _).
      apply (Permutation_in _ Hp) in Hv. exact (Hn var value Hvar Hv).
    + lia.
Qed.

Lemma heap_ok_init_enforced :
  heap_ok c (snd (enforce_node_consistency c (init c))).
Proof.
  destruct (enforce_node_consistency_run c (init c)) as (st' & E & Hs & _).
  pose proof (enforce_node_consistent c (init c)) as Hn. rewrite E in *. simpl in *.
  intros addr dd Hl. destruct Hs as (Hself & _ & Hother & _).
  destruct (Nat.eq_dec addr 0) as [-> | Hne].
  - assert (Hc : current st' = dd).
    { unfold current. rewrite Hself. simpl.
      transitivity (default (fun _ : Var.t => @nil string) (Some dd)); [| reflexivity].
      f_equal. exact Hl. }
    now rewrite Hc in Hn.
  - rewrite (Hother addr) in Hl by (simpl; exact Hne). simpl in Hl.
    rewrite lookup_singleton_ne in Hl by auto. discriminate.
Qed.

Lemma solve_total :
  exists r st', solve c (init c) = (Ok r, st').
Proof.
  unfold solve.
  destruct (enforce_node_consistency_run c (init c)) as (st1 & E1 & _).
  pose proof heap_ok_init_enforced as H1. rewrite E1 in H1. simpl in H1.
  rewrite (bind_run _ _ _ _ _ E1).
  destruct (ac3_total c Hwf None st1 H1 I) as (b & st2 & E2 & H2).
  rewrite (bind_run _ _ _ _ _ E2).
  destruct (backtrack_total (S (List.length (variables c))) [] st2 H2)
    as (r & st3 & E3 & _).
  - intros v w _ H. discriminate.
  - unfold unassigned. pose proof (List.filter_length_le
                                     (fun v => negb (contains [] v)) (variables c)). lia.
  - rewrite (bind_run _ _ _ _ _ E3). unfold ret. eauto.
Qed.

End TotalBacktrack.

(** On a well-formed puzzle [solve], called on a new creator, returns
    (an assignment or [None]): no method raises on the way, the loop of
    [ac3] ends and the recursion of [backtrack] is never deeper than the
    number of variables plus one. *)
Theorem solve_returns_on_well_formed (c : Crossword) :
  well_formed c = true ->
  exists r st', solve c (init c) = (Ok r, st').
Proof.
  apply solve_total.
Qed.

Lemma solve_returns_on_well_formed_witness :
  exists r st', solve (grid ring_variables lost_words)
                  (init (grid ring_variables lost_words)) = (Ok r, st').
Proof.
  apply solve_returns_on_well_formed. vm_compute. reflexivity.
Defined.

(** In [backtrack], when [consistent] accepts the tentative entry and
    the [ac3] pass that follows returns [False], [self.domains] becomes
    the snapshot, whose domains are those from before the entry was
    forced; the entry stays in the assignment and the recursive call is
    made in that store, the rest of the loop being as after a successful
    pass. *)
Theorem backtrack_recurses_after_failed_propagation (c : Crossword)
        (recurse : list (Var.t * string) -> M (bool * list (Var.t * string)))
        (var : Var.t) (value : string) (values : list string)
        (a : list (Var.t * string)) (st st3 : creator) :
  self_domains st < next st ->
  consistent c (assignment_set a var value) = Ok true ->
  ac3 c (Some (get_neighbors_overlap_queue c var))
      (snd (domains_set var [value] (snd (make_domains_copy st)))) = (Ok false, st3) ->
  self_domains (snd (set_self_domains (next st) st3)) = next st /\
  current (snd (set_self_domains (next st) st3)) = current st /\
  backtrack_values c recurse var (value :: values) a st =
  (result <- recurse (assignment_set a var value) ;;
   if fst result && negb (List.length (snd result) =? 0)
   then ret (true, snd result)
   else
     set_self_domains (next st) ;;;
     assignment <- lift (assignment_del (snd result) var) ;;
     backtrack_values c recurse var values assignment)
    (snd (set_self_domains (next st) st3)).
Proof.
  intros Hlt Hc Hac. assert (Hne : next st <> self_domains st) by lia.
  split; [reflexivity |]. split.
  - unfold ac3 in Hac. apply ac3_loop_shrinks in Hac. destruct Hac as (_ & _ & H & _).
    unfold current. simpl.
    transitivity (default (fun _ : Var.t => @nil string) (Some (current st)));
      [| reflexivity].
    f_equal. rewrite H by (simpl; exact Hne). simpl.
    rewrite lookup_insert_ne by auto. now rewrite lookup_insert_eq.
  - cbn [backtrack_values].
    rewrite (bind_run _ _ st true st) by (unfold lift; now rewrite Hc).
    rewrite (bind_run _ _ st (next st) (snd (make_domains_copy st))) by reflexivity.
    rewrite (bind_run _ _ _ tt (snd (domains_set var [value] (snd (make_domains_copy st)))))
      by reflexivity.
    rewrite (bind_run _ _ _ _ _ Hac).
    rewrite (bind_run _ _ st3 tt (snd (set_self_domains (next st) st3))) by reflexivity.
    reflexivity.
Qed.

Lemma backtrack_recurses_after_failed_propagation_witness :
  let c := grid ring_variables twisted_words in
  let st := before_backtrack c in
  let st3 := snd (ac3 c (Some (get_neighbors_overlap_queue c ring_top))
                    (snd (domains_set ring_top ["AXB"] (snd (make_domains_copy st))))) in
  self_domains st < next st /\
  current (snd (set_self_domains (next st) st3)) = current st.
Proof.
  cbv zeta.
  assert (H1 : self_domains (before_backtrack (grid ring_variables twisted_words)) <
               next (before_backtrack (grid ring_variables twisted_words)))
    by (vm_compute; lia).
  assert (H2 : consistent (grid ring_variables twisted_words)
                 (assignment_set [] ring_top "AXB") = Ok true)
    by (vm_compute; reflexivity).
  split; [exact H1 |].
  refine (proj1 (proj2 (backtrack_recurses_after_failed_propagation
                          (grid ring_variables twisted_words)
                          (backtrack (grid ring_variables twisted_words) 0)
                          ring_top "AXB" [] [] _ _ H1 H2 _))).
  apply injective_projections; [vm_compute; reflexivity | reflexivity].
Defined.

(** When [solve] reaches [backtrack] with an empty domain for some
    variable, it returns [None] at once: the variable chosen has no value
    to try, and the store is left as the two consistency passes made
    it. *)
Theorem solve_gives_up_on_empty_domain (c : Crossword) (st st2 : creator)
        (b : bool) (x : Var.t) :
  (enforce_node_consistency c ;;; ac3 c None) st = (Ok b, st2) ->
  In x (variables c) -> current st2 x = [] ->
  solve c st = (Ok None, st2).
Proof.
  intros Hrun Hx Hempty. unfold solve.
  apply bind_Ok in Hrun. destruct Hrun as ([] & st1 & E1 & E2).
  rewrite (bind_run _ _ _ _ _ E1), (bind_run _ _ _ _ _ E2).
  assert (Ea : assignment_complete c [] = false).
  { apply assignment_complete_false. exists x. auto. }
  destruct (select_unassigned_variable_Ok c (current st2) [] Ea)
    as (var & Hsel & Hvar & Hc & Hmin).
  destruct (Hmin x Hx eq_refl) as (Hle & _). rewrite Hempty in Hle. simpl in Hle.
  assert (Hd : current st2 var = []) by (destruct (current st2 var); [reflexivity | simpl in Hle; lia]).
  assert (Eb : backtrack c (S (List.length (variables c))) [] st2 = (Ok (false, []), st2)).
  { cbn [backtrack]. rewrite Ea.
    rewrite (bind_run _ _ st2 var st2) by (now rewrite Hsel).
    rewrite (bind_run _ _ st2 [] st2); [reflexivity |].
    unfold order_domain_values. rewrite (proj2 (is_variable_In c var) Hvar), Hd.
    reflexivity. }
  rewrite (bind_run _ _ _ _ _ Eb). reflexivity.
Qed.

Lemma solve_gives_up_on_empty_domain_witness :
  let c := cross ["TO"; "CAT"; "DOG"] in
  solve c (init c) = (Ok None, before_backtrack c).
Proof.
  cbv zeta.
  apply (solve_gives_up_on_empty_domain (cross ["TO"; "CAT"; "DOG"]) _ _ false cross_across).
  - apply injective_projections; [vm_compute; reflexivity | reflexivity].
  - simpl; auto.
  - vm_compute; reflexivity.
Defined.

(** ** [ac3]: the largest arc-consistent store, and incremental use *)

Section Ac3Largest.

Variable c : Crossword.
Variable D : domains.

Hypothesis HD :
  forall x y o w, In x (variables c) -> In y (variables c) -> x <> y ->
                  overlaps c x y = Some o -> In w (D x) ->
                  exists v, In v (D y) /\ agree o w v.

Lemma revise_keeps_below x y st b st' :
  (forall v w, In v (variables c) -> In w (D v) -> In w (current st v)) ->
  revise c x y st = (Ok b, st') ->
  forall v w, In v (variables c) -> In w (D v) -> In w (current st' v).
Proof.
  intros Hsub Hr v w Hv Hw.
  pose proof (revise_Ok _ _ _ _ _ _ Hr) as (Hx & Hy & Hxy & _).
  destruct (overlaps c x y) as [o |] eqn:Eo.
  - destruct (revise_Ok_agree c x y o st st' b Hr Eo) as (Hkeep & Hsame & _).
    destruct (Var.eqb v x) eqn:E.
    + apply var_eqb_eq in E. subst v. apply Hkeep. split; [now apply Hsub |].
      destruct (HD x y o w Hx Hy Hxy Eo Hw) as (u & Hu & Hag).
      exists u. split; [now apply Hsub | exact Hag].
    + apply var_eqb_neq in E. rewrite (Hsame v E). now apply Hsub.
  - rewrite (revise_no_overlap c x y st Hx Hy Hxy Eo) in Hr. injection Hr as <- <-.
    now apply Hsub.
Qed.

Lemma ac3_loop_keeps_below n arcs st b st' :
  (forall v w, In v (variables c) -> In w (D v) -> In w (current st v)) ->
  ac3_loop c n arcs st = (Ok b, st') ->
  forall v w, In v (variables c) -> In w (D v) -> In w (current st' v).
Proof.
  revert arcs st. induction n as [| n IH]; intros arcs st Hsub.
  - destruct arcs as [| [x y] rest]; simpl; [now intros [= <- <-] | discriminate].
  - destruct arcs as [| [x y] rest]; [simpl; now intros [= <- <-] |].
    rewrite ac3_loop_step.
    destruct (revise c x y st) as [[[|] | e |] st1] eqn:Er; try discriminate.
    + pose proof (revise_keeps_below _ _ _ _ _ Hsub Er) as Hsub1.
      destruct (is_variable c x); [| discriminate].
      destruct (List.length (current st1 x) =? 0); [now intros [= <- <-] |].
      now apply IH.
    + apply revise_false in Er. subst st1. now apply IH.
Qed.

End Ac3Largest.

(** Whatever the order of the queue, [ac3] removes no word of an
    arc-consistent family of sub-domains: if every word of [D x] agrees
    with some word of [D y] for every overlapping pair, and [D] lies
    inside the store, then [D] lies inside the store [ac3] leaves.  With
    the fixed point reached on [True], the result of [ac3] is the largest
    such family. *)
Theorem ac3_keeps_arc_consistent_subdomains (c : Crossword) (D : domains)
        (arcs : option (list (Var.t * Var.t))) (st st' : creator) (b : bool) :
  (forall x y o w, In x (variables c) -> In y (variables c) -> x <> y ->
                   overlaps c x y = Some o -> In w (D x) ->
                   exists v, In v (D y) /\ agree o w v) ->
  (forall v w, In v (variables c) -> In w (D v) -> In w (current st v)) ->
  ac3 c arcs st = (Ok b, st') ->
  forall v w, In v (variables c) -> In w (D v) -> In w (current st' v).
Proof.
  intros HD Hsub Hr. unfold ac3 in Hr.
  exact (ac3_loop_keeps_below c D HD _ _ _ _ _ Hsub Hr).
Qed.

Lemma ac3_keeps_arc_consistent_subdomains_witness :
  let c := cross ["CAT"; "ARM"; "DOG"] in
  let D := fun v => if Var.eqb v cross_across then ["ARM"] else ["CAT"] in
  let st := snd (enforce_node_consistency c (init c)) in
  ac3 c None st = (Ok true, snd (ac3 c None st)) /\
  In "ARM" (current (snd (ac3 c None st)) cross_across).
Proof.
  cbv zeta.
  assert (H : ac3 (cross ["CAT"; "ARM"; "DOG"]) None
                (snd (enforce_node_consistency (cross ["CAT"; "ARM"; "DOG"])
                        (init (cross ["CAT"; "ARM"; "DOG"])))) =
              (Ok true,
               snd (ac3 (cross ["CAT"; "ARM"; "DOG"]) None
                      (snd (enforce_node_consistency (cross ["CAT"; "ARM"; "DOG"])
                              (init (cross ["CAT"; "ARM"; "DOG"]))))))).
  { apply injective_projections; [vm_compute; reflexivity | reflexivity]. }
  split; [exact H |].
  refine (ac3_keeps_arc_consistent_subdomains (cross ["CAT"; "ARM"; "DOG"])
            (fun v => if Var.eqb v cross_across then ["ARM"] else ["CAT"])
            None _ _ true _ _ H cross_across "ARM" _ _).
  - intros x y o w [<- | [<- | []]] [<- | [<- | []]] Hne Ho Hw;
      try congruence; vm_compute in Ho; injection Ho as <-;
      destruct Hw as [<- | []].
    + exists "CAT". split; [now left | now exists "A"%char].
    + exists "ARM". split; [now left | now exists "A"%char].
  - intros v w [<- | [<- | []]] Hw; destruct Hw as [<- | []]; vm_compute; auto.
  - simpl; auto.
  - now left.
Defined.

Lemma node_consistentb_ok (c : Crossword) (d : domains) :
  node_consistentb c d = true -> node_consistent c d.
Proof.
  unfold node_consistentb. rewrite forallb_forall. intros H v w Hv Hw.
  specialize (H v Hv). rewrite forallb_forall in H. specialize (H w Hw).
  now apply Nat.eqb_eq in H.
Qed.

Lemma heap_okb_ok (c : Crossword) (st : creator) :
  heap_okb c st = true -> heap_ok c st.
Proof.
  unfold heap_okb. rewrite forallb_forall. intros H addr dd Hl.
  apply node_consistentb_ok. apply (H (addr, dd)).
  apply list_elem_of_In. now apply elem_of_map_to_list.
Qed.

Lemma lengths_okb_ok (c : Crossword) (a : list (Var.t * string)) :
  lengths_okb c a = true -> lengths_ok c a.
Proof.
  unfold lengths_okb. rewrite forallb_forall. intros H v w Hv Hg.
  specialize (H v Hv). rewrite Hg in H. now apply Nat.eqb_eq in H.
Qed.

(** On a well-formed puzzle, a call of [backtrack] with a node-consistent
    store and an assignment of words of the right length returns; when it
    returns [None] the assignment dictionary is as it was passed (every
    tentative entry was deleted again), and when it returns the
    assignment, the keys it was passed are still there. *)
Theorem backtrack_restores_assignment (c : Crossword) (fuel : nat)
        (a : list (Var.t * string)) (st : creator) :
  well_formed c = true -> heap_okb c st = true -> lengths_okb c a = true ->
  List.length (unassigned c a) < fuel ->
  exists r st',
    backtrack c fuel a st = (Ok r, st') /\
    (fst r = false -> snd r = a) /\
    (fst r = true -> forall v, contains a v = true -> contains (snd r) v = true).
Proof.
  intros Hwf Hst Hlen Hf. apply heap_okb_ok in Hst. apply lengths_okb_ok in Hlen.
  destruct (backtrack_total c Hwf fuel a st Hst Hlen Hf) as (r & st' & E & _ & H1 & H2).
  exists r, st'. auto.
Qed.

Lemma backtrack_restores_assignment_witness :
  let c := grid ring_variables twisted_words in
  exists r st',
    backtrack c 5 [(ring_top, "AXB")] (before_backtrack c) = (Ok r, st') /\
    (fst r = false -> snd r = [(ring_top, "AXB")]).
Proof.
  cbv zeta.
  destruct (backtrack_restores_assignment (grid ring_variables twisted_words) 5
              [(ring_top, "AXB")] (before_backtrack (grid ring_variables twisted_words)))
    as (r & st' & E & H & _).
  - vm_compute; reflexivity.
  - vm_compute; reflexivity.
  - vm_compute; reflexivity.
  - vm_compute. lia.
  - exists r, st'. auto.
Defined.

Lemma get_neighbors_overlap_queue_members_aux (c : Crossword) (var x y : Var.t) :
  In (x, y) (get_neighbors_overlap_queue c var) <->
  y = var /\ In x (variables c) /\ In var (variables c) /\ x <> var.
Proof.
  unfold get_neighbors_overlap_queue. rewrite filter_In, In_overlaps_keys. simpl.
  rewrite var_eqb_eq. split.
  - intros ((Hx & Hy & Hne) & ->). auto.
  - intros (-> & Hx & Hv & Hne). auto.
Qed.

(** [get_neighbors_overlap_queue(var)] holds the pair [(z, var)] for
    every variable [z] other than [var], whether the two overlap or not,
    and nothing else. *)
Theorem get_neighbors_overlap_queue_members (c : Crossword) (var x y : Var.t) :
  In (x, y) (get_neighbors_overlap_queue c var) <->
  y = var /\ In x (variables c) /\ In var (variables c) /\ x <> var.
Proof.
  apply get_neighbors_overlap_queue_members_aux.
Qed.

(** ** Incremental propagation *)

(** The incremental pass of [backtrack] restores arc consistency.  In a
    store where no [revise] changes anything, force the domain of [var]
    to one of its words and run [ac3] on [get_neighbors_overlap_queue
    (var)]: if it returns [True], again no [revise] changes anything. *)
Theorem incremental_ac3_restores_arc_consistency (c : Crossword) (st st' : creator)
        (var : Var.t) (value : string) :
  (forall x y, In (x, y) (overlaps_keys c) -> revise c x y st = (Ok false, st)) ->
  In var (variables c) -> In value (current st var) ->
  ac3 c (Some (get_neighbors_overlap_queue c var))
      (snd (domains_set var [value] st)) = (Ok true, st') ->
  forall x y, In (x, y) (overlaps_keys c) -> revise c x y st' = (Ok false, st').
Proof.
  intros Hfix Hvar Hvalue Hac x y Hk.
  assert (Hinv : queued_or_supported c [] st').
  { unfold ac3 in Hac. apply ac3_loop_fixpoint in Hac; [exact Hac |].
    intros a b o Ha Hb Hab Ho.
    destruct (Var.eqb b var) eqn:E.
    - apply var_eqb_eq in E. subst b. left.
      apply get_neighbors_overlap_queue_members_aux. auto.
    - apply var_eqb_neq in E. right.
      assert (Hs : supported st a b o).
      { apply (revise_supported c a b o st false st); [| exact Ho].
        apply Hfix. apply In_overlaps_keys. auto. }
      intros w Hw. simpl in *. rewrite current_set_current in *.
      rewrite (update_neq _ _ _ _ E). apply Hs.
      unfold update in Hw. destruct (Var.eqb a var) eqn:Ea; [| exact Hw].
      apply var_eqb_eq in Ea. subst a. destruct Hw as [<- | []]. exact Hvalue. }
  apply In_overlaps_keys in Hk. destruct Hk as (Hx & Hy & Hne).
  destruct (overlaps c x y) as [o |] eqn:Eo.
  - destruct (Hinv x y o Hx Hy Hne Eo) as [[] | Hs]. now apply revise_noop with (o := o).
  - now apply revise_no_overlap.
Qed.

Lemma incremental_ac3_restores_arc_consistency_witness :
  let c := cross ["CAT"; "ARM"; "DOG"; "CUT"; "AIM"] in
  let st := before_backtrack c in
  let st' := snd (ac3 c (Some (get_neighbors_overlap_queue c cross_across))
                    (snd (domains_set cross_across ["ARM"] st))) in
  ac3 c (Some (get_neighbors_overlap_queue c cross_across))
      (snd (domains_set cross_across ["ARM"] st)) = (Ok true, st') /\
  revise c cross_down cross_across st' = (Ok false, st').
Proof.
  cbv zeta.
  assert (H : ac3 (cross ["CAT"; "ARM"; "DOG"; "CUT"; "AIM"])
                (Some (get_neighbors_overlap_queue
                         (cross ["CAT"; "ARM"; "DOG"; "CUT"; "AIM"]) cross_across))
                (snd (domains_set cross_across ["ARM"]
                        (before_backtrack (cross ["CAT"; "ARM"; "DOG"; "CUT"; "AIM"])))) =
              (Ok true,
               snd (ac3 (cross ["CAT"; "ARM"; "DOG"; "CUT"; "AIM"])
                      (Some (get_neighbors_overlap_queue
                               (cross ["CAT"; "ARM"; "DOG"; "CUT"; "AIM"]) cross_across))
                      (snd (domains_set cross_across ["ARM"]
                              (before_backtrack
                                 (cross ["CAT"; "ARM"; "DOG"; "CUT"; "AIM"]))))))).
  { apply injective_projections; [vm_compute; reflexivity | reflexivity]. }
  split; [exact H |].
  refine (incremental_ac3_restores_arc_consistency
            (cross ["CAT"; "ARM"; "DOG"; "CUT"; "AIM"]) _ _ cross_across "ARM"
            _ _ _ H cross_down cross_across _).
  - intros x y Hk. vm_compute in Hk.
    destruct Hk as [[= <- <-] | [[= <- <-] | []]];
      (apply injective_projections; [vm_compute; reflexivity | vm_compute; reflexivity]).
  - simpl; auto.
  - vm_compute; auto.
  - vm_compute; auto.
Defined.

(** ** [letter_grid] *)

Section LetterGrid.

Variables height width : nat.

Lemma set_cell_inside g i j ch :
  shape height width g -> i < height -> j < width ->
  exists g', set_cell g i j ch = Ok g' /\ shape height width g' /\
             forall i' j', cell g' i' j' =
                           if (i' =? i) && (j' =? j) then Some (Some ch) else cell g i' j'.
Proof.
  intros (Hh & Hw) Hi Hj. unfold set_cell.
  destruct (g !! i) as [row |] eqn:Er.
  2:{ apply lookup_ge_None in Er. lia. }
  pose proof (Hw i row Er) as Hrow. rewrite Hrow.
  destruct (j <? width) eqn:Ej; [| apply Nat.ltb_ge in Ej; lia].
  eexists. split; [reflexivity |]. split.
  - split; [now rewrite length_insert |].
    intros i' row' Hl. apply list_lookup_insert_Some in Hl.
    destruct Hl as [(_ & Heq & _) | (_ & Hl)]; [subst row' |].
    + now rewrite length_insert.
    + exact (Hw _ _ Hl).
  - intros i' j'. unfold cell.
    destruct (i' =? i) eqn:Ei; simpl.
    + apply Nat.eqb_eq in Ei. subst i'.
      rewrite list_lookup_insert_eq by lia. rewrite Er.
      destruct (j' =? j) eqn:Ej'.
      * apply Nat.eqb_eq in Ej'. subst j'. apply list_lookup_insert_eq. lia.
      * apply Nat.eqb_neq in Ej'. apply list_lookup_insert_ne. auto.
    + apply Nat.eqb_neq in Ei. rewrite list_lookup_insert_ne by auto. reflexivity.
Qed.

Lemma set_cell_outside g i j ch :
  shape height width g -> ~ (i < height /\ j < width) ->
  set_cell g i j ch = Raise IndexError.
Proof.
  intros (Hh & Hw) Hout. unfold set_cell.
  destruct (g !! i) as [row |] eqn:Er; [| reflexivity].
  assert (Hi : i < height).
  { rewrite <- Hh. apply lookup_lt_is_Some. eauto. }
  rewrite (Hw i row Er). destruct (j <? width) eqn:Ej; [| reflexivity].
  apply Nat.ltb_lt in Ej. tauto.
Qed.

Lemma position_injective v k k' : position v k = position v k' -> k = k'.
Proof.
  unfold position. destruct (Var.direction v); intros H; injection H; intros; lia.
Qed.

(** The loop over the letters of one word, all of them inside the
    grid. *)
Lemma letter_grid_word_inside v word ks g :
  shape height width g ->
  (forall k, In k ks -> k < String.length word /\
                        fst (position v k) < height /\ snd (position v k) < width) ->
  exists g',
    letter_grid_word v word ks g = Ok g' /\ shape height width g' /\
    forall i j,
      (forall k, In k ks -> position v k = (i, j) ->
                 cell g' i j = Some (String.get k word)) /\
      ((forall k, In k ks -> position v k <> (i, j)) -> cell g' i j = cell g i j).
Proof.
  revert g. induction ks as [| k ks IH]; intros g Hg Hks; cbn [letter_grid_word].
  - exists g. split; [reflexivity |]. split; [exact Hg |].
    intros i j. split; [intros k [] | reflexivity].
  - destruct (Hks k (or_introl eq_refl)) as (Hk & Hi & Hj).
    unfold getitem. destruct (get_Some_lt word k Hk) as (ch & Hch). rewrite Hch.
    cbn [rbind].
    destruct (set_cell_inside g _ _ ch Hg Hi Hj) as (g1 & Hset & Hg1 & Hcell).
    rewrite Hset. cbn [rbind].
    destruct (IH g1 Hg1) as (g' & Hrun & Hg' & Hspec); [intros; apply Hks; now right |].
    exists g'. split; [exact Hrun |]. split; [exact Hg' |].
    intros i j. destruct (Hspec i j) as (Hhit & Hmiss). split.
    + intros k0 [<- | Hin] Hpos; [| now apply Hhit].
      destruct (in_dec Nat.eq_dec k ks) as [Hin | Hout]; [now apply Hhit |].
      rewrite Hmiss.
      * rewrite Hcell, Hpos. simpl. rewrite !Nat.eqb_refl. simpl. now rewrite Hch.
      * intros k' Hk' Hpos'. rewrite <- Hpos in Hpos'.
        apply position_injective in Hpos'. now subst.
    + intros Hnone. rewrite Hmiss by (intros; apply Hnone; now right).
      rewrite Hcell.
      destruct ((i =? fst (position v k)) && (j =? snd (position v k))) eqn:E;
        [| reflexivity].
      exfalso. apply andb_prop in E. destruct E as (E1 & E2).
      apply Nat.eqb_eq in E1. apply Nat.eqb_eq in E2.
      apply (Hnone k (or_introl eq_refl)). rewrite E1, E2. now destruct (position v k).
Qed.

(** The loop over the letters of one word that leaves the grid. *)
Lemma letter_grid_word_outside v word ks g :
  shape height width g ->
  (forall k, In k ks -> k < String.length word) ->
  (exists k, In k ks /\ ~ (fst (position v k) < height /\ snd (position v k) < width)) ->
  letter_grid_word v word ks g = Raise IndexError.
Proof.
  revert g. induction ks as [| k ks IH]; intros g Hg Hks (k0 & Hin & Hout);
    cbn [letter_grid_word].
  - contradiction.
  - unfold getitem.
    destruct (get_Some_lt word k (Hks k (or_introl eq_refl))) as (ch & ->). cbn [rbind].
    destruct (Nat.lt_ge_cases (fst (position v k)) height) as [Hi | Hi];
      [destruct (Nat.lt_ge_cases (snd (position v k)) width) as [Hj | Hj] |].
    + destruct (set_cell_inside g _ _ ch Hg Hi Hj) as (g1 & Hset & Hg1 & _).
      rewrite Hset. cbn [rbind].
      apply IH; [exact Hg1 | intros; apply Hks; now right |].
      destruct Hin as [<- | Hin]; [tauto | eauto].
    + rewrite set_cell_outside; [reflexivity | exact Hg | lia].
    + rewrite set_cell_outside; [reflexivity | exact Hg | lia].
Qed.

Lemma position_letter_of v word k i j :
  k < String.length word -> position v k = (i, j) ->
  letter_of (v, word) i j = String.get k word.
Proof.
  intros Hk. unfold position, letter_of. simpl.
  destruct (Var.direction v); intros [= <- <-].
  - rewrite Nat.add_0_r, Nat.eqb_refl. simpl.
    assert ((Var.j v <=? Var.j v + k) = true) as -> by (apply Nat.leb_le; lia).
    f_equal. lia.
  - rewrite Nat.add_0_r, Nat.eqb_refl. simpl.
    assert ((Var.i v <=? Var.i v + k) = true) as -> by (apply Nat.leb_le; lia).
    f_equal. lia.
Qed.

Lemma letter_of_position v word i j ch :
  letter_of (v, word) i j = Some ch ->
  exists k, k < String.length word /\ position v k = (i, j).
Proof.
  unfold letter_of, position. simpl. destruct (Var.direction v).
  - destruct ((i =? Var.i v) && (Var.j v <=? j)) eqn:E; [| discriminate].
    apply andb_prop in E. destruct E as (E1 & E2).
    apply Nat.eqb_eq in E1. apply Nat.leb_le in E2. intros Hg.
    apply get_Some_length in Hg. exists (j - Var.j v). split; [exact Hg |].
    f_equal; lia.
  - destruct ((j =? Var.j v) && (Var.i v <=? i)) eqn:E; [| discriminate].
    apply andb_prop in E. destruct E as (E1 & E2).
    apply Nat.eqb_eq in E1. apply Nat.leb_le in E2. intros Hg.
    apply get_Some_length in Hg. exists (i - Var.i v). split; [exact Hg |].
    f_equal; lia.
Qed.

Lemma inside_positions v word :
  inside height width (v, word) = true ->
  forall k, In k (seq 0 (String.length word)) ->
            k < String.length word /\
            fst (position v k) < height /\ snd (position v k) < width.
Proof.
  intros H k Hk. apply in_seq in Hk. split; [lia |].
  unfold inside in H. simpl in H. apply orb_prop in H.
  destruct H as [H | H]; [apply Nat.eqb_eq in H; lia |].
  unfold position. destruct (Var.direction v); apply andb_prop in H;
    destruct H as (H1 & H2); apply Nat.ltb_lt in H1; apply Nat.leb_le in H2; simpl; lia.
Qed.

Lemma outside_position v word :
  inside height width (v, word) = false ->
  exists k, In k (seq 0 (String.length word)) /\
            ~ (fst (position v k) < height /\ snd (position v k) < width).
Proof.
  intros H. unfold inside in H. simpl in H. apply orb_false_elim in H.
  destruct H as (H0 & H). apply Nat.eqb_neq in H0.
  unfold position. destruct (Var.direction v); apply andb_false_iff in H;
    destruct H as [H | H].
  - apply Nat.ltb_ge in H. exists 0. split; [apply in_seq; lia | simpl; lia].
  - apply Nat.leb_gt in H. exists (String.length word - 1).
    split; [apply in_seq; lia | simpl; lia].
  - apply Nat.ltb_ge in H. exists 0. split; [apply in_seq; lia | simpl; lia].
  - apply Nat.leb_gt in H. exists (String.length word - 1).
    split; [apply in_seq; lia | simpl; lia].
Qed.

(** One entry inside the grid: its letters are in their cells, the other
    cells are as before. *)
Lemma letter_grid_entry v word g :
  shape height width g -> inside height width (v, word) = true ->
  exists g',
    letter_grid_word v word (seq 0 (String.length word)) g = Ok g' /\
    shape height width g' /\
    forall i j, cell g' i j =
                match letter_of (v, word) i j with
                | Some ch => Some (Some ch)
                | None => cell g i j
                end.
Proof.
  intros Hg Hin.
  destruct (letter_grid_word_inside v word _ g Hg (inside_positions v word Hin))
    as (g' & Hrun & Hg' & Hspec).
  exists g'. split; [exact Hrun |]. split; [exact Hg' |].
  intros i j. destruct (Hspec i j) as (Hhit & Hmiss).
  destruct (letter_of (v, word) i j) as [ch |] eqn:El.
  - destruct (letter_of_position v word i j ch El) as (k & Hk & Hpos).
    rewrite (Hhit k); [| apply in_seq; lia | exact Hpos].
    now rewrite <- (position_letter_of v word k i j Hk Hpos), El.
  - apply Hmiss. intros k Hk Hpos. apply in_seq in Hk.
    rewrite (position_letter_of v word k i j) in El; [| lia | exact Hpos].
    destruct (get_Some_lt word k) as (ch & Hch); [lia | congruence].
Qed.

Lemma letter_grid_items_inside a g :
  shape height width g -> forallb (inside height width) a = true ->
  exists g',
    letter_grid_items a g = Ok g' /\ shape height width g' /\
    forall i j, cell g' i j =
                fold_left (fun acc e => match letter_of e i j with
                                        | Some ch => Some (Some ch)
                                        | None => acc
                                        end) a (cell g i j).
Proof.
  revert g. induction a as [| [v word] a IH]; intros g Hg Hin; simpl.
  - exists g. auto.
  - simpl in Hin. apply andb_prop in Hin. destruct Hin as (Hin & Hrest).
    destruct (letter_grid_entry v word g Hg Hin) as (g1 & -> & Hg1 & Hcell). simpl.
    destruct (IH g1 Hg1 Hrest) as (g' & Hrun & Hg' & Hspec).
    exists g'. split; [exact Hrun |]. split; [exact Hg' |].
    intros i j. now rewrite Hspec, Hcell.
Qed.

Lemma letter_grid_items_outside a g :
  shape height width g -> forallb (inside height width) a = false ->
  letter_grid_items a g = Raise IndexError.
Proof.
  revert g. induction a as [| [v word] a IH]; intros g Hg Hin; simpl; [discriminate |].
  simpl in Hin. destruct (inside height width (v, word)) eqn:E.
  - destruct (letter_grid_entry v word g Hg E) as (g1 & -> & Hg1 & _). simpl.
    now apply IH.
  - rewrite (letter_grid_word_outside v word _ g Hg); [reflexivity | |].
    + intros k Hk. apply in_seq in Hk. lia.
    + now apply outside_position.
Qed.

Lemma shape_blank : shape height width (replicate height (replicate width None)).
Proof.
  split; [apply length_replicate |].
  intros i row Hl. apply lookup_replicate in Hl. destruct Hl as (-> & _).
  apply length_replicate.
Qed.

Lemma cell_blank i j :
  i < height -> j < width ->
  cell (replicate height (replicate width None)) i j = Some None.
Proof.
  intros Hi Hj. unfold cell. rewrite lookup_replicate_2 by exact Hi.
  now apply lookup_replicate_2.
Qed.

End LetterGrid.

Lemma fold_shown (a : list (Var.t * string)) i j (x : option ascii) :
  fold_left (fun acc e => match letter_of e i j with
                          | Some ch => Some (Some ch)
                          | None => acc
                          end) a (Some x) =
  Some (fold_left (fun acc e => match letter_of e i j with
                                | Some ch => Some ch
                                | None => acc
                                end) a x).
Proof.
  revert x. induction a as [| e a IH]; intros x; simpl; [reflexivity |].
  destruct (letter_of e i j); apply IH.
Qed.

(** When every word of the assignment lies inside the grid,
    [letter_grid] returns [height] rows of [width] cells, and every cell
    holds the letter of the last entry of the assignment that covers it,
    [None] when no entry does. *)
Theorem letter_grid_shows_last_letter (height width : nat)
        (a : list (Var.t * string)) :
  forallb (inside height width) a = true ->
  exists g,
    letter_grid height width a = Ok g /\
    List.length g = height /\
    (forall i row, g !! i = Some row -> List.length row = width) /\
    forall i j, i < height -> j < width -> cell g i j = Some (shown a i j).
Proof.
  intros Hin. unfold letter_grid.
  destruct (letter_grid_items_inside height width a _ (shape_blank height width) Hin)
    as (g & Hrun & (Hh & Hw) & Hcell).
  exists g. split; [exact Hrun |]. split; [exact Hh |]. split; [exact Hw |].
  intros i j Hi Hj. rewrite Hcell, (cell_blank height width i j Hi Hj).
  apply fold_shown.
Qed.

Lemma letter_grid_shows_last_letter_witness :
  exists g,
    letter_grid 3 3 [(cross_across, "ARM"); (cross_down, "CAT")] = Ok g /\
    List.length g = 3.
Proof.
  destruct (letter_grid_shows_last_letter 3 3
              [(cross_across, "ARM"); (cross_down, "CAT")] eq_refl)
    as (g & H1 & H2 & _).
  exists g. split; [exact H1 | exact H2].
Defined.

(** When some non-empty word of the assignment does not lie inside the
    grid, [letter_grid] raises [IndexError]. *)
Theorem letter_grid_index_error (height width : nat) (a : list (Var.t * string)) :
  forallb (inside height width) a = false ->
  letter_grid height width a = Raise IndexError.
Proof.
  intros Hout. unfold letter_grid.
  apply (letter_grid_items_outside height width); [apply shape_blank | exact Hout].
Qed.

Lemma letter_grid_index_error_witness :
  letter_grid 3 3 [(cross_across, "ARMS")] = Raise IndexError.
Proof.
  apply letter_grid_index_error. reflexivity.
Defined.

(** ** Running the consistency passes again *)

Lemma ac3_loop_at_fixed_point (c : Crossword) (n : nat)
      (arcs : list (Var.t * Var.t)) (st : creator) :
  (forall x y, In (x, y) arcs -> revise c x y st = (Ok false, st)) ->
  List.length arcs <= n ->
  ac3_loop c n arcs st = (Ok true, st).
Proof.
  revert arcs. induction n as [| n IH]; intros arcs Hfix Hn.
  - destruct arcs; [reflexivity | simpl in Hn; lia].
  - destruct arcs as [| [x y] rest]; [reflexivity |].
    rewrite ac3_loop_step, (Hfix x y (or_introl eq_refl)).
    apply IH; [intros; apply Hfix; now right | simpl in Hn; lia].
Qed.

(** [ac3] is idempotent: after a call without argument that returned
    [True], a second call returns [True] and leaves the store as it
    is. *)
Theorem ac3_idempotent (c : Crossword) (st st' : creator) :
  ac3 c None st = (Ok true, st') ->
  ac3 c None st' = (Ok true, st').
Proof.
  intros H. unfold ac3 at 1. apply ac3_loop_at_fixed_point; [| unfold ac3_fuel; lia].
  intros x y Hk. apply In_overlaps_keys in Hk. destruct Hk as (Hx & Hy & Hne).
  destruct (overlaps c x y) as [o |] eqn:Eo; [| now apply revise_no_overlap].
  unfold ac3 in H. apply ac3_loop_fixpoint in H.
  - destruct (H x y o Hx Hy Hne Eo) as [[] | Hs]. now apply revise_noop with (o := o).
  - intros a b o' Ha Hb Hab _. left. apply In_overlaps_keys. auto.
Qed.

Lemma ac3_idempotent_witness :
  let c := cross ["CAT"; "ARM"; "DOG"] in
  let st' := snd (ac3 c None (snd (enforce_node_consistency c (init c)))) in
  ac3 c None st' = (Ok true, st').
Proof.
  cbv zeta. apply ac3_idempotent with
    (st := snd (enforce_node_consistency (cross ["CAT"; "ARM"; "DOG"])
                  (init (cross ["CAT"; "ARM"; "DOG"])))).
  apply injective_projections; [vm_compute; reflexivity | reflexivity].
Defined.

(** [enforce_node_consistency] is idempotent: a second call changes no
    domain. *)
Theorem enforce_node_consistency_idempotent (c : Crossword) (st : creator) (v : Var.t) :
  current (snd (enforce_node_consistency c (snd (enforce_node_consistency c st)))) v =
  current (snd (enforce_node_consistency c st)) v.
Proof.
  destruct (enforce_node_consistency_run c st) as (st1 & -> & _ & H1 & H2). simpl.
  destruct (enforce_node_consistency_run c st1) as (st2 & -> & _ & K1 & K2). simpl.
  destruct (In_var_dec v (variables c)) as [Hin | Hout].
  - rewrite (K1 v Hin), (H1 v Hin). apply filter_fits_twice.
  - now apply K2.
Qed.

(** On a well-formed puzzle, whatever [backtrack] returns, the
    dictionary [self.domains] refers to afterwards is node consistent,
    when every dictionary of the store was before and the assignment
    holds words of the right length: snapshots, forced domains and
    restores keep the length invariant. *)
Theorem backtrack_keeps_node_consistency (c : Crossword) (fuel : nat)
        (a : list (Var.t * string)) (st : creator) :
  well_formed c = true -> heap_okb c st = true -> lengths_okb c a = true ->
  List.length (unassigned c a) < fuel ->
  node_consistent c (current (snd (backtrack c fuel a st))).
Proof.
  intros Hwf Hst Hlen Hf. apply heap_okb_ok in Hst. apply lengths_okb_ok in Hlen.
  destruct (backtrack_total c Hwf fuel a st Hst Hlen Hf) as (r & st' & -> & H & _).
  simpl. now apply heap_ok_current.
Qed.

Lemma backtrack_keeps_node_consistency_witness :
  let c := grid ring_variables twisted_words in
  node_consistent c (current (snd (backtrack c 5 [] (before_backtrack c)))).
Proof.
  cbv zeta. apply backtrack_keeps_node_consistency.
  - vm_compute; reflexivity.
  - vm_compute; reflexivity.
  - vm_compute; reflexivity.
  - vm_compute. lia.
Defined.
